(** * gizlang/playground: the stdio bridge and the language-server client

    A shallow embedding of [src/worker.ts]: the [Stdio] file descriptors of
    the sandboxed engine (the framed [stdout] decoder of [fd_write], the
    shared-buffer [fd_read]), the JSON-RPC client [LspClient] with its
    pending-request map, and the editor plugin [LspPlugin] (document
    versions, completion post-processing, diagnostics mapping, position
    conversion).

    JavaScript values are modelled as the code uses them: a string is its
    sequence of UTF-16 code units, a byte buffer is a list of bytes, a
    [Map] is a finite map, a promise is a cell of a heap that is settled at
    most once, and the continuation of an [await] is a job of the microtask
    queue. *)

From Stdlib Require Import ZArith NArith Lia Bool List Ascii String.
From Stdlib.Strings Require Import Byte.
From Stdlib Require Import Permutation Sorted.
From stdpp Require Import base option list gmap strings sorting.

Local Open Scope Z_scope.

(** ** JavaScript strings and numbers *)

(** A JavaScript string: the list of its UTF-16 code units. *)
Definition JSString := list N.

(** The code units of an ASCII literal of the source. *)
Definition lit (s : string) : JSString :=
  map N_of_ascii (list_ascii_of_string s).

Definition CR : N := 13%N.
Definition LF : N := 10%N.

(** A JavaScript number as far as this program computes with it: an
    integer, or [NaN] (what [parseInt] gives when it finds no digit).  The
    model is exact on integers; the source's doubles agree with it below
    2^53. *)
Inductive number := NaN | Num (z : Z).

Definition num_add (a b : number) : number :=
  match a, b with
  | Num x, Num y => Num (x + y)
  | _, _ => NaN
  end.

(** [a < b] of JavaScript: false as soon as one side is [NaN]. *)
Definition num_lt (a b : number) : bool :=
  match a, b with
  | Num x, Num y => x <? y
  | _, _ => false
  end.

(** [a === b] on numbers: [NaN] equals nothing. *)
Definition num_eq (a b : number) : bool :=
  match a, b with
  | Num x, Num y => x =? y
  | _, _ => false
  end.

(** [ToIntegerOrInfinity]: what an index argument becomes. *)
Definition to_integer (a : number) : Z :=
  match a with NaN => 0 | Num z => z end.

(** [a.length] *)
Definition zlen {A} (l : list A) : Z := Z.of_nat (length l).

Fixpoint js_prefix (p s : JSString) : bool :=
  match p, s with
  | [], _ => true
  | _ :: _, [] => false
  | a :: p', b :: s' => (a =? b)%N && js_prefix p' s'
  end.

(** [s.startsWith(p)] *)
Definition startsWith (s p : JSString) : bool := js_prefix p s.

(** [s.indexOf(p)]: the first index where [p] occurs, [-1] when none. *)
Fixpoint indexOf_from (i : Z) (s p : JSString) : Z :=
  if js_prefix p s then i
  else match s with
       | [] => -1
       | _ :: s' => indexOf_from (i + 1) s' p
       end.

Definition indexOf (s p : JSString) : Z := indexOf_from 0 s p.

(** A relative index of [slice], clamped into [0, len]. *)
Definition clamp_index (l i : Z) : Z :=
  if i <? 0 then Z.max (l + i) 0 else Z.min i l.

(** [s.slice(start, end)] of strings and arrays. *)
Definition slice {A} (s : list A) (start stop : number) : list A :=
  let from := clamp_index (zlen s) (to_integer start) in
  let to := clamp_index (zlen s) (to_integer stop) in
  take (Z.to_nat (to - from)) (drop (Z.to_nat from) s).

(** [s.slice(start)] *)
Definition slice_from {A} (s : list A) (start : number) : list A :=
  drop (Z.to_nat (clamp_index (zlen s) (to_integer start))) s.

(** [a.splice(0, deleteCount)]: the array that remains.  The delete count
    is clamped into [0, length]; [NaN] deletes nothing. *)
Definition splice0 {A} (a : list A) (deleteCount : number) : list A :=
  drop (Z.to_nat (Z.min (Z.max (to_integer deleteCount) 0) (zlen a))) a.

(** *** [parseInt] *)

(** [StrWhiteSpaceChar]: white space and line terminators. *)
Definition is_js_space (c : N) : bool :=
  ((c =? 9) || (c =? 10) || (c =? 11) || (c =? 12) || (c =? 13) ||
   (c =? 32) || (c =? 160) || (c =? 5760) ||
   ((8192 <=? c) && (c <=? 8202)) ||
   (c =? 8232) || (c =? 8233) || (c =? 8239) || (c =? 8287) ||
   (c =? 12288) || (c =? 65279))%N.

Fixpoint skip_space (s : JSString) : JSString :=
  match s with
  | c :: s' => if is_js_space c then skip_space s' else s
  | [] => []
  end.

(** The value of a digit in the given radix, if it is one. *)
Definition digit_value (radix c : N) : option Z :=
  let v :=
    if ((48 <=? c) && (c <=? 57))%N then Some (c - 48)%N
    else if ((97 <=? c) && (c <=? 122))%N then Some (c - 97 + 10)%N
    else if ((65 <=? c) && (c <=? 90))%N then Some (c - 65 + 10)%N
    else None in
  match v with
  | Some d => if (d <? radix)%N then Some (Z.of_N d) else None
  | None => None
  end.

(** The longest prefix of digits, accumulated from the left; [None] when
    the string starts with no digit. *)
Fixpoint digits_value (radix : N) (acc : option Z) (s : JSString) : option Z :=
  match s with
  | c :: s' =>
      match digit_value radix c with
      | Some d =>
          digits_value radix
            (Some (Z.of_N radix * match acc with Some a => a | None => 0 end + d)) s'
      | None => acc
      end
  | [] => acc
  end.

(** [parseInt(s)] with no radix argument: white space, a sign, [0x] or
    [0X] for radix 16, then the digits. *)
Definition parseInt (s : JSString) : number :=
  let s1 := skip_space s in
  let '(sign, s2) :=
    match s1 with
    | c :: r =>
        if (c =? 45)%N then (-1, r)
        else if (c =? 43)%N then (1, r)
        else (1, s1)
    | [] => (1, s1)
    end in
  let '(radix, s3) :=
    match s2 with
    | a :: b :: r =>
        if ((a =? 48) && ((b =? 120) || (b =? 88)))%N then (16%N, r)
        else (10%N, s2)
    | _ => (10%N, s2)
    end in
  match digits_value radix None s3 with
  | Some v => Num (sign * v)
  | None => NaN
  end.

(** *** [TextDecoder("utf-8").decode] *)

(** The state of the UTF-8 decoder of the Encoding standard. *)
Record utf8_state := {
  u_cp : N; u_seen : N; u_needed : N; u_lower : N; u_upper : N }.

Definition utf8_init : utf8_state :=
  {| u_cp := 0; u_seen := 0; u_needed := 0; u_lower := 128; u_upper := 191 |}.

Definition REPLACEMENT : N := 65533%N.

(** A byte read when no sequence is open. *)
Definition utf8_lead (b : N) : list N * utf8_state :=
  (if b <=? 127 then ([b], utf8_init)
   else if (194 <=? b) && (b <=? 223) then
     ([], {| u_cp := N.land b 31; u_seen := 0; u_needed := 1;
             u_lower := 128; u_upper := 191 |})
   else if (224 <=? b) && (b <=? 239) then
     ([], {| u_cp := N.land b 15; u_seen := 0; u_needed := 2;
             u_lower := if b =? 224 then 160 else 128;
             u_upper := if b =? 237 then 159 else 191 |})
   else if (240 <=? b) && (b <=? 244) then
     ([], {| u_cp := N.land b 7; u_seen := 0; u_needed := 3;
             u_lower := if b =? 240 then 144 else 128;
             u_upper := if b =? 244 then 143 else 191 |})
   else ([REPLACEMENT], utf8_init))%N.

(** One byte through the decoder: the code points it emits and the next
    state.  A byte that breaks an open sequence emits the replacement
    character and is read again as a lead byte. *)
Definition utf8_step (st : utf8_state) (b : N) : list N * utf8_state :=
  (if u_needed st =? 0 then utf8_lead b
   else if (b <? u_lower st) || (u_upper st <? b) then
     let '(out, st') := utf8_lead b in (REPLACEMENT :: out, st')
   else
     let cp := N.lor (N.shiftl (u_cp st) 6) (N.land b 63) in
     if u_seen st + 1 =? u_needed st then ([cp], utf8_init)
     else ([], {| u_cp := cp; u_seen := u_seen st + 1; u_needed := u_needed st;
                  u_lower := 128; u_upper := 191 |}))%N.

Fixpoint utf8_run (st : utf8_state) (bs : list byte) : list N :=
  match bs with
  | [] => if (u_needed st =? 0)%N then [] else [REPLACEMENT]
  | b :: bs' =>
      let '(out, st') := utf8_step st (Byte.to_N b) in
      out ++ utf8_run st' bs'
  end.

(** A code point as UTF-16 code units. *)
Definition utf16_units (cp : N) : list N :=
  (if cp <? 65536 then [cp]
   else [55296 + N.shiftr (cp - 65536) 10; 56320 + N.land (cp - 65536) 1023])%N.

(** [new TextDecoder("utf-8").decode(bytes)]: malformed input becomes the
    replacement character, a leading byte order mark is dropped. *)
Definition TextDecoder_decode (bs : list byte) : JSString :=
  let cps := utf8_run utf8_init bs in
  let cps' := match cps with
              | c :: r => if (c =? 65279)%N then r else cps
              | [] => []
              end in
  concat (map utf16_units cps').

(** ** [JSON.parse] *)

#[local] Set Warnings "-register-all".

(** A parsed JSON text.  A number keeps its lexeme, an object the list of
    its members in the order of the text. *)
Inductive json :=
| JNull
| JBool (b : bool)
| JNumber (lexeme : JSString)
| JString (s : JSString)
| JArray (items : list json)
| JObject (members : list (JSString * json)).

Definition is_json_ws (c : N) : bool :=
  ((c =? 32) || (c =? 9) || (c =? 10) || (c =? 13))%N.

Fixpoint skip_ws (s : JSString) : JSString :=
  match s with
  | c :: s' => if is_json_ws c then skip_ws s' else s
  | [] => []
  end.

(** The rest of [s] after the code unit [c], if [s] starts with it. *)
Definition expect (c : N) (s : JSString) : option JSString :=
  match s with
  | x :: r => if (x =? c)%N then Some r else None
  | [] => None
  end.

(** The rest of [s] after the literal [p], if [s] starts with it. *)
Definition expect_lit (p s : JSString) : option JSString :=
  if js_prefix p s then Some (drop (length p) s) else None.

Definition is_digit (c : N) : bool := ((48 <=? c) && (c <=? 57))%N.

Fixpoint span_digits (s : JSString) : JSString * JSString :=
  match s with
  | c :: s' =>
      if is_digit c then let '(ds, r) := span_digits s' in (c :: ds, r)
      else ([], s)
  | [] => ([], [])
  end.

Definition hex4 (a b c d : N) : option N :=
  match digit_value 16 a, digit_value 16 b, digit_value 16 c, digit_value 16 d with
  | Some x, Some y, Some z, Some w =>
      Some (Z.to_N (((x * 16 + y) * 16 + z) * 16 + w))
  | _, _, _, _ => None
  end.

(** The characters of a string up to its closing quote, escapes resolved. *)
Fixpoint parse_string_body (s : JSString) (acc : JSString)
  : option (JSString * JSString) :=
  match s with
  | [] => None
  | c :: r =>
      if (c =? 34)%N then Some (rev acc, r)
      else if (c =? 92)%N then
        match r with
        | [] => None
        | e :: r1 =>
            if ((e =? 34) || (e =? 92) || (e =? 47))%N
            then parse_string_body r1 (e :: acc)
            else if (e =? 98)%N then parse_string_body r1 (8%N :: acc)
            else if (e =? 102)%N then parse_string_body r1 (12%N :: acc)
            else if (e =? 110)%N then parse_string_body r1 (10%N :: acc)
            else if (e =? 114)%N then parse_string_body r1 (13%N :: acc)
            else if (e =? 116)%N then parse_string_body r1 (9%N :: acc)
            else if (e =? 117)%N then
              match r1 with
              | a :: b :: c' :: d :: r2 =>
                  match hex4 a b c' d with
                  | Some u => parse_string_body r2 (u :: acc)
                  | None => None
                  end
              | _ => None
              end
            else None
        end
      else if (c <? 32)%N then None
      else parse_string_body r (c :: acc)
  end.

(** The lexeme of a number: sign, integer part, fraction, exponent. *)
Definition parse_number (s : JSString) : option (JSString * JSString) :=
  let '(sign, s1) :=
    match expect 45 s with Some r => ([45%N], r) | None => ([], s) end in
  let int_part :=
    match s1 with
    | c :: r =>
        if (c =? 48)%N then Some ([48%N], r)
        else if is_digit c then Some (span_digits s1)
        else None
    | [] => None
    end in
  match int_part with
  | None => None
  | Some (ip, s2) =>
      let frac :=
        match expect 46 s2 with
        | Some r =>
            let '(ds, r') := span_digits r in
            match ds with [] => None | _ => Some (46%N :: ds, r') end
        | None => Some ([], s2)
        end in
      match frac with
      | None => None
      | Some (fp, s3) =>
          match s3 with
          | e :: r =>
              if ((e =? 101) || (e =? 69))%N then
                let '(esign, r1) :=
                  match r with
                  | x :: r' =>
                      if ((x =? 43) || (x =? 45))%N then ([x], r') else ([], r)
                  | [] => ([], r)
                  end in
                let '(ds, r2) := span_digits r1 in
                match ds with
                | [] => None
                | _ => Some (sign ++ ip ++ fp ++ e :: esign ++ ds, r2)
                end
              else Some (sign ++ ip ++ fp, s3)
          | [] => Some (sign ++ ip ++ fp, s3)
          end
      end
  end.

(** A value, the elements of an array after its bracket, the members of an
    object after its brace.  [fuel] bounds the depth of the calls; each call
    consumes input. *)
Fixpoint parse_value (fuel : nat) (s : JSString) : option (json * JSString) :=
  match fuel with
  | O => None
  | S f =>
      match skip_ws s with
      | [] => None
      | c :: r =>
          if (c =? 123)%N then
            match expect 125 (skip_ws r) with
            | Some r' => Some (JObject [], r')
            | None => parse_members f r []
            end
          else if (c =? 91)%N then
            match expect 93 (skip_ws r) with
            | Some r' => Some (JArray [], r')
            | None => parse_elements f r []
            end
          else if (c =? 34)%N then
            match parse_string_body r [] with
            | Some (str, r') => Some (JString str, r')
            | None => None
            end
          else if (c =? 116)%N then
            option_map (fun r' => (JBool true, r')) (expect_lit (lit "rue") r)
          else if (c =? 102)%N then
            option_map (fun r' => (JBool false, r')) (expect_lit (lit "alse") r)
          else if (c =? 110)%N then
            option_map (fun r' => (JNull, r')) (expect_lit (lit "ull") r)
          else
            match parse_number (c :: r) with
            | Some (lx, r') => Some (JNumber lx, r')
            | None => None
            end
      end
  end
with parse_elements (fuel : nat) (s : JSString) (acc : list json)
  : option (json * JSString) :=
  match fuel with
  | O => None
  | S f =>
      match parse_value f s with
      | None => None
      | Some (v, r) =>
          match skip_ws r with
          | c :: r' =>
              if (c =? 44)%N then parse_elements f r' (v :: acc)
              else if (c =? 93)%N then Some (JArray (rev (v :: acc)), r')
              else None
          | [] => None
          end
      end
  end
with parse_members (fuel : nat) (s : JSString) (acc : list (JSString * json))
  : option (json * JSString) :=
  match fuel with
  | O => None
  | S f =>
      match expect 34 (skip_ws s) with
      | None => None
      | Some r0 =>
          match parse_string_body r0 [] with
          | None => None
          | Some (key, r1) =>
              match expect 58 (skip_ws r1) with
              | None => None
              | Some r2 =>
                  match parse_value f r2 with
                  | None => None
                  | Some (v, r3) =>
                      match skip_ws r3 with
                      | c :: r4 =>
                          if (c =? 44)%N
                          then parse_members f r4 ((key, v) :: acc)
                          else if (c =? 125)%N
                          then Some (JObject (rev ((key, v) :: acc)), r4)
                          else None
                      | [] => None
                      end
                  end
              end
          end
      end
  end.

(** [JSON.parse(text)]: [None] stands for the [SyntaxError] it throws.
    Every call of the parser consumes input, and the fuel is more than
    twice the length of the text. *)
Definition JSON_parse (text : JSString) : option json :=
  match parse_value (2 * length text + 2) text with
  | Some (v, r) => match skip_ws r with [] => Some v | _ => None end
  | None => None
  end.

(** ** The [Stdio] file descriptors of the sandboxed engine *)

Inductive StdioKind := stdin | stdout | stderr.

(** An entry of the scatter/gather list of a WASI read or write. *)
Record Iovec := { buf : N; buf_len : N }.

Record Stdio := { kind : StdioKind; buffer : list byte }.

(** [new Stdio(kind)] *)
Definition new_Stdio (k : StdioKind) : Stdio := {| kind := k; buffer := [] |}.

(** What a call leaves outside the object: a message posted to the
    controller, a line on the console. *)
Inductive event :=
| PostMessage (m : json)
| ConsoleDebug (k : StdioKind) (data : JSString).

(** How a call ends: it returns, an exception leaves it, or it never
    returns. *)
Inductive outcome (A : Type) :=
| Return (a : A)
| Throw
| Hang.
Arguments Return {A} a.
Arguments Throw {A}.
Arguments Hang {A}.

(** [view8.slice(begin, begin + n)] *)
Definition view_slice (view8 : list byte) (begin n : N) : list byte :=
  take (N.to_nat n) (drop (N.to_nat begin) view8).

Definition CONTENT_LENGTH : JSString := lit "Content-Length: ".
Definition HEADER_END : JSString := [CR; LF; CR; LF].

(** One turn of the [while (true)] loop of the [stdout] branch. *)
Inductive frame_step_result :=
| FBreak
| FThrow (buffer' : list byte)
| FEmit (m : json) (buffer' : list byte).

Definition frame_step (buffer : list byte) : frame_step_result :=
  let data := TextDecoder_decode buffer in
  if negb (startsWith data CONTENT_LENGTH) then FBreak
  else
    let len := parseInt (slice_from data (Num (zlen CONTENT_LENGTH))) in
    let bodyStart := Num (indexOf data HEADER_END + 4) in
    if num_eq bodyStart (Num (-1)) then FBreak
    else if num_lt (Num (zlen buffer)) (num_add bodyStart len) then FBreak
    else
      let buffer' := splice0 buffer (num_add bodyStart len) in
      match JSON_parse (slice data bodyStart (num_add bodyStart len)) with
      | Some m => FEmit m buffer'
      | None => FThrow buffer'
      end.

(** How the loop ends, with the buffer it leaves. *)
Inductive loop_end := Broke | Threw | Spins | OutOfFuel.

(** The loop: the messages posted, the buffer left, how it ended.  A turn
    that posts a message and removes nothing finds the same buffer again:
    the source loops forever ([Spins]). *)
Fixpoint frame_loop (fuel : nat) (buffer : list byte)
  : list json * list byte * loop_end :=
  match fuel with
  | O => ([], buffer, OutOfFuel)
  | S f =>
      match frame_step buffer with
      | FBreak => ([], buffer, Broke)
      | FThrow buffer' => ([], buffer', Threw)
      | FEmit m buffer' =>
          if (length buffer' <? length buffer)%nat then
            let '(ms, b, e) := frame_loop f buffer' in (m :: ms, b, e)
          else ([m], buffer', Spins)
      end
  end.

(** The lines of the [stderr] branch: every line up to and including its
    line feed, and the partial line that stays in the buffer. *)
Fixpoint take_lines (cur : list byte) (bs : list byte)
  : list (list byte) * list byte :=
  match bs with
  | [] => ([], rev cur)
  | b :: bs' =>
      if (Byte.to_N b =? 10)%N then
        let '(ls, rest) := take_lines [] bs' in (rev (b :: cur) :: ls, rest)
      else take_lines (b :: cur) bs'
  end.

Record write_result := { w_ret : Z; nwritten : N }.

(** The body of the [for] loop of [fd_write] for one [iovec]. *)
Definition write_iovec (s : Stdio) (view8 : list byte) (iovec : Iovec)
  : Stdio * list event * outcome unit :=
  let slice := view_slice view8 (buf iovec) (buf_len iovec) in
  match kind s with
  | stdin => (s, [], Throw)
  | stdout =>
      let buffer1 := buffer s ++ slice in
      let '(ms, b, e) := frame_loop (S (length buffer1)) buffer1 in
      ({| kind := stdout; buffer := b |}, map PostMessage ms,
       match e with
       | Broke => Return tt
       | Threw => Throw
       | Spins | OutOfFuel => Hang
       end)
  | stderr =>
      let '(ls, rest) := take_lines [] (buffer s ++ slice) in
      ({| kind := stderr; buffer := rest |},
       map (fun l => ConsoleDebug stderr (TextDecoder_decode l)) ls,
       Return tt)
  end.

(** The [for] loop of [fd_write], [n] bytes written so far. *)
Fixpoint fd_write_from (n : N) (s : Stdio) (view8 : list byte) (iovs : list Iovec)
  : Stdio * list event * outcome write_result :=
  match iovs with
  | [] => (s, [], Return {| w_ret := 0; nwritten := n |})
  | iovec :: iovs' =>
      match write_iovec s view8 iovec with
      | (s1, ev, Return _) =>
          let '(s2, ev', o) := fd_write_from (n + buf_len iovec) s1 view8 iovs' in
          (s2, ev ++ ev', o)
      | (s1, ev, Throw) => (s1, ev, Throw)
      | (s1, ev, Hang) => (s1, ev, Hang)
      end
  end.

(** [Stdio.fd_write(view8, iovs)] *)
Definition fd_write (s : Stdio) (view8 : list byte) (iovs : list Iovec)
  : Stdio * list event * outcome write_result :=
  fd_write_from 0 s view8 iovs.

(** A delivery of the bytes [chunk] to the descriptor: one write whose
    single [iovec] covers them. *)
Definition deliver_bytes (s : Stdio) (chunk : list byte)
  : Stdio * list event * outcome write_result :=
  fd_write s chunk [ {| buf := 0; buf_len := N.of_nat (length chunk) |} ].

(** Successive deliveries; a delivery that does not return ends them. *)
Fixpoint deliver_all (s : Stdio) (chunks : list (list byte))
  : Stdio * list event * outcome unit :=
  match chunks with
  | [] => (s, [], Return tt)
  | c :: cs =>
      match deliver_bytes s c with
      | (s1, ev, Return _) =>
          let '(s2, ev', o) := deliver_all s1 cs in (s2, ev ++ ev', o)
      | (s1, ev, Throw) => (s1, ev, Throw)
      | (s1, ev, Hang) => (s1, ev, Hang)
      end
  end.

(** *** The shared channel and [fd_read] *)

(** Modelled from the spec: the [Sharer] class ([./sharer], imported by the
    source and absent from it), by the SharedChannel of the data model:
    [index] is the count of valid bytes at the front of [dataBuffer], a
    buffer of fixed size; [lock] and [unlock] take and release the channel
    ([locked]). *)
Record Sharer := { index : N; dataBuffer : list byte; locked : bool }.

Definition lock (sh : Sharer) : Sharer :=
  {| index := index sh; dataBuffer := dataBuffer sh; locked := true |}.

Definition unlock (sh : Sharer) : Sharer :=
  {| index := index sh; dataBuffer := dataBuffer sh; locked := false |}.

(** [dst.set(src, offset)] of typed arrays; [None] is its [RangeError]. *)
Definition typed_set (dst src : list byte) (offset : N) : option (list byte) :=
  if (N.to_nat offset + length src <=? length dst)%nat then
    Some (take (N.to_nat offset) dst ++ src
            ++ drop (N.to_nat offset + length src) dst)
  else None.

(** [new Uint8Array(data).set(new Uint8Array(data, read), 0)]: the bytes
    from [read] on move to the front, the last [read] bytes stay as they
    were.  [None] is the [RangeError] of a view that starts past the end. *)
Definition shift_left (data : list byte) (read : N) : option (list byte) :=
  if (N.to_nat read <=? length data)%nat then
    typed_set data (drop (N.to_nat read) data) 0
  else None.

Record read_result := { r_ret : Z; nread : N }.

(** The [for] loop of [fd_read], between [lock] and [unlock]. *)
Fixpoint fd_read_from (n : N) (sh : Sharer) (view8 : list byte) (iovs : list Iovec)
  : Sharer * list byte * outcome N :=
  match iovs with
  | [] => (sh, view8, Return n)
  | iovec :: iovs' =>
      let read := N.min (buf_len iovec) (index sh) in
      let sl := take (N.to_nat read) (dataBuffer sh) in
      match typed_set view8 sl (buf iovec) with
      | None => (sh, view8, Throw)
      | Some view8' =>
          match shift_left (dataBuffer sh) read with
          | None => (sh, view8', Throw)
          | Some data' =>
              fd_read_from (n + read)
                {| index := index sh - read; dataBuffer := data';
                   locked := locked sh |} view8' iovs'
          end
      end
  end.

(** [Stdio.fd_read(view8, iovs)].  When the channel is empty the call parks
    on the block buffer until the controller has written; [refill] is the
    channel as the call finds it when it wakes up. *)
Definition fd_read (refill : Sharer -> Sharer) (s : Stdio) (sh : Sharer)
    (view8 : list byte) (iovs : list Iovec)
  : Sharer * list byte * outcome read_result :=
  match kind s with
  | stdin =>
      let sh1 := if (index sh =? 0)%N then refill sh else sh in
      match fd_read_from 0 (lock sh1) view8 iovs with
      | (sh2, view8', Return n) =>
          (unlock sh2, view8', Return {| r_ret := 0; nread := n |})
      | (sh2, view8', Throw) => (sh2, view8', Throw)
      | (sh2, view8', Hang) => (sh2, view8', Hang)
      end
  | _ => (sh, view8, Throw)
  end.

(** ** The document of the editor *)

(** The text of the editor ([Text] of the editor library, which the source
    uses through [lines], [length], [line] and [lineAt]): the lines of the
    document, at least one, each without its line break; a line break
    counts for one position. *)
Record Text := { first_line : JSString; more_lines : list JSString }.

Definition text_lines (doc : Text) : list JSString :=
  first_line doc :: more_lines doc.

(** [doc.lines] *)
Definition lines (doc : Text) : N := N.of_nat (length (text_lines doc)).

Fixpoint lines_length (ls : list JSString) : N :=
  match ls with
  | [] => 0
  | [l] => N.of_nat (length l)
  | l :: ls' => N.of_nat (length l) + 1 + lines_length ls'
  end.

(** [doc.length] *)
Definition doc_length (doc : Text) : N := lines_length (text_lines doc).

(** A line of the document: its number (from 1), where it starts, its
    text. *)
Record Line := { l_number : N; l_from : N; l_text : JSString }.

Definition l_to (l : Line) : N := (l_from l + N.of_nat (length (l_text l)))%N.

Fixpoint line_in (ls : list JSString) (number from n : N) : option Line :=
  match ls with
  | [] => None
  | l :: ls' =>
      if (number =? n)%N then
        Some {| l_number := number; l_from := from; l_text := l |}
      else line_in ls' (number + 1) (from + N.of_nat (length l) + 1) n
  end.

(** [doc.line(n)]; [None] is the [RangeError] of a line number outside
    [1 .. lines]. *)
Definition line (doc : Text) (n : N) : option Line :=
  line_in (text_lines doc) 1 0 n.

Fixpoint lineAt_in (ls : list JSString) (number from pos : N) : option Line :=
  match ls with
  | [] => None
  | l :: ls' =>
      if (pos <=? from + N.of_nat (length l))%N then
        Some {| l_number := number; l_from := from; l_text := l |}
      else lineAt_in ls' (number + 1) (from + N.of_nat (length l) + 1) pos
  end.

(** [doc.lineAt(pos)]; [None] is the [RangeError] of a position past the
    end. *)
Definition lineAt (doc : Text) (pos : N) : option Line :=
  lineAt_in (text_lines doc) 1 0 pos.

(** A position of the protocol: zero-based line and character. *)
Record Position := { p_line : N; p_character : N }.

(** [posToOffset(doc, pos)]: [None] is the [undefined] it returns for a
    position that is not in the document. *)
Definition posToOffset (doc : Text) (pos : Position) : option N :=
  if (lines doc <=? p_line pos)%N then None
  else
    match line doc (p_line pos + 1) with
    | None => None
    | Some l =>
        let offset := (l_from l + p_character pos)%N in
        if (doc_length doc <? offset)%N then None else Some offset
    end.

(** [offsetToPos(doc, offset)]; [None] is the [RangeError] of [lineAt]. *)
Definition offsetToPos (doc : Text) (offset : N) : option Position :=
  match lineAt doc offset with
  | None => None
  | Some l =>
      Some {| p_line := l_number l - 1; p_character := offset - l_from l |}
  end.

(** [doc.toString()]: the lines joined by line feeds. *)
Fixpoint join_lines (ls : list JSString) : JSString :=
  match ls with
  | [] => []
  | [l] => l
  | l :: ls' => l ++ LF :: join_lines ls'
  end.

Definition doc_toString (doc : Text) : JSString := join_lines (text_lines doc).

(** ** Messages of the protocol *)

(** [JsonRpcId = string | number]. *)
Inductive JsonRpcId := IdNum (n : Z) | IdStr (s : list N).

#[global] Instance JsonRpcId_eq_dec : EqDecision JsonRpcId.
Proof. solve_decision. Defined.

#[global] Instance JsonRpcId_countable : Countable JsonRpcId.
Proof.
  apply (inj_countable'
           (fun i => match i with IdNum n => inl n | IdStr s => inr s end)
           (fun x => match x with inl n => IdNum n | inr s => IdStr s end)).
  intros []; reflexivity.
Defined.

Module DiagnosticSeverity.
Inductive t := Error | Warning | Information | Hint.
End DiagnosticSeverity.

Record Range := { r_start : Position; r_end : Position }.

(** A diagnostic as the server publishes it. *)
Record LspDiagnostic := {
  range : Range;
  message : JSString;
  severity : option DiagnosticSeverity.t }.

Record PublishDiagnosticsParams := {
  uri : JSString;
  diagnostics : list LspDiagnostic }.

Record TextDocumentItem := {
  td_uri : JSString; td_languageId : JSString;
  td_text : JSString; td_version : Z }.

Record DidChangeParams := {
  dc_uri : JSString; dc_version : Z; dc_text : JSString }.

Record CompletionParams := {
  cp_uri : JSString; cp_position : Position;
  cp_triggerKind : N; cp_triggerCharacter : option JSString }.

Record WorkspaceFolder := { wf_uri : JSString; wf_name : JSString }.

(** The [params] of a message ([any] in the source): the typed parameters
    of the messages this program builds or reads, any other value as
    parsed.  [InitializeRequest] stands for the parameters of [initialize],
    whose client capabilities are a constant of the source. *)
Inductive params :=
| InitializeRequest (root : JSString) (folders : list WorkspaceFolder)
| DidOpen (p : TextDocumentItem)
| DidChange (p : DidChangeParams)
| CompletionRequest (p : CompletionParams)
| PublishDiagnostics (p : PublishDiagnosticsParams)
| OtherParams (j : json).

(** [JsonRpcMessage]; an absent field is [None]. *)
Record JsonRpcMessage := {
  m_id : option JsonRpcId;
  m_method : option JSString;
  m_params : option params;
  m_result : option json;
  m_error : option json }.

(** A number lexeme whose value is zero: its mantissa has no digit but 0
    (a number that a double rounds to zero is not counted). *)
Definition lexeme_is_zero (lx : JSString) : bool :=
  let mantissa :=
    take (Z.to_nat (let i := indexOf lx [101%N] in
                    let j := indexOf lx [69%N] in
                    if (0 <=? i) then i else if (0 <=? j) then j else zlen lx))
         lx in
  forallb (fun c => (c =? 48) || (c =? 45) || (c =? 46))%N mantissa.

(** Truthiness of a value, as [if (message.error)] tests it. *)
Definition truthy (v : option json) : bool :=
  match v with
  | None => false
  | Some JNull => false
  | Some (JBool b) => b
  | Some (JNumber lx) => negb (lexeme_is_zero lx)
  | Some (JString s) => match s with [] => false | _ => true end
  | Some (JArray _) => true
  | Some (JObject _) => true
  end.

(** ** Promises and the microtask queue *)

(** How a promise was settled: [resolve(v)] or [reject(e)]. *)
Inductive settled :=
| Fulfilled (v : option json)
| Rejected (e : option json).

(** The code suspended at an [await] on a promise.
    [ResumeRequest id outer]: the rest of [LspClient.request] after
    [await promise], which deletes the entry [id] and returns the result
    to the promise [outer] of the call.
    [ResumeClientInitialize outer]: the rest of [LspClient.initialize]
    after [await this.request(...)].
    [ResumeInitialize plugin documentText]: the rest of
    [LspPlugin.initialize] after [await this.client.initializePromise]. *)
Inductive reaction :=
| ResumeRequest (id : JsonRpcId) (outer : nat)
| ResumeClientInitialize (outer : nat)
| ResumeInitialize (plugin : nat) (documentText : JSString).

Inductive promise :=
| Pending (reactions : list reaction)
| Settled (s : settled).

(** [OutboundRequest]: [resolve] and [reject] are the settling functions of
    [promise], a cell of the promise heap. *)
Record OutboundRequest := { or_promise : nat }.

(** ** The plugin of a document *)

(** The severities of the editor. *)
Module Severity.
Inductive t := error | warning | info.
End Severity.

(** A diagnostic as the editor displays it.  [from] and [to] hold what
    [posToOffset] returned. *)
Record Diagnostic := {
  from : option N;
  to : option N;
  d_severity : option Severity.t;
  d_message : JSString }.

(** The fields of [LspPlugin]; [doc] is [this.view.state.doc] and [shown]
    the diagnostics last dispatched to the view with [setDiagnostics]. *)
Record LspPlugin := {
  documentUri : JSString;
  languageId : JSString;
  documentVersion : Z;
  doc : Text;
  shown : list Diagnostic }.

(** ** The client *)

(** The fields of [LspClient], with the objects it shares with the rest of
    the page: [promises] is the heap of promises, [jobs] the microtask
    queue, [views] the plugin objects ([plugins] lists their references in
    the order of attachment), [outbox] the messages handed to the abstract
    [sendMessage], [console] the lines of [console.error];
    [capabilities] is the value the server answered, if any. *)
Record LspClient := {
  id : Z;
  outboundRequests : gmap JsonRpcId OutboundRequest;
  rootUri : JSString;
  workspaceFolders : list WorkspaceFolder;
  plugins : list nat;
  isOpen : bool;
  initializePromise : option nat;
  capabilities : option json;
  promises : gmap nat promise;
  jobs : list (reaction * settled);
  views : gmap nat LspPlugin;
  outbox : list JsonRpcMessage;
  console : list JSString }.

(** [new LspClient(rootUri, workspaceFolders)] in an empty page. *)
Definition new_LspClient (root : JSString) (folders : list WorkspaceFolder)
  : LspClient :=
  {| id := 0; outboundRequests := ∅; rootUri := root;
     workspaceFolders := folders; plugins := []; isOpen := false;
     initializePromise := None; capabilities := None;
     promises := ∅; jobs := []; views := ∅; outbox := []; console := [] |}.

Definition set_id (x : Z) (c : LspClient) : LspClient :=
  {| id := x; outboundRequests := outboundRequests c; rootUri := rootUri c;
     workspaceFolders := workspaceFolders c; plugins := plugins c;
     isOpen := isOpen c; initializePromise := initializePromise c;
     capabilities := capabilities c; promises := promises c; jobs := jobs c;
     views := views c; outbox := outbox c; console := console c |}.

Definition set_outboundRequests (x : gmap JsonRpcId OutboundRequest) (c : LspClient) : LspClient :=
  {| id := id c; outboundRequests := x; rootUri := rootUri c;
     workspaceFolders := workspaceFolders c; plugins := plugins c;
     isOpen := isOpen c; initializePromise := initializePromise c;
     capabilities := capabilities c; promises := promises c; jobs := jobs c;
     views := views c; outbox := outbox c; console := console c |}.

Definition set_plugins (x : list nat) (c : LspClient) : LspClient :=
  {| id := id c; outboundRequests := outboundRequests c;
     rootUri := rootUri c; workspaceFolders := workspaceFolders c;
     plugins := x; isOpen := isOpen c;
     initializePromise := initializePromise c;
     capabilities := capabilities c; promises := promises c; jobs := jobs c;
     views := views c; outbox := outbox c; console := console c |}.

Definition set_isOpen (x : bool) (c : LspClient) : LspClient :=
  {| id := id c; outboundRequests := outboundRequests c;
     rootUri := rootUri c; workspaceFolders := workspaceFolders c;
     plugins := plugins c; isOpen := x;
     initializePromise := initializePromise c;
     capabilities := capabilities c; promises := promises c; jobs := jobs c;
     views := views c; outbox := outbox c; console := console c |}.

Definition set_capabilities (x : option json) (c : LspClient) : LspClient :=
  {| id := id c; outboundRequests := outboundRequests c;
     rootUri := rootUri c; workspaceFolders := workspaceFolders c;
     plugins := plugins c; isOpen := isOpen c;
     initializePromise := initializePromise c; capabilities := x;
     promises := promises c; jobs := jobs c; views := views c;
     outbox := outbox c; console := console c |}.

Definition set_promises (x : gmap nat promise) (c : LspClient) : LspClient :=
  {| id := id c; outboundRequests := outboundRequests c;
     rootUri := rootUri c; workspaceFolders := workspaceFolders c;
     plugins := plugins c; isOpen := isOpen c;
     initializePromise := initializePromise c;
     capabilities := capabilities c; promises := x; jobs := jobs c;
     views := views c; outbox := outbox c; console := console c |}.

Definition set_jobs (x : list (reaction * settled)) (c : LspClient) : LspClient :=
  {| id := id c; outboundRequests := outboundRequests c;
     rootUri := rootUri c; workspaceFolders := workspaceFolders c;
     plugins := plugins c; isOpen := isOpen c;
     initializePromise := initializePromise c;
     capabilities := capabilities c; promises := promises c; jobs := x;
     views := views c; outbox := outbox c; console := console c |}.

Definition set_views (x : gmap nat LspPlugin) (c : LspClient) : LspClient :=
  {| id := id c; outboundRequests := outboundRequests c;
     rootUri := rootUri c; workspaceFolders := workspaceFolders c;
     plugins := plugins c; isOpen := isOpen c;
     initializePromise := initializePromise c;
     capabilities := capabilities c; promises := promises c; jobs := jobs c;
     views := x; outbox := outbox c; console := console c |}.

Definition set_outbox (x : list JsonRpcMessage) (c : LspClient) : LspClient :=
  {| id := id c; outboundRequests := outboundRequests c;
     rootUri := rootUri c; workspaceFolders := workspaceFolders c;
     plugins := plugins c; isOpen := isOpen c;
     initializePromise := initializePromise c;
     capabilities := capabilities c; promises := promises c; jobs := jobs c;
     views := views c; outbox := x; console := console c |}.

Definition set_console (x : list JSString) (c : LspClient) : LspClient :=
  {| id := id c; outboundRequests := outboundRequests c;
     rootUri := rootUri c; workspaceFolders := workspaceFolders c;
     plugins := plugins c; isOpen := isOpen c;
     initializePromise := initializePromise c;
     capabilities := capabilities c; promises := promises c; jobs := jobs c;
     views := views c; outbox := outbox c; console := x |}.

(** A reference no promise of the heap has. *)
Definition fresh_promise (c : LspClient) : nat :=
  fresh (dom (promises c)).

(** [new Promise(...)]: a pending promise with no reaction. *)
Definition new_promise (c : LspClient) : nat * LspClient :=
  let p := fresh_promise c in
  (p, set_promises (<[p := Pending []]> (promises c)) c).

(** [await p] in an async function: the rest of the function becomes a
    reaction of [p]; when [p] is settled already, the reaction is queued at
    once. *)
Definition await (p : nat) (r : reaction) (c : LspClient) : LspClient :=
  match promises c !! p with
  | Some (Pending rs) => set_promises (<[p := Pending (rs ++ [r])]> (promises c)) c
  | Some (Settled s) => set_jobs (jobs c ++ [(r, s)]) c
  | None => c
  end.

(** The settling functions of a promise: the first call settles it and
    queues its reactions, a later call does nothing. *)
Definition settle (p : nat) (s : settled) (c : LspClient) : LspClient :=
  match promises c !! p with
  | Some (Pending rs) =>
      set_jobs (jobs c ++ map (fun r => (r, s)) rs)
        (set_promises (<[p := Settled s]> (promises c)) c)
  | _ => c
  end.

(** [this.sendMessage(data)]: abstract in the source; the message is handed
    to the transport. *)
Definition sendMessage (data : JsonRpcMessage) (c : LspClient) : LspClient :=
  set_outbox (outbox c ++ [data]) c.

(** [LspClient.request(method, params)] up to its [await]: the promise the
    call returns, and the client. *)
Definition request (method : JSString) (ps : option params) (c : LspClient)
  : nat * LspClient :=
  let i := id c in
  let c := set_id (i + 1) c in
  let '(outer, c) := new_promise c in
  let '(p, c) := new_promise c in
  let c := set_outboundRequests
             (<[IdNum i := {| or_promise := p |}]> (outboundRequests c)) c in
  let c := sendMessage {| m_id := Some (IdNum i); m_method := Some method;
                          m_params := ps; m_result := None; m_error := None |} c in
  (outer, await p (ResumeRequest (IdNum i) outer) c).

(** [LspClient.notify(method, params)] *)
Definition notify (method : JSString) (ps : option params) (c : LspClient)
  : LspClient :=
  sendMessage {| m_id := None; m_method := Some method;
                 m_params := ps; m_result := None; m_error := None |} c.

(** [LspClient.initialize()] up to its [await]. *)
Definition initialize (c : LspClient) : nat * LspClient :=
  let '(outer, c) := new_promise c in
  let '(p, c) :=
    request (lit "initialize")
      (Some (InitializeRequest (rootUri c) (workspaceFolders c))) c in
  (outer, await p (ResumeClientInitialize outer) c).

Definition textDocumentDidOpen (p : TextDocumentItem) : LspClient -> LspClient :=
  notify (lit "textDocument/didOpen") (Some (DidOpen p)).

Definition textDocumentDidChange (p : DidChangeParams) : LspClient -> LspClient :=
  notify (lit "textDocument/didChange") (Some (DidChange p)).

Definition textDocumentCompletion (p : CompletionParams)
  : LspClient -> nat * LspClient :=
  request (lit "textDocument/completion") (Some (CompletionRequest p)).

(** *** Diagnostics *)

(** The severity table of [handleDiagnostics]. *)
Definition map_severity (s : option DiagnosticSeverity.t) : option Severity.t :=
  match s with
  | Some DiagnosticSeverity.Error => Some Severity.error
  | Some DiagnosticSeverity.Warning => Some Severity.warning
  | Some DiagnosticSeverity.Information => Some Severity.info
  | Some DiagnosticSeverity.Hint => Some Severity.info
  | None => None
  end.

(** [a < b] on offsets that may be [undefined]. *)
Definition offset_lt (a b : option N) : bool :=
  match a, b with
  | Some x, Some y => (x <? y)%N
  | _, _ => false
  end.

(** The comparator of the diagnostics. *)
Definition compare_from (a b : Diagnostic) : Z :=
  if offset_lt (from a) (from b) then -1
  else if offset_lt (from b) (from a) then 1
  else 0.

(** [Array.prototype.sort(cmp)]: a stable sort (ECMAScript 2019).  For a
    comparator that is a consistent order the result does not depend on the
    algorithm; this is the insertion sort that keeps equal elements in
    their order. *)
Fixpoint sort_insert {A} (cmp : A -> A -> Z) (x : A) (l : list A) : list A :=
  match l with
  | [] => [x]
  | y :: l' => if cmp x y <=? 0 then x :: l else y :: sort_insert cmp x l'
  end.

Fixpoint js_sort {A} (cmp : A -> A -> Z) (l : list A) : list A :=
  match l with
  | [] => []
  | x :: l' => sort_insert cmp x (js_sort cmp l')
  end.

Definition is_defined {A} (o : option A) : bool :=
  match o with Some _ => true | None => false end.

(** The list [handleDiagnostics] computes for the view. *)
Definition map_diagnostics (d : Text) (ds : list LspDiagnostic) : list Diagnostic :=
  js_sort compare_from
    (List.filter (fun x => is_defined (from x) && is_defined (to x))
       (map (fun '{| range := r; message := m; severity := s |} =>
               {| from := posToOffset d (r_start r);
                  to := posToOffset d (r_end r);
                  d_severity := map_severity s;
                  d_message := m |}) ds)).

Definition eqb_string (a b : JSString) : bool := bool_decide (a = b).

(** [LspPlugin.handleDiagnostics(params)] *)
Definition handleDiagnostics (ps : PublishDiagnosticsParams) (pl : LspPlugin)
  : LspPlugin :=
  if negb (eqb_string (uri ps) (documentUri pl)) then pl
  else
    {| documentUri := documentUri pl; languageId := languageId pl;
       documentVersion := documentVersion pl; doc := doc pl;
       shown := map_diagnostics (doc pl) (diagnostics ps) |}.

(** [LspPlugin.handleMessage(message)].  Parameters that are not those of
    the method make [handleDiagnostics] return or throw before it
    dispatches; the [catch] leaves the plugin as it was. *)
Definition plugin_handleMessage (msg : JsonRpcMessage) (pl : LspPlugin)
  : LspPlugin :=
  match m_method msg with
  | Some m =>
      if eqb_string m (lit "textDocument/publishDiagnostics") then
        match m_params msg with
        | Some (PublishDiagnostics ps) => handleDiagnostics ps pl
        | _ => pl
        end
      else pl
  | None => pl
  end.

(** *** The client's side of a message *)

(** The loop over [this.plugins] of [LspClient.handleMessage]. *)
Fixpoint fan_out (msg : JsonRpcMessage) (refs : list nat)
    (v : gmap nat LspPlugin) : gmap nat LspPlugin :=
  match refs with
  | [] => v
  | r :: refs' =>
      fan_out msg refs'
        (match v !! r with
         | Some pl => <[r := plugin_handleMessage msg pl]> v
         | None => v
         end)
  end.

(** [LspClient.handleMessage(message)] *)
Definition handleMessage (msg : JsonRpcMessage) (c : LspClient) : LspClient :=
  let c1 :=
    match m_id msg, m_method msg with
    | Some i, None =>
        match outboundRequests c !! i with
        | Some req =>
            if truthy (m_error msg)
            then settle (or_promise req) (Rejected (m_error msg)) c
            else settle (or_promise req) (Fulfilled (m_result msg)) c
        | None => set_console (console c ++ [lit "Got non-answer"]) c
        end
    | _, _ => c
    end in
  set_views (fan_out msg (plugins c1) (views c1)) c1.

(** [LspClient.attachPlugin(plugin)] *)
Definition attachPlugin (r : nat) (c : LspClient) : LspClient :=
  set_plugins (plugins c ++ [r]) c.

(** The part of [LspPlugin.initialize] that sends the notification. *)
Definition send_open (r : nat) (documentText : JSString) (c : LspClient)
  : LspClient :=
  match views c !! r with
  | Some pl =>
      textDocumentDidOpen
        {| td_uri := documentUri pl; td_languageId := languageId pl;
           td_text := documentText; td_version := documentVersion pl |} c
  | None => c
  end.

(** [LspPlugin.initialize({ documentText })] *)
Definition plugin_initialize (r : nat) (documentText : JSString) (c : LspClient)
  : LspClient :=
  match initializePromise c with
  | Some p => await p (ResumeInitialize r documentText) c
  | None => send_open r documentText c
  end.

(** [new LspPlugin(view, allowHtmlContent)] for a view that shows [d]: the
    reference of the new plugin, and the client. *)
Definition new_LspPlugin (docUri langId : JSString) (d : Text) (c : LspClient)
  : nat * LspClient :=
  let r := fresh (dom (views c)) in
  let pl := {| documentUri := docUri; languageId := langId;
               documentVersion := 0; doc := d; shown := [] |} in
  let c := set_views (<[r := pl]> (views c)) c in
  let c := attachPlugin r c in
  (r, plugin_initialize r (doc_toString d) c).

(** [LspPlugin.sendChange({ documentText })] *)
Definition sendChange (r : nat) (documentText : JSString) (c : LspClient)
  : LspClient :=
  if negb (isOpen c) then c
  else
    match views c !! r with
    | Some pl =>
        let version := documentVersion pl in
        let pl' := {| documentUri := documentUri pl; languageId := languageId pl;
                      documentVersion := documentVersion pl + 1;
                      doc := doc pl; shown := shown pl |} in
        textDocumentDidChange
          {| dc_uri := documentUri pl; dc_version := version;
             dc_text := documentText |}
          (set_views (<[r := pl']> (views c)) c)
    | None => c
    end.

(** [LspPlugin.update({ docChanged })], the view showing [d] after the
    update. *)
Definition update (r : nat) (docChanged : bool) (d : Text) (c : LspClient)
  : LspClient :=
  let c :=
    match views c !! r with
    | Some pl =>
        set_views (<[r := {| documentUri := documentUri pl;
                             languageId := languageId pl;
                             documentVersion := documentVersion pl;
                             doc := d; shown := shown pl |}]> (views c)) c
    | None => c
    end in
  if negb docChanged then c else sendChange r (doc_toString d) c.

(** *** Microtasks *)

(** [o[key]] for a parsed value: the last member of that name of an
    object, nothing for another value. *)
Definition get_property (key : JSString) (o : json) : option json :=
  match o with
  | JObject members =>
      last (omap (fun '(k, v) => if eqb_string k key then Some v else None)
              members)
  | _ => None
  end.

(** One job of the queue: the code after an [await], resumed with how the
    awaited promise was settled. *)
Definition run_job (j : reaction * settled) (c : LspClient) : LspClient :=
  match j with
  | (ResumeRequest i outer, Fulfilled v) =>
      settle outer (Fulfilled v)
        (set_outboundRequests (delete i (outboundRequests c)) c)
  | (ResumeRequest i outer, Rejected e) => settle outer (Rejected e) c
  | (ResumeClientInitialize outer, Fulfilled v) =>
      match v with
      | None | Some JNull => settle outer (Rejected None) c
      | Some r =>
          settle outer (Fulfilled None)
            (set_isOpen true
               (notify (lit "initialized") (Some (OtherParams (JObject [])))
                  (set_capabilities (get_property (lit "capabilities") r) c)))
      end
  | (ResumeClientInitialize outer, Rejected e) => settle outer (Rejected e) c
  | (ResumeInitialize r documentText, Fulfilled _) => send_open r documentText c
  | (ResumeInitialize r documentText, Rejected _) => c
  end.

(** The queue is run until it is empty. *)
Fixpoint run_jobs (fuel : nat) (c : LspClient) : option LspClient :=
  match jobs c with
  | [] => Some c
  | j :: js =>
      match fuel with
      | O => None
      | S f => run_jobs f (run_job j (set_jobs js c))
      end
  end.

(** The reactions still waiting in the heap. *)
Definition waiting (c : LspClient) : nat :=
  map_fold (fun _ p n =>
              match p with Pending rs => (length rs + n)%nat | Settled _ => n end)
           0%nat (promises c).

(** A message from the server: the task that handles it, then the
    microtasks it has queued. *)
Definition receive (msg : JsonRpcMessage) (c : LspClient) : option LspClient :=
  let c1 := handleMessage msg c in
  run_jobs (length (jobs c1) + waiting c1) c1.

(** *** Completion *)

(** [MarkupContent | MarkedString | MarkedString[]] *)
Inductive contents :=
| CString (s : JSString)
| CMarkup (value : JSString)
| CArray (l : list contents).

(** [formatContents(contents)] *)
Fixpoint formatContents (c : contents) : JSString :=
  match c with
  | CString s => s
  | CMarkup v => v
  | CArray l => concat (map (fun x => formatContents x ++ [LF; LF]) l)
  end.

(** A completion item of the server; an absent field is [None]. *)
Record CompletionItem := {
  ci_label : JSString;
  ci_detail : option JSString;
  ci_kind : option N;
  ci_newText : option JSString;
  ci_documentation : option contents;
  ci_sortText : option JSString;
  ci_filterText : option JSString }.

(** [CompletionList | CompletionItem[]] *)
Inductive completion_response :=
| ItemArray (items : list CompletionItem)
| CompletionList (isIncomplete : bool) (items : list CompletionItem).

(** An option of the editor's completion list. *)
Record Completion := {
  label : JSString;
  detail : option JSString;
  apply : JSString;
  type : option JSString;
  sortText : JSString;
  filterText : JSString;
  info : option JSString }.

Record CompletionResult := { cr_from : N; cr_options : list Completion }.

(** The names of [CompletionItemKind], by value. *)
Definition CompletionItemKindMap (k : N) : option JSString :=
  nth_error
    (map lit
       ["Text"; "Method"; "Function"; "Constructor"; "Field"; "Variable";
        "Class"; "Interface"; "Module"; "Property"; "Unit"; "Value"; "Enum";
        "Keyword"; "Snippet"; "Color"; "File"; "Reference"; "Folder";
        "EnumMember"; "Constant"; "Struct"; "Event"; "Operator";
        "TypeParameter"]%string)
    (N.to_nat (k - 1)).

(** [\w] *)
Definition is_word (c : N) : bool :=
  (((48 <=? c) && (c <=? 57)) || ((65 <=? c) && (c <=? 90)) ||
   ((97 <=? c) && (c <=? 122)) || (c =? 95))%N.

(** [/^\w+$/.test(s)] *)
Definition is_word_string (s : JSString) : bool :=
  match s with [] => false | _ => forallb is_word s end.

(** A character class as [toSet] writes it: [\w] when one of the
    characters is a word character, and the other characters, escaped. *)
Record CharSet := { cs_words : bool; cs_flat : JSString }.

(** [toSet(chars)] *)
Definition toSet (chars : JSString) : CharSet :=
  let words := existsb is_word chars in
  {| cs_words := words;
     cs_flat := if words then List.filter (fun c => negb (is_word c)) chars
                else chars |}.

Definition in_set (cs : CharSet) (c : N) : bool :=
  (cs_words cs && is_word c) || existsb (N.eqb c) (cs_flat cs).

(** The first code point of a string and the code units after it, as the
    destructuring [[initial, ...restStr] = apply] splits them. *)
Definition split_initial (s : JSString) : JSString * JSString :=
  match s with
  | [] => ([], [])
  | [h] => ([h], [])
  | h :: l :: r =>
      if ((55296 <=? h) && (h <=? 56319) && (56320 <=? l) && (l <=? 57343))%N
      then ([h; l], r) else ([h], l :: r)
  end.

Fixpoint prefix_sets (options : list Completion) : JSString * JSString :=
  match options with
  | [] => ([], [])
  | o :: os =>
      let '(i, r) := split_initial (apply o) in
      let '(f, rs) := prefix_sets os in
      (i ++ f, r ++ rs)
  end.

(** The pattern [first rest* $] of [prefixMatch]. *)
Record Pattern := { p_first : CharSet; p_rest : CharSet }.

(** [prefixMatch(options)]: its second result, the pattern that is not
    anchored at the start (the first is not used). *)
Definition prefixMatch (options : list Completion) : Pattern :=
  let '(f, r) := prefix_sets options in
  {| p_first := toSet f; p_rest := toSet r |}.

(** [str.search(pattern)]: the leftmost index from which the pattern
    matches up to the end. *)
Fixpoint search (pat : Pattern) (i : N) (str : JSString) : option N :=
  match str with
  | [] => None
  | c :: str' =>
      if in_set (p_first pat) c && forallb (in_set (p_rest pat)) str'
      then Some i
      else search pat (i + 1) str'
  end.

Record CompletionContext := { ctx_doc : Text; ctx_pos : N; ctx_explicit : bool }.

Record Token := { t_from : N; t_to : N; t_text : JSString }.

(** [context.matchBefore(pattern)] of the editor library: the match of the
    pattern that ends at the cursor, looked for in at most 250 characters
    of the cursor's line; [None] is the [RangeError] of a cursor outside
    the document. *)
Definition matchBefore (ctx : CompletionContext) (pat : Pattern)
  : option (option Token) :=
  match lineAt (ctx_doc ctx) (ctx_pos ctx) with
  | None => None
  | Some l =>
      let start := N.max (l_from l) (ctx_pos ctx - 250) in
      let str := take (N.to_nat (ctx_pos ctx - start))
                   (drop (N.to_nat (start - l_from l)) (l_text l)) in
      Some match search pat 0 str with
           | None => None
           | Some found =>
               Some {| t_from := start + found; t_to := ctx_pos ctx;
                       t_text := drop (N.to_nat found) str |}
           end
  end.

(** The comparator of the options: an option whose [apply] starts with the
    token goes before one whose [apply] does not. *)
Definition compare_apply (text : JSString) (a b : Completion) : Z :=
  if startsWith (apply a) text && negb (startsWith (apply b) text) then -1
  else if negb (startsWith (apply a) text) && startsWith (apply b) text then 1
  else 0.

(** ASCII letters to lower case, every other code unit unchanged. *)
Definition ascii_toLowerCase (s : JSString) : JSString :=
  map (fun c => if ((65 <=? c) && (c <=? 90))%N then (c + 32)%N else c) s.

Section completion.

(** [String.prototype.toLowerCase]: the case mapping of the platform. *)
Variable toLowerCase : JSString -> JSString.

(** The callback of [items.map]; [None] is the [TypeError] of a kind that
    has no name. *)
Definition to_option (item : CompletionItem) : option Completion :=
  let type :=
    match ci_kind item with
    | None => Some None
    | Some 0%N => Some None
    | Some k =>
        match CompletionItemKindMap k with
        | Some name => Some (Some (toLowerCase name))
        | None => None
        end
    end in
  match type with
  | None => None
  | Some ty =>
      Some {| label := ci_label item;
              detail := ci_detail item;
              apply := default (ci_label item) (ci_newText item);
              type := ty;
              sortText := default (ci_label item) (ci_sortText item);
              filterText := default (ci_label item) (ci_filterText item);
              info := match ci_documentation item with
                      | Some d =>
                          match d with
                          | CString [] => None
                          | _ => Some (formatContents d)
                          end
                      | None => None
                      end |}
  end.

(** The filter and the sort of the options for a token of word
    characters. *)
Definition rank_options (token : Token) (options : list Completion)
  : list Completion :=
  let word := toLowerCase (t_text token) in
  js_sort (compare_apply (t_text token))
    (List.filter (fun o => startsWith (toLowerCase (filterText o)) word) options).

(** The end of [requestCompletion], from the options on. *)
Definition complete_options (context : CompletionContext)
    (options : list Completion) : option CompletionResult :=
  match matchBefore context (prefixMatch options) with
  | None => None
  | Some None => Some {| cr_from := ctx_pos context; cr_options := options |}
  | Some (Some token) =>
      let pos := t_from token in
      let word := toLowerCase (t_text token) in
      Some {| cr_from := pos;
              cr_options := if is_word_string word
                            then rank_options token options
                            else options |}
  end.

(** [LspPlugin.requestCompletion] after its [await]: what it makes of the
    [result] of the server.  [Throw] is an exception that rejects the
    call, [Return None] the [null] it returns. *)
Definition requestCompletion_result (context : CompletionContext)
    (result : option completion_response) : outcome (option CompletionResult) :=
  match result with
  | None => Return None
  | Some r =>
      let items := match r with ItemArray l => l | CompletionList _ l => l end in
      match mapM to_option items with
      | None => Throw
      | Some options =>
          match complete_options context options with
          | None => Throw
          | Some res => Return (Some res)
          end
      end
  end.

End completion.

(** ** Notions of the specification *)

(** The text of the document before its line [n] (counted from zero): the
    lines before it, each with its line break. *)
Definition text_before (d : Text) (n : nat) : JSString :=
  concat (map (fun l => l ++ [LF]) (take n (text_lines d))).

(** The mapping of a position into the document, in the words of the
    specification: a position is a zero-based line and a zero-based
    character within the line, the text is addressed by flat offset; the
    position cannot be mapped when its line index is out of range or when
    the offset, the length of the text before the line plus the character,
    exceeds the length of the document.  Nothing here is taken from
    [posToOffset]. *)
Definition mapped (d : Text) (pos : Position) : option N :=
  let n := N.to_nat (p_line pos) in
  if (n <? length (text_lines d))%nat then
    let offset := (N.of_nat (length (text_before d n)) + p_character pos)%N in
    if (offset <=? N.of_nat (length (doc_toString d)))%N then Some offset
    else None
  else None.

(** The entry the editor displays for a published diagnostic: none when
    its start or its end cannot be mapped into the document. *)
Definition visible (d : Text) (x : LspDiagnostic) : option Diagnostic :=
  match mapped d (r_start (range x)), mapped d (r_end (range x)) with
  | Some a, Some b =>
      Some {| from := Some a; to := Some b;
              d_severity := map_severity (severity x);
              d_message := message x |}
  | _, _ => None
  end.

(** The start offsets of two displayed entries are in ascending order. *)
Definition start_le (a b : Diagnostic) : Prop :=
  match from a, from b with
  | Some x, Some y => (x <= y)%N
  | _, _ => False
  end.

(** The notification of a change of the document. *)
Definition didChange_message (u : JSString) (version : Z) (text : JSString)
  : JsonRpcMessage :=
  {| m_id := None; m_method := Some (lit "textDocument/didChange");
     m_params := Some (DidChange {| dc_uri := u; dc_version := version;
                                    dc_text := text |});
     m_result := None; m_error := None |}.

(** The notification that a document was opened. *)
Definition didOpen_message (u langId text : JSString) (version : Z)
  : JsonRpcMessage :=
  {| m_id := None; m_method := Some (lit "textDocument/didOpen");
     m_params := Some (DidOpen {| td_uri := u; td_languageId := langId;
                                  td_text := text; td_version := version |});
     m_result := None; m_error := None |}.

(** The version counter of the plugin [r]. *)
Definition version_of (r : nat) (c : LspClient) : option Z :=
  documentVersion <$> views c !! r.

(** How [handleMessage] settles the request a response answers: rejected
    with the error when the response carries one, resolved with the result
    otherwise. *)
Definition settlement_of (m : JsonRpcMessage) : settled :=
  if truthy (m_error m) then Rejected (m_error m) else Fulfilled (m_result m).

(** Requests issued one after the other, none of them answered yet: the
    promises the calls return, and the client. *)
Fixpoint issue (reqs : list (JSString * option params)) (c : LspClient)
  : list nat * LspClient :=
  match reqs with
  | [] => ([], c)
  | (m, ps) :: reqs' =>
      let '(f, c1) := request m ps c in
      let '(fs, c2) := issue reqs' c1 in
      (f :: fs, c2)
  end.

(** Messages received one after the other. *)
Fixpoint receive_all (msgs : list JsonRpcMessage) (c : LspClient)
  : option LspClient :=
  match msgs with
  | [] => Some c
  | m :: ms =>
      match receive m c with
      | Some c' => receive_all ms c'
      | None => None
      end
  end.

(** The request [i] waits for its response: its entry holds the promise
    [p], on which the call that returned the promise [f] is suspended. *)
Definition pending_call (c : LspClient) (i : JsonRpcId) (p f : nat) : Prop :=
  outboundRequests c !! i = Some {| or_promise := p |}
  /\ promises c !! p = Some (Pending [ResumeRequest i f])
  /\ promises c !! f = Some (Pending []).

(** The message [fm.2] is the response to a request that waits, and
    [fm.1] is the promise the request returned. *)
Definition answers (c : LspClient) (fm : nat * JsonRpcMessage) : Prop :=
  exists i p, m_id fm.2 = Some i /\ m_method fm.2 = None
              /\ pending_call c i p fm.1.

(** ** Framed messages *)

(** The byte of the decimal digit [k]. *)
Definition digit_byte (k : nat) : byte :=
  default x30 (Byte.of_N (48 + N.of_nat k)).

(** The decimal digits of a number. *)
Fixpoint decimal_fuel (fuel n : nat) : list byte :=
  match fuel with
  | O => []
  | S f =>
      let d := digit_byte (n mod 10) in
      if (n <? 10)%nat then [d] else decimal_fuel f (n / 10) ++ [d]
  end.

Definition decimal (n : nat) : list byte := decimal_fuel (S n) n.

(** The header of a message whose body has [n] bytes. *)
Definition header (n : nat) : list byte :=
  list_byte_of_string "Content-Length: " ++ decimal n ++ [x0d; x0a; x0d; x0a].

(** The frame of a body: [Content-Length: <n>\r\n\r\n<n bytes>]. *)
Definition encode (body : list byte) : list byte :=
  header (length body) ++ body.

(** The bytes of an ASCII text in which the apostrophe stands for the
    double quote. *)
Definition json_bytes (s : string) : list byte :=
  map (fun b => if (Byte.to_N b =? 39)%N then x22 else b) (list_byte_of_string s).

(** The code units of bytes that are ASCII. *)
Definition chars (bs : list byte) : JSString := map Byte.to_N bs.

Definition is_ascii (bs : list byte) : Prop :=
  Forall (fun b => (Byte.to_N b < 128)%N) bs.

(** A well-formed frame in ASCII: the body and the message it parses to. *)
Definition well_formed (fm : list byte * json) : Prop :=
  is_ascii fm.1 /\ JSON_parse (chars fm.1) = Some fm.2.

(** The bytes of a series of frames. *)
Definition stream (frames : list (list byte * json)) : list byte :=
  concat (map (fun fm => encode fm.1) frames).

(** The bytes [delivered] so far end inside the header of a frame, after
    its first 16 bytes ([Content-Length: ]) and before its end. *)
Definition cut_inside_header (frames : list (list byte * json))
    (delivered : list byte) : Prop :=
  exists j q rest fm,
    delivered = stream (take j frames) ++ q
    /\ frames !! j = Some fm
    /\ header (length fm.1) = q ++ rest
    /\ rest <> []
    /\ (16 <= length q)%nat.

(** The sum of the sizes of a scatter/gather list. *)
Definition total_len (iovs : list Iovec) : N :=
  fold_right (fun iovec n => (buf_len iovec + n)%N) 0%N iovs.

(** The memory after [data] was stored piece by piece at the addresses of
    a scatter/gather list, each piece as long as its entry allows. *)
Fixpoint scatter (view8 : list byte) (iovs : list Iovec) (data : list byte)
  : list byte :=
  match iovs with
  | [] => view8
  | iovec :: iovs' =>
      let piece := take (N.to_nat (buf_len iovec)) data in
      scatter (take (N.to_nat (buf iovec)) view8 ++ piece
                 ++ drop (N.to_nat (buf iovec) + length piece) view8)
        iovs' (drop (N.to_nat (buf_len iovec)) data)
  end.

(** A completion item that has only a label, and the option the plugin
    makes of it. *)
Definition plain_item (s : JSString) : CompletionItem :=
  {| ci_label := s; ci_detail := None; ci_kind := None; ci_newText := None;
     ci_documentation := None; ci_sortText := None; ci_filterText := None |}.

Definition plain_option (s : JSString) : Completion :=
  {| label := s; detail := None; apply := s; type := None;
     sortText := s; filterText := s; info := None |}.

(** A client after the handshake with a server that announces no
    capability. *)
Definition open_client : LspClient :=
  let c1 := (initialize (new_LspClient (lit "file:///") [])).2 in
  default c1
    (receive {| m_id := Some (IdNum 0); m_method := None; m_params := None;
                m_result := Some (JObject [(lit "capabilities", JObject [])]);
                m_error := None |} c1).

(** Every entry of the map of pending requests is under an id that was
    issued. *)
Definition keys_issued (c : LspClient) : Prop :=
  0 <= id c
  /\ forall i, is_Some (outboundRequests c !! i) ->
               exists k, i = IdNum k /\ 0 <= k < id c.

(** ** More of the client and of the plugin *)

Definition set_initializePromise (x : option nat) (c : LspClient) : LspClient :=
  {| id := id c; outboundRequests := outboundRequests c;
     rootUri := rootUri c; workspaceFolders := workspaceFolders c;
     plugins := plugins c; isOpen := isOpen c;
     initializePromise := x;
     capabilities := capabilities c; promises := promises c; jobs := jobs c;
     views := views c; outbox := outbox c; console := console c |}.

(** [a.splice(a.indexOf(x), 1)]: the list without the first [x]; [None]
    when [indexOf] is [-1]. *)
Fixpoint remove_first (x : nat) (a : list nat) : option (list nat) :=
  match a with
  | [] => None
  | y :: a' =>
      if bool_decide (y = x) then Some a'
      else (fun l => y :: l) <$> remove_first x a'
  end.

(** [LspClient.close()] up to its first [await]: the request [shutdown],
    whose [params] are [void {}], that is [undefined]; the promise is the
    one the request returns. *)
Definition close (c : LspClient) : nat * LspClient :=
  request (lit "shutdown") None c.

(** [LspClient.detachPlugin(plugin)]; [autoClose] is the field of that
    name, which the constructor sets to [true]. *)
Definition detachPlugin (autoClose : bool) (r : nat) (c : LspClient)
  : LspClient :=
  match remove_first r (plugins c) with
  | None => c
  | Some rest =>
      let c := set_plugins rest c in
      if autoClose then (close c).2 else c
  end.

(** [LspPlugin.destroy()] *)
Definition destroy (autoClose : bool) (r : nat) (c : LspClient) : LspClient :=
  detachPlugin autoClose r c.

(** [CompletionTriggerKind] *)
Definition Invoked : N := 1%N.
Definition TriggerCharacter : N := 2%N.

(** [LspPlugin.requestCompletion(context, { line, character }, { triggerKind,
    triggerCharacter })] up to its [await]: [Throw] is the [TypeError] of
    [capabilities] that are [undefined] or [null], [Return None] the [null]
    the call returns at once, [Return (Some p)] the promise of the request
    it waits for.  The plugin is the object [r] of the page. *)
Definition requestCompletion_begin (r : nat) (context : CompletionContext)
    (position : Position) (triggerKind : N) (triggerCharacter : option JSString)
    (c : LspClient) : outcome (option nat) * LspClient :=
  if negb (isOpen c) then (Return None, c)
  else
    match capabilities c with
    | None | Some JNull => (Throw, c)
    | Some caps =>
        if negb (truthy (get_property (lit "completionProvider") caps))
        then (Return None, c)
        else
          match views c !! r with
          | None => (Throw, c)
          | Some pl =>
              let c := sendChange r (doc_toString (ctx_doc context)) c in
              let '(p, c) :=
                textDocumentCompletion
                  {| cp_uri := documentUri pl; cp_position := position;
                     cp_triggerKind := triggerKind;
                     cp_triggerCharacter := triggerCharacter |} c in
              (Return (Some p), c)
          end
    end.

(** [s[i]] for an index that may be negative: the code unit, or
    [undefined]. *)
Definition char_at (s : JSString) (i : Z) : option N :=
  if i <? 0 then None else s !! Z.to_nat i.

(** [o?.key]: [undefined] for [undefined] and [null], the property
    otherwise. *)
Definition get_optional (key : JSString) (o : option json) : option json :=
  match o with
  | None | Some JNull => None
  | Some v => get_property key v
  end.

(** [tc?.includes(x)] for [x] a string of one code unit or [undefined]:
    the method of arrays, the method of strings (which looks for the text
    of [x]), and the [TypeError] of a value that has no such method. *)
Definition optional_includes (tc : option json) (x : option N) : outcome bool :=
  match tc with
  | None | Some JNull => Return false
  | Some (JArray l) =>
      Return match x with
             | Some ch => existsb (fun v => match v with
                                            | JString s => eqb_string s [ch]
                                            | _ => false
                                            end) l
             | None => false
             end
  | Some (JString s) =>
      Return (0 <=? indexOf s match x with
                              | Some ch => [ch]
                              | None => lit "undefined"
                              end)
  | Some _ => Throw
  end.

(** [/\w+$/] *)
Definition WORD : Pattern :=
  {| p_first := {| cs_words := true; cs_flat := [] |};
     p_rest := {| cs_words := true; cs_flat := [] |} |}.

(** The completion source [createPlugin] gives to [autocompletion], once
    the plugin [r] of the view was made (before, it answers [null]): what
    [requestCompletion] is called with, if it is called.  [Throw] is the
    [RangeError] of a cursor outside the document or the [TypeError] of
    trigger characters that have no [includes]. *)
Definition completion_source (r : nat) (context : CompletionContext)
    (c : LspClient) : outcome (option nat) * LspClient :=
  match lineAt (ctx_doc context) (ctx_pos context) with
  | None => (Throw, c)
  | Some l =>
      let before :=
        char_at (l_text l)
          (Z.of_N (ctx_pos context) - Z.of_N (l_from l) - 1) in
      let triggered :=
        if ctx_explicit context then Return false
        else
          optional_includes
            (get_optional (lit "triggerCharacters")
               (get_optional (lit "completionProvider") (capabilities c)))
            before in
      match triggered with
      | Throw => (Throw, c)
      | Hang => (Hang, c)
      | Return t =>
          let trigKind := if t then TriggerCharacter else Invoked in
          let trigChar := if t then (fun ch => [ch]) <$> before else None in
          let no_word :=
            if (trigKind =? Invoked)%N then
              match matchBefore context WORD with
              | None => Throw
              | Some token => Return (negb (is_defined token))
              end
            else Return false in
          match no_word with
          | Throw => (Throw, c)
          | Hang => (Hang, c)
          | Return true => (Return None, c)
          | Return false =>
              match offsetToPos (ctx_doc context) (ctx_pos context) with
              | None => (Throw, c)
              | Some position =>
                  requestCompletion_begin r context position trigKind
                    trigChar c
              end
          end
      end
  end.

(** ** Notions for the properties of the client *)

(** The ids of the messages sent, in the order they were sent. *)
Definition sent_ids (c : LspClient) : list JsonRpcId :=
  omap m_id (outbox c).

(** The notification that the client is initialized. *)
Definition initialized_message : JsonRpcMessage :=
  {| m_id := None; m_method := Some (lit "initialized");
     m_params := Some (OtherParams (JObject []));
     m_result := None; m_error := None |}.

(** A notification of diagnostics. *)
Definition publishDiagnostics_message (ps : PublishDiagnosticsParams)
  : JsonRpcMessage :=
  {| m_id := None; m_method := Some (lit "textDocument/publishDiagnostics");
     m_params := Some (PublishDiagnostics ps);
     m_result := None; m_error := None |}.

(** The states of a client: a new client, and what the calls of the page
    and the messages of the server make of it. *)
Inductive reachable : LspClient -> Prop :=
| reach_new root folders : reachable (new_LspClient root folders)
| reach_request c m ps : reachable c -> reachable (request m ps c).2
| reach_notify c m ps : reachable c -> reachable (notify m ps c)
| reach_initialize c : reachable c -> reachable (initialize c).2
| reach_plugin c u l d : reachable c -> reachable (new_LspPlugin u l d c).2
| reach_change c r t : reachable c -> reachable (sendChange r t c)
| reach_update c r changed d : reachable c -> reachable (update r changed d c)
| reach_detach c autoClose r :
    reachable c -> reachable (detachPlugin autoClose r c)
| reach_requestCompletion c r context position kind char :
    reachable c ->
    reachable (requestCompletion_begin r context position kind char c).2
| reach_completion c r context :
    reachable c -> reachable (completion_source r context c).2
| reach_receive c msg c' :
    reachable c -> receive msg c = Some c' -> reachable c'.

(** A step of the client that sends no request: the counter of ids, the
    ids sent and the promise of the handshake are as before. *)
Definition no_request (c c' : LspClient) : Prop :=
  id c' = id c
  /\ sent_ids c' = sent_ids c
  /\ initializePromise c' = initializePromise c.

(** The ids sent are the numbers from 0 up to the counter, in order. *)
Definition ids_in_order (c : LspClient) : Prop :=
  0 <= id c
  /\ sent_ids c = map (fun k => IdNum (Z.of_nat k)) (seq 0 (Z.to_nat (id c))).

(** No microtask is waiting and no handshake promise was stored. *)
Definition quiet (c : LspClient) : Prop :=
  jobs c = [] /\ initializePromise c = None.

(** A step that sends notifications at most: besides, the pending requests
    and the microtask queue are as before. *)
Definition only_notifies (c c' : LspClient) : Prop :=
  no_request c c'
  /\ jobs c' = jobs c
  /\ outboundRequests c' = outboundRequests c.

(** What holds in every state of a client. *)
Definition client_invariant (c : LspClient) : Prop :=
  keys_issued c /\ ids_in_order c /\ quiet c.

(** The notification that opens the document of the plugin [r] with the
    text [text], as [LspPlugin.initialize] builds it from the fields of
    the plugin; none for an object that is no plugin. *)
Definition open_of (v : gmap nat LspPlugin) (rt : nat * JSString)
  : option JsonRpcMessage :=
  (fun pl => didOpen_message (documentUri pl) (languageId pl) rt.2
               (documentVersion pl)) <$> v !! rt.1.

(** The request [initialize] of a client. *)
Definition initialize_message (c : LspClient) : JsonRpcMessage :=
  {| m_id := Some (IdNum (id c)); m_method := Some (lit "initialize");
     m_params := Some (InitializeRequest (rootUri c) (workspaceFolders c));
     m_result := None; m_error := None |}.

(** ** Document sessions *)









(** * Properties *)

(** ** Position conversions *)

Section positions.

Local Open Scope N_scope.

Lemma lineAt_in_some ls number from pos :
  ls <> [] -> from <= pos -> pos <= from + lines_length ls ->
  exists l, lineAt_in ls number from pos = Some l.
Proof.
  revert number from.
  induction ls as [|x ls IH]; intros number from Hne Hlo Hhi; [done|].
  cbn [lineAt_in].
  destruct (N.leb_spec pos (from + N.of_nat (length x))) as [Hle|Hgt]; [eauto|].
  destruct ls as [|y ls'].
  - cbn [lines_length] in Hhi. lia.
  - apply IH; [done|lia|].
    change (lines_length (x :: y :: ls'))
      with (N.of_nat (length x) + 1 + lines_length (y :: ls')) in Hhi.
    lia.
Qed.

Lemma lineAt_in_line ls number from pos l :
  lineAt_in ls number from pos = Some l ->
  from <= pos ->
  line_in ls number from (l_number l) = Some l
  /\ number <= l_number l < number + N.of_nat (length ls)
  /\ l_from l <= pos.
Proof.
  revert number from.
  induction ls as [|x ls IH]; intros number from Hl Hlo; [done|].
  cbn [lineAt_in] in Hl. cbn [line_in length].
  destruct (N.leb_spec pos (from + N.of_nat (length x))) as [Hle|Hgt].
  - injection Hl as <-. cbn [l_number l_from].
    rewrite N.eqb_refl. split; [done|]. lia.
  - apply IH in Hl as (Hline & Hnum & Hfrom); [|lia].
    destruct (N.eqb_spec number (l_number l)) as [->|_]; [lia|].
    split; [done|]. lia.
Qed.

End positions.

(** C10.  For every document and every offset between 0 and the length of
    the document, [offsetToPos] gives a position and [posToOffset] maps this
    position back to the offset. *)
Theorem offsetToPos_posToOffset (d : Text) (offset : N) :
  (offset <= doc_length d)%N ->
  exists pos, offsetToPos d offset = Some pos
              /\ posToOffset d pos = Some offset.
Proof.
  intros Hlen. unfold offsetToPos, posToOffset, lineAt, line, doc_length, lines in *.
  destruct (lineAt_in_some (text_lines d) 1 0 offset) as [l Hl];
    [done|lia|lia|].
  rewrite Hl. eexists; split; [reflexivity|].
  apply lineAt_in_line in Hl as (Hline & Hnum & Hfrom); [|lia].
  cbn [p_line p_character].
  destruct (N.leb_spec (N.of_nat (length (text_lines d))) (l_number l - 1)); [lia|].
  replace (l_number l - 1 + 1)%N with (l_number l) by lia.
  rewrite Hline.
  replace (l_from l + (offset - l_from l))%N with offset by lia.
  destruct (N.ltb_spec (lines_length (text_lines d)) offset); [lia|done].
Qed.

Lemma offsetToPos_posToOffset_witness :
  let d := {| first_line := lit "abc"; more_lines := [[]; lit "de"] |} in
  (5 <= doc_length d)%N /\
  exists pos, offsetToPos d 5 = Some pos /\ posToOffset d pos = Some 5%N.
Proof.
  split; [vm_compute; discriminate|].
  apply (offsetToPos_posToOffset _ 5%N). vm_compute; discriminate.
Defined.

(** ** The positions that can be mapped *)

Section mapping.

Local Open Scope N_scope.

Lemma line_in_from ls : forall k number from,
  (k < length ls)%nat ->
  exists l,
    line_in ls number from (number + N.of_nat k) = Some l
    /\ l_from l
       = from + N.of_nat (length (concat (map (fun l => l ++ [LF]) (take k ls)))).
Proof.
  induction ls as [|x ls IH]; intros k number from Hk; [cbn in Hk; lia|].
  destruct k as [|k]; cbn [line_in take map concat].
  - rewrite N.add_0_r, N.eqb_refl. eexists. split; [done|]. cbn. lia.
  - destruct (N.eqb_spec number (number + N.of_nat (S k))) as [|_]; [lia|].
    destruct (IH k (number + 1) (from + N.of_nat (length x) + 1))
      as (l & Hl & Hfrom); [cbn in Hk; lia|].
    exists l. replace (number + N.of_nat (S k)) with (number + 1 + N.of_nat k) by lia.
    split; [done|]. rewrite Hfrom, !length_app. cbn [length]. lia.
Qed.

Lemma lines_length_join ls : lines_length ls = N.of_nat (length (join_lines ls)).
Proof.
  induction ls as [|x ls IH]; [done|].
  destruct ls as [|y ls]; [done|].
  change (lines_length (x :: y :: ls))
    with (N.of_nat (length x) + 1 + lines_length (y :: ls)).
  change (join_lines (x :: y :: ls)) with (x ++ LF :: join_lines (y :: ls)).
  rewrite IH, length_app. cbn [length]. lia.
Qed.

(** [posToOffset] maps the positions the specification calls mappable,
    and these only, each to its offset in the text. *)
Lemma posToOffset_mapped d pos : posToOffset d pos = mapped d pos.
Proof.
  unfold posToOffset, mapped, lines, line, doc_length, doc_toString, text_before.
  destruct (N.leb_spec (N.of_nat (length (text_lines d))) (p_line pos)) as [Hge|Hlt].
  - destruct (Nat.ltb_spec (N.to_nat (p_line pos)) (length (text_lines d))); [lia|done].
  - destruct (Nat.ltb_spec (N.to_nat (p_line pos)) (length (text_lines d))) as [Hk|]; [|lia].
    destruct (line_in_from (text_lines d) _ 1 0 Hk) as (l & Hl & Hfrom).
    replace (p_line pos + 1) with (1 + N.of_nat (N.to_nat (p_line pos))) by lia.
    rewrite Hl, Hfrom, lines_length_join, N.add_0_l.
    set (a := N.of_nat (length (concat _)) + p_character pos).
    set (b := N.of_nat (length (join_lines (text_lines d)))).
    destruct (N.ltb_spec b a), (N.leb_spec a b); try done; lia.
Qed.

End mapping.

(** ** The sort of arrays *)

Section js_sort.

Context {A : Type} (cmp : A -> A -> Z).

Lemma sort_insert_perm x l : Permutation (sort_insert cmp x l) (x :: l).
Proof.
  induction l as [|y l IH]; cbn [sort_insert]; [done|].
  destruct (cmp x y <=? 0); [done|].
  rewrite IH. apply perm_swap.
Qed.

Lemma js_sort_perm l : Permutation (js_sort cmp l) l.
Proof.
  induction l as [|x l IH]; cbn [js_sort]; [done|].
  rewrite sort_insert_perm. by constructor.
Qed.

(** A comparator that orders the elements of interest ([good]) by a key. *)
Variable key : A -> N.
Variable good : A -> Prop.
Hypothesis cmp_key :
  forall x y, good x -> good y -> (cmp x y <=? 0) = (key x <=? key y)%N.

Let key_le (a b : A) : Prop := (key a <= key b)%N.

Lemma sort_insert_sorted x l :
  good x -> Forall good l ->
  StronglySorted key_le l -> StronglySorted key_le (sort_insert cmp x l).
Proof.
  intros Hx Hl Hs.
  induction Hs as [|y l Hs IH Hy]; cbn [sort_insert].
  - repeat constructor.
  - apply Forall_cons in Hl as [Hgy Hl].
    rewrite cmp_key by done.
    destruct (N.leb_spec (key x) (key y)) as [Hle|Hgt].
    + constructor; [by constructor|].
      constructor; [done|].
      eapply Forall_impl; [exact Hy|]. unfold key_le; intros; simpl in *; lia.
    + constructor; [by apply IH|].
      rewrite sort_insert_perm. constructor; [unfold key_le; lia|done].
Qed.

Lemma js_sort_sorted l :
  Forall good l -> StronglySorted key_le (js_sort cmp l).
Proof.
  induction l as [|x l IH]; intros Hl; cbn [js_sort]; [constructor|].
  apply Forall_cons in Hl as [Hx Hl].
  apply sort_insert_sorted; [done| |by apply IH].
  by rewrite js_sort_perm.
Qed.

Lemma sort_insert_stable x l k :
  good x -> Forall good l ->
  filter (fun a => key a = k) (sort_insert cmp x l)
  = filter (fun a => key a = k) (x :: l).
Proof.
  intros Hx Hl.
  induction l as [|y l IH]; cbn [sort_insert]; [done|].
  apply Forall_cons in Hl as [Hy Hl].
  rewrite cmp_key by done.
  destruct (N.leb_spec (key x) (key y)) as [Hle|Hgt]; [done|].
  rewrite filter_cons, IH by done.
  rewrite !filter_cons.
  repeat case_decide; try done; lia.
Qed.

Lemma js_sort_stable l k :
  Forall good l ->
  filter (fun a => key a = k) (js_sort cmp l) = filter (fun a => key a = k) l.
Proof.
  induction l as [|x l IH]; intros Hl; cbn [js_sort]; [done|].
  apply Forall_cons in Hl as [Hx Hl].
  rewrite sort_insert_stable; [|done|by rewrite js_sort_perm].
  rewrite !filter_cons, IH by done. done.
Qed.

End js_sort.

(** ** Diagnostics *)

Lemma mapped_visible d ds :
  List.filter (fun x => is_defined (from x) && is_defined (to x))
    (map (fun '{| range := r; message := m; severity := s |} =>
            {| from := posToOffset d (r_start r);
               to := posToOffset d (r_end r);
               d_severity := map_severity s;
               d_message := m |}) ds)
  = omap (visible d) ds.
Proof.
  induction ds as [|[r m s] ds IH]; [done|].
  cbn [map List.filter omap list_omap from to]. unfold visible at 1.
  cbn [range severity message]. rewrite <- IH, !posToOffset_mapped.
  destruct (mapped d (r_start r)), (mapped d (r_end r)); done.
Qed.

Lemma visible_from d x e : visible d x = Some e -> is_Some (from e) /\ is_Some (to e).
Proof.
  unfold visible.
  destruct (mapped d (r_start (range x))),
    (mapped d (r_end (range x))); intros [= <-]; eauto.
Qed.

Lemma compare_from_key x y :
  is_Some (from x) -> is_Some (from y) ->
  (compare_from x y <=? 0) = (default 0%N (from x) <=? default 0%N (from y))%N.
Proof.
  intros [a Ha] [b Hb]. unfold compare_from, offset_lt. rewrite Ha, Hb. simpl.
  destruct (N.ltb_spec a b), (N.ltb_spec b a), (N.leb_spec a b); try done; lia.
Qed.

Lemma sorted_start_le l :
  Forall (fun e => is_Some (from e)) l ->
  StronglySorted (fun a b => (default 0 (from a) <= default 0 (from b))%N) l ->
  StronglySorted start_le l.
Proof.
  intros Hl Hs. induction Hs as [|e l Hs IH He]; [constructor|].
  apply Forall_cons in Hl as [[a Ha] Hl].
  constructor; [by apply IH|].
  apply Forall_forall. intros e' He'.
  rewrite Forall_forall in He, Hl.
  specialize (He _ He'). destruct (Hl _ He') as [b Hb].
  unfold start_le. rewrite Ha, Hb in *. exact He.
Qed.

Lemma filter_from_key k l :
  Forall (fun e => is_Some (from e)) l ->
  filter (fun e => from e = Some k) l
  = filter (fun e => default 0%N (from e) = k) l.
Proof.
  intros Hl. induction Hl as [|e l [a Ha] Hl IH]; [done|].
  rewrite !filter_cons, IH. rewrite Ha. simpl.
  repeat case_decide; congruence.
Qed.

(** C6.  For a batch addressed to the tracked document, the list sent to
    the view holds exactly the entries whose start and end can both be
    mapped into the document, each with its offsets: a position can be
    mapped when its line is a line of the document and its offset, the
    length of the text before the line plus the character, does not exceed
    the length of the document; an entry on a missing line, or that starts
    or ends past the end of the document, is left out.  The list is in
    ascending order of start offset, entries with the same start in their
    order of arrival; the severities Error, Warning, Information and Hint
    become error, warning, info and info; entries that start at 50, 10 and
    30 are displayed in the order 10, 30, 50, and an entry whose end is
    past the document is left out. *)
Theorem handleDiagnostics_sorted (pl : LspPlugin) (ps : PublishDiagnosticsParams) :
  uri ps = documentUri pl ->
  let out := shown (handleDiagnostics ps pl) in
  Permutation out (omap (visible (doc pl)) (diagnostics ps))
  /\ StronglySorted start_le out
  /\ (forall k, filter (fun e => from e = Some k) out
                = filter (fun e => from e = Some k)
                    (omap (visible (doc pl)) (diagnostics ps)))
  /\ (map_severity (Some DiagnosticSeverity.Error) = Some Severity.error
      /\ map_severity (Some DiagnosticSeverity.Warning) = Some Severity.warning
      /\ map_severity (Some DiagnosticSeverity.Information) = Some Severity.info
      /\ map_severity (Some DiagnosticSeverity.Hint) = Some Severity.info)
  /\ (let d := {| first_line := repeat 120%N 60; more_lines := [] |} in
      let at_ (a b : N) :=
        {| range := {| r_start := {| p_line := 0; p_character := a |};
                       r_end := {| p_line := 0; p_character := b |} |};
           message := lit "m"; severity := Some DiagnosticSeverity.Error |} in
      map from
        (shown (handleDiagnostics
                  {| uri := documentUri pl;
                     diagnostics := [at_ 50 51; at_ 10 11; at_ 20 61; at_ 30 31]%N |}
                  {| documentUri := documentUri pl; languageId := languageId pl;
                     documentVersion := documentVersion pl; doc := d;
                     shown := [] |}))
      = [Some 10; Some 30; Some 50]%N).
Proof.
  intros Huri out.
  assert (Hout : out = js_sort compare_from (omap (visible (doc pl)) (diagnostics ps))).
  { unfold out, handleDiagnostics, eqb_string.
    rewrite bool_decide_eq_true_2 by done. cbn [negb shown].
    unfold map_diagnostics. by rewrite mapped_visible. }
  assert (Hgood : Forall (fun e => is_Some (from e))
                    (omap (visible (doc pl)) (diagnostics ps))).
  { apply Forall_forall. intros e He.
    apply list_elem_of_omap in He as (x & _ & Hx).
    by apply visible_from in Hx as [? _]. }
  split; [|split; [|split; [|split]]].
  - rewrite Hout. apply js_sort_perm.
  - rewrite Hout. apply sorted_start_le; [by rewrite js_sort_perm|].
    exact (js_sort_sorted compare_from (fun e => default 0%N (from e))
             (fun e => is_Some (from e)) compare_from_key _ Hgood).
  - intros k. rewrite Hout.
    rewrite !filter_from_key by (done || by rewrite js_sort_perm).
    exact (js_sort_stable compare_from (fun e => default 0%N (from e))
             (fun e => is_Some (from e)) compare_from_key _ k Hgood).
  - done.
  - unfold handleDiagnostics, eqb_string. cbn [uri documentUri].
    rewrite bool_decide_eq_true_2 by done. vm_compute. reflexivity.
Qed.

Lemma handleDiagnostics_sorted_witness :
  let pl := {| documentUri := lit "file:///main.zig"; languageId := lit "zig";
               documentVersion := 0;
               doc := {| first_line := lit "ab"; more_lines := [lit "cde"] |};
               shown := [] |} in
  let entry (l1 c1 l2 c2 : N) (m : string) s :=
    {| range := {| r_start := {| p_line := l1; p_character := c1 |};
                   r_end := {| p_line := l2; p_character := c2 |} |};
       message := lit m; severity := Some s |} in
  let ps := {| uri := lit "file:///main.zig";
               diagnostics :=
                 [ entry 1 1 1 3 "second line" DiagnosticSeverity.Hint;
                   entry 0 0 2 0 "ends on a missing line" DiagnosticSeverity.Error;
                   entry 0 1 1 4 "ends past the document" DiagnosticSeverity.Error;
                   entry 3 0 3 1 "on a missing line" DiagnosticSeverity.Warning;
                   entry 0 1 0 2 "first line" DiagnosticSeverity.Error ]%N |} in
  uri ps = documentUri pl
  /\ Permutation (shown (handleDiagnostics ps pl))
       [ {| from := Some 4%N; to := Some 6%N; d_severity := Some Severity.info;
            d_message := lit "second line" |};
         {| from := Some 1%N; to := Some 2%N; d_severity := Some Severity.error;
            d_message := lit "first line" |} ]
  /\ StronglySorted start_le (shown (handleDiagnostics ps pl)).
Proof.
  intros pl entry ps. split; [reflexivity|].
  destruct (handleDiagnostics_sorted pl ps) as (Hperm & Hsorted & _);
    [reflexivity|].
  split; [exact Hperm|exact Hsorted].
Defined.

(** ** Completion *)

Section ranking.

Variable text : JSString.

Let starts (o : Completion) : bool := startsWith (apply o) text.

Lemma compare_apply_le x y :
  (compare_apply text x y <=? 0) = starts x || negb (starts y).
Proof.
  unfold compare_apply. fold (starts x) (starts y).
  by destruct (starts x), (starts y).
Qed.

Lemma sort_insert_front x l :
  starts x = true -> sort_insert (compare_apply text) x l = x :: l.
Proof.
  intros Hx. destruct l as [|y l]; [done|]. cbn [sort_insert].
  by rewrite compare_apply_le, Hx.
Qed.

Lemma sort_insert_middle x l0 l1 :
  starts x = false ->
  Forall (fun o => starts o = true) l0 ->
  Forall (fun o => starts o = false) l1 ->
  sort_insert (compare_apply text) x (l0 ++ l1) = l0 ++ x :: l1.
Proof.
  intros Hx H0 H1. induction H0 as [|y l0 Hy H0 IH].
  - destruct H1 as [|y l1 Hy H1]; [done|]. cbn [sort_insert app].
    by rewrite compare_apply_le, Hx, Hy.
  - cbn [sort_insert app]. rewrite compare_apply_le, Hx, Hy.
    cbn [negb orb]. by rewrite IH.
Qed.

(** The sort of the options puts those whose [apply] starts with the token
    first and keeps the order inside each group. *)
Lemma js_sort_compare_apply l :
  js_sort (compare_apply text) l
  = List.filter starts l ++ List.filter (fun o => negb (starts o)) l.
Proof.
  induction l as [|x l IH]; [done|]. cbn [js_sort List.filter]. rewrite IH.
  destruct (starts x) eqn:Hx; cbn [negb].
  - by apply sort_insert_front.
  - apply sort_insert_middle; [done| |].
    + apply Forall_forall. intros o Ho. apply list_elem_of_In in Ho.
      by apply filter_In in Ho as [_ Ho].
    + apply Forall_forall. intros o Ho. apply list_elem_of_In in Ho.
      apply filter_In in Ho as [_ Ho]. by apply negb_true_iff.
Qed.

End ranking.

Lemma search_bound pat i str found :
  search pat i str = Some found ->
  (i <= found /\ found < i + N.of_nat (length str))%N.
Proof.
  revert i. induction str as [|c str IH]; intros i; [done|]. cbn [search length].
  destruct (in_set (p_first pat) c && forallb (in_set (p_rest pat)) str).
  - intros [= <-]. lia.
  - intros H. apply IH in H. lia.
Qed.

Lemma matchBefore_left ctx pat token :
  matchBefore ctx pat = Some (Some token) -> (t_from token < ctx_pos ctx)%N.
Proof.
  unfold matchBefore. destruct (lineAt (ctx_doc ctx) (ctx_pos ctx)) as [l|]; [|done].
  destruct (search pat 0 _) as [found|] eqn:Hs; [|done].
  intros [= <-]. cbn [t_from].
  apply search_bound in Hs. rewrite length_take in Hs. lia.
Qed.

(** C7.  With the options foo, foobar and bar and the token fo typed
    before the cursor, the result holds foo and foobar in this order, from
    the start of the token.  In general, for a token of word characters the
    options kept are those whose [filterText], in lower case, starts with
    the token in lower case; those whose [apply] starts with the token as
    typed come first, and each group keeps its order.  The case mapping of
    the platform is any function that maps ASCII strings as ASCII does. *)
Theorem completion_filter_sort (toLowerCase : JSString -> JSString) :
  (forall s, forallb (fun c => c <? 128)%N s = true ->
             toLowerCase s = ascii_toLowerCase s) ->
  requestCompletion_result toLowerCase
    {| ctx_doc := {| first_line := lit "fo"; more_lines := [] |};
       ctx_pos := 2; ctx_explicit := false |}
    (Some (ItemArray [plain_item (lit "foo"); plain_item (lit "foobar");
                      plain_item (lit "bar")]))
  = Return (Some {| cr_from := 0;
                    cr_options := [plain_option (lit "foo");
                                   plain_option (lit "foobar")] |})
  /\ forall token options,
       let survivors :=
         List.filter (fun o => startsWith (toLowerCase (filterText o))
                                 (toLowerCase (t_text token))) options in
       rank_options toLowerCase token options
       = List.filter (fun o => startsWith (apply o) (t_text token)) survivors
         ++ List.filter (fun o => negb (startsWith (apply o) (t_text token)))
              survivors.
Proof.
  intros Hlower. split.
  - unfold requestCompletion_result, complete_options, rank_options.
    vm_compute.
    rewrite !Hlower by reflexivity.
    vm_compute. reflexivity.
  - intros token options survivors. unfold rank_options.
    apply js_sort_compare_apply.
Qed.

Lemma completion_filter_sort_witness :
  (forall s, forallb (fun c => c <? 128)%N s = true ->
             ascii_toLowerCase s = ascii_toLowerCase s)
  /\ rank_options ascii_toLowerCase
       {| t_from := 0; t_to := 2; t_text := lit "Fo" |}
       [plain_option (lit "foo"); plain_option (lit "bar");
        plain_option (lit "Foo")]
     = [plain_option (lit "Foo"); plain_option (lit "foo")].
Proof.
  split; [reflexivity|].
  rewrite (proj2 (completion_filter_sort ascii_toLowerCase (fun s _ => eq_refl))).
  vm_compute. reflexivity.
Defined.

(** C8 as stated fails: a token that is not of word characters moves the
    start of the result to the start of the token, away from the cursor. *)
Lemma nonword_token_from_not_cursor :
  ~ (forall toLowerCase context options token,
       matchBefore context (prefixMatch options) = Some (Some token) ->
       is_word_string (toLowerCase (t_text token)) = false ->
       complete_options toLowerCase context options
       = Some {| cr_from := ctx_pos context; cr_options := options |}).
Proof.
  intros H.
  specialize (H ascii_toLowerCase
                {| ctx_doc := {| first_line := lit "x.f"; more_lines := [] |};
                   ctx_pos := 3; ctx_explicit := false |}
                [plain_option (lit ".foo"); plain_option (lit ".bar")]
                {| t_from := 1; t_to := 3; t_text := lit ".f" |}
                eq_refl eq_refl).
  vm_compute in H. discriminate H.
Qed.

(** C8, amended.  When the token taken before the cursor is not of word
    characters once in lower case, the options are returned as they are,
    unfiltered and in their order, and the result starts at the start of
    the token, which is left of the cursor. *)
Theorem nonword_token_unranked (toLowerCase : JSString -> JSString)
    (context : CompletionContext) (options : list Completion) (token : Token) :
  matchBefore context (prefixMatch options) = Some (Some token) ->
  is_word_string (toLowerCase (t_text token)) = false ->
  complete_options toLowerCase context options
  = Some {| cr_from := t_from token; cr_options := options |}
  /\ (t_from token < ctx_pos context)%N.
Proof.
  intros Hm Hw. split; [|by eapply matchBefore_left].
  unfold complete_options. by rewrite Hm, Hw.
Qed.

Lemma nonword_token_unranked_witness :
  let context := {| ctx_doc := {| first_line := lit "x.f"; more_lines := [] |};
                    ctx_pos := 3%N; ctx_explicit := false |} in
  let options := [plain_option (lit ".foo"); plain_option (lit ".bar")] in
  complete_options ascii_toLowerCase context options
  = Some {| cr_from := 1; cr_options := options |}
  /\ (1 < ctx_pos context)%N.
Proof.
  intros context options.
  exact (nonword_token_unranked ascii_toLowerCase context options
           {| t_from := 1; t_to := 3; t_text := lit ".f" |} eq_refl eq_refl).
Defined.

(** Without a token before the cursor the result starts at the cursor and
    holds every option. *)
Lemma no_token_unranked toLowerCase context options :
  matchBefore context (prefixMatch options) = Some None ->
  complete_options toLowerCase context options
  = Some {| cr_from := ctx_pos context; cr_options := options |}.
Proof. intros Hm. unfold complete_options. by rewrite Hm. Qed.

(** ** The blocking read *)

Lemma typed_set_fits dst src offset :
  (N.to_nat offset + length src <= length dst)%nat ->
  typed_set dst src offset
  = Some (take (N.to_nat offset) dst ++ src
            ++ drop (N.to_nat offset + length src) dst).
Proof.
  intros H. unfold typed_set.
  destruct (Nat.leb_spec (N.to_nat offset + length src) (length dst)); [done|lia].
Qed.

Lemma shift_left_fits data read :
  (N.to_nat read <= length data)%nat ->
  shift_left data read
  = Some (drop (N.to_nat read) data ++ drop (length data - N.to_nat read) data).
Proof.
  intros H. unfold shift_left.
  destruct (Nat.leb_spec (N.to_nat read) (length data)); [|lia].
  rewrite typed_set_fits by (rewrite length_drop; simpl; lia).
  by rewrite length_drop.
Qed.

(** C9.  A read of [maxLen] bytes on [stdin], the channel holding [index]
    valid bytes when the call has the lock: the call returns
    [min(maxLen, index)] as the count of bytes read, these bytes are the
    front of the shared buffer and are stored at the address of the
    request, the bytes after them move to the front of the shared buffer,
    and [index] goes down by the count. *)
Theorem fd_read_takes_front (refill : Sharer -> Sharer) (s : Stdio)
    (sh : Sharer) (view8 : list byte) (iovec : Iovec) :
  let sh1 := if (index sh =? 0)%N then refill sh else sh in
  let read := N.min (buf_len iovec) (index sh1) in
  let data := dataBuffer sh1 in
  kind s = stdin ->
  (index sh1 <= N.of_nat (length data))%N ->
  (buf iovec + read <= N.of_nat (length view8))%N ->
  exists sh' view8',
    fd_read refill s sh view8 [iovec]
    = (sh', view8', Return {| r_ret := 0; nread := read |})
    /\ view8' = take (N.to_nat (buf iovec)) view8
                ++ take (N.to_nat read) data
                ++ drop (N.to_nat (buf iovec + read)) view8
    /\ index sh' = (index sh1 - read)%N
    /\ length (dataBuffer sh') = length data
    /\ take (N.to_nat (index sh')) (dataBuffer sh')
       = take (N.to_nat (index sh')) (drop (N.to_nat read) data)
    /\ locked sh' = false.
Proof.
  intros sh1 read data Hkind Hidx Hfit.
  assert (Hread : (read <= index sh1)%N) by (unfold read; lia).
  assert (Hlen : length (take (N.to_nat read) data) = N.to_nat read).
  { rewrite length_take. lia. }
  unfold fd_read. rewrite Hkind. fold sh1.
  cbn [fd_read_from lock index dataBuffer locked buf_len]. fold read data.
  rewrite typed_set_fits by (rewrite Hlen; lia).
  rewrite shift_left_fits by lia.
  cbn [unlock index dataBuffer locked].
  eexists _, _. split; [rewrite N.add_0_l; reflexivity|].
  cbn [unlock index dataBuffer locked].
  split; [|split; [done|split; [|split; [|done]]]].
  - rewrite Hlen. do 3 f_equal. lia.
  - rewrite length_app, !length_drop. lia.
  - rewrite take_app_le; [done|]. rewrite length_drop. lia.
Qed.

Lemma fd_read_takes_front_witness :
  let sh := {| index := 3; dataBuffer := list_byte_of_string "abcde";
               locked := false |} in
  let view8 := list_byte_of_string "0123456789" in
  let iovec := {| buf := 4; buf_len := 2 |} in
  exists sh' view8',
    fd_read (fun x => x) (new_Stdio stdin) sh view8 [iovec]
    = (sh', view8', Return {| r_ret := 0; nread := 2 |})
    /\ view8' = list_byte_of_string "0123ab6789"
    /\ index sh' = 1%N
    /\ take 1 (dataBuffer sh') = list_byte_of_string "c".
Proof.
  intros sh view8 iovec.
  destruct (fd_read_takes_front (fun x => x) (new_Stdio stdin) sh view8 iovec)
    as (sh' & view8' & Hrun & Hview & Hidx & _ & Hdata & _).
  - reflexivity.
  - vm_compute; discriminate.
  - vm_compute; discriminate.
  - exists sh', view8'. split; [exact Hrun|]. split; [exact Hview|].
    split; [exact Hidx|]. rewrite Hidx in Hdata. exact Hdata.
Defined.

(** The loop over several buffers: the valid bytes of the channel go to
    the buffers in order, as many as the buffers hold together, and the
    rest moves to the front of the channel. *)
Lemma fd_read_from_scatter iovs : forall n sh view8,
  (index sh <= N.of_nat (length (dataBuffer sh)))%N ->
  Forall (fun iovec => (buf iovec + buf_len iovec <= N.of_nat (length view8))%N)
    iovs ->
  let valid := take (N.to_nat (index sh)) (dataBuffer sh) in
  let read := N.min (total_len iovs) (index sh) in
  exists sh',
    fd_read_from n sh view8 iovs
    = (sh', scatter view8 iovs valid, Return (n + read)%N)
    /\ index sh' = (index sh - read)%N
    /\ length (dataBuffer sh') = length (dataBuffer sh)
    /\ take (N.to_nat (index sh')) (dataBuffer sh')
       = drop (N.to_nat read) valid
    /\ locked sh' = locked sh.
Proof.
  induction iovs as [|iovec iovs IH]; intros n sh view8 Hidx Hfit valid read.
  - exists sh. cbn [fd_read_from scatter total_len fold_right] in *.
    unfold read. rewrite N.min_0_l, N.add_0_r, N.sub_0_r. cbn [N.to_nat drop].
    by repeat split.
  - apply Forall_cons in Hfit as [Hfit0 Hfit].
    cbn [fd_read_from scatter].
    set (r := N.min (buf_len iovec) (index sh)).
    assert (Hpiece : take (N.to_nat (buf_len iovec)) valid
                     = take (N.to_nat r) (dataBuffer sh)).
    { unfold valid, r. rewrite take_take. f_equal. lia. }
    assert (Hlen : length (take (N.to_nat r) (dataBuffer sh)) = N.to_nat r).
    { rewrite length_take. unfold r. lia. }
    rewrite typed_set_fits by (rewrite Hlen; unfold r; lia).
    rewrite shift_left_fits by (unfold r; lia).
    set (sh1 := {| index := index sh - r; dataBuffer := _; locked := locked sh |}).
    set (view8' := take (N.to_nat (buf iovec)) view8 ++ _ ++ _).
    assert (Hlen1 : length (dataBuffer sh1) = length (dataBuffer sh)).
    { unfold sh1. cbn [dataBuffer]. rewrite length_app, !length_drop.
      unfold r. lia. }
    assert (Hview : length view8' = length view8).
    { unfold view8'. rewrite !length_app, length_take, length_drop, Hlen.
      unfold r. lia. }
    assert (Hvalid1 : take (N.to_nat (index sh1)) (dataBuffer sh1)
                      = drop (N.to_nat (buf_len iovec)) valid).
    { unfold sh1, valid. cbn [index dataBuffer].
      rewrite take_app_le by (rewrite length_drop; unfold r; lia).
      rewrite skipn_firstn_comm.
      destruct (N.le_gt_cases (buf_len iovec) (index sh)) as [Hle|Hgt].
      - unfold r. rewrite N.min_l by done. f_equal. lia.
      - unfold r. rewrite N.min_r by lia.
        rewrite N.sub_diag. cbn [N.to_nat take].
        replace (N.to_nat (index sh) - N.to_nat (buf_len iovec))%nat
          with 0%nat by lia. done. }
    destruct (IH (n + r)%N sh1 view8') as (sh' & Hrun & Hi & Hl & Hv & Hlock).
    { rewrite Hlen1. unfold sh1. cbn [index]. lia. }
    { rewrite Hview. done. }
    exists sh'. rewrite Hvalid1 in Hrun, Hv.
    split; [|split; [|split; [congruence|split; [|done]]]].
    + rewrite Hpiece. fold view8'. rewrite Hrun. do 2 f_equal. unfold sh1, read. cbn [index total_len fold_right].
      fold (total_len iovs). unfold r. lia.
    + rewrite Hi. unfold sh1, read. cbn [index total_len fold_right].
      fold (total_len iovs). unfold r. lia.
    + rewrite Hv, drop_drop.
      unfold sh1, read. cbn [index total_len fold_right].
      fold (total_len iovs). unfold r.
      destruct (N.le_gt_cases (buf_len iovec) (index sh)) as [Hle|Hgt].
      * f_equal. lia.
      * unfold valid. rewrite !drop_ge by (rewrite length_take; lia). done.
Qed.

(** X4.  A read on [stdin] with several buffers that lie in memory: the
    call returns the smaller of the sum of the sizes of the buffers and the
    count of valid bytes; the valid bytes go to the buffers in order, each
    buffer taking as many as its size; the bytes not taken move to the
    front of the channel, its count goes down by the bytes read, and the
    channel is unlocked. *)
Lemma fd_read_scatter (refill : Sharer -> Sharer) (s : Stdio) (sh : Sharer)
    (view8 : list byte) (iovs : list Iovec) :
  let sh1 := if (index sh =? 0)%N then refill sh else sh in
  let valid := take (N.to_nat (index sh1)) (dataBuffer sh1) in
  let read := N.min (total_len iovs) (index sh1) in
  kind s = stdin ->
  (index sh1 <= N.of_nat (length (dataBuffer sh1)))%N ->
  Forall (fun iovec => (buf iovec + buf_len iovec <= N.of_nat (length view8))%N)
    iovs ->
  exists sh',
    fd_read refill s sh view8 iovs
    = (sh', scatter view8 iovs valid, Return {| r_ret := 0; nread := read |})
    /\ index sh' = (index sh1 - read)%N
    /\ length (dataBuffer sh') = length (dataBuffer sh1)
    /\ take (N.to_nat (index sh')) (dataBuffer sh') = drop (N.to_nat read) valid
    /\ locked sh' = false.
Proof.
  intros sh1 valid read Hkind Hidx Hfit.
  destruct (fd_read_from_scatter iovs 0 (lock sh1) view8)
    as (sh' & Hrun & Hi & Hl & Hv & Hlock); [done|done|].
  cbn [lock index dataBuffer locked] in *.
  exists (unlock sh'). unfold fd_read. rewrite Hkind. fold sh1.
  rewrite Hrun, N.add_0_l. by repeat split.
Qed.

Lemma fd_read_scatter_witness :
  let sh := {| index := 5; dataBuffer := list_byte_of_string "abcdefgh";
               locked := false |} in
  let view8 := list_byte_of_string "0123456789" in
  let iovs := [ {| buf := 7; buf_len := 2 |}; {| buf := 1; buf_len := 2 |};
                {| buf := 4; buf_len := 3 |} ] in
  exists sh',
    fd_read (fun x => x) (new_Stdio stdin) sh view8 iovs
    = (sh', list_byte_of_string "0cd3e56ab9", Return {| r_ret := 0; nread := 5 |})
    /\ index sh' = 0%N
    /\ locked sh' = false.
Proof.
  intros sh view8 iovs.
  destruct (fd_read_scatter (fun x => x) (new_Stdio stdin) sh view8 iovs)
    as (sh' & Hrun & Hidx & _ & _ & Hlock).
  - reflexivity.
  - vm_compute; discriminate.
  - repeat constructor; vm_compute; discriminate.
  - exists sh'. split; [exact Hrun|]. split; [exact Hidx|exact Hlock].
Defined.

(** ** Document versions *)

Lemma sendChange_open r text c pl :
  isOpen c = true -> views c !! r = Some pl ->
  outbox (sendChange r text c)
  = outbox c ++ [didChange_message (documentUri pl) (documentVersion pl) text]
  /\ views (sendChange r text c)
     = <[r := {| documentUri := documentUri pl; languageId := languageId pl;
                 documentVersion := documentVersion pl + 1;
                 doc := doc pl; shown := shown pl |}]> (views c)
  /\ isOpen (sendChange r text c) = true.
Proof.
  intros Ho Hv. unfold sendChange. rewrite Ho, Hv. cbn [negb].
  repeat split; try done.
Qed.

(** A change before the session is open sends nothing and leaves the
    counter. *)
Lemma sendChange_closed r text c :
  isOpen c = false -> sendChange r text c = c.
Proof. intros Ho. unfold sendChange. by rewrite Ho. Qed.

Lemma sendChange_sequence texts : forall r c pl,
  isOpen c = true -> views c !! r = Some pl ->
  let c' := foldl (fun c t => sendChange r t c) c texts in
  outbox c'
  = outbox c ++ imap (fun k t => didChange_message (documentUri pl)
                                   (documentVersion pl + Z.of_nat k) t) texts
  /\ version_of r c' = Some (documentVersion pl + Z.of_nat (length texts)).
Proof.
  induction texts as [|t texts IH]; intros r c pl Ho Hv; cbn [foldl imap length].
  - unfold version_of. rewrite Hv, app_nil_r. simpl. split; [done|]. f_equal; lia.
  - destruct (sendChange_open r t c pl Ho Hv) as (Hout & Hviews & Ho').
    edestruct (IH r (sendChange r t c)) as [Hout' Hver']; [done| |].
    { rewrite Hviews. apply lookup_insert_eq. }
    cbn [documentUri documentVersion] in Hout', Hver'.
    split.
    + rewrite Hout', Hout, <- app_assoc. cbn [app]. rewrite Z.add_0_r.
      do 2 f_equal. apply imap_ext. intros k x _. cbn. f_equal. lia.
    + rewrite Hver'. f_equal. lia.
Qed.

Lemma new_LspPlugin_open docUri langId d c :
  initializePromise c = None ->
  let r := fresh (dom (views c)) in
  new_LspPlugin docUri langId d c
  = (r, set_outbox (outbox c ++ [didOpen_message docUri langId (doc_toString d) 0])
          (set_plugins (plugins c ++ [r])
             (set_views (<[r := {| documentUri := docUri; languageId := langId;
                                   documentVersion := 0; doc := d;
                                   shown := [] |}]> (views c)) c))).
Proof.
  intros Hi r. unfold new_LspPlugin, plugin_initialize, attachPlugin. fold r.
  unfold send_open, set_plugins, set_views.
  cbn [initializePromise views]. rewrite Hi, lookup_insert_eq. reflexivity.
Qed.


(** On an open client a new session sends the notification that the
    document was opened and then one notification per change, and nothing
    else. *)
Lemma open_session_versions (c : LspClient) (docUri langId : JSString) (d : Text)
    (texts : list JSString) :
  isOpen c = true ->
  initializePromise c = None ->
  let '(r, c1) := new_LspPlugin docUri langId d c in
  let c2 := foldl (fun c t => sendChange r t c) c1 texts in
  outbox c2
  = outbox c
    ++ didOpen_message docUri langId (doc_toString d) 0
    :: imap (fun k t => didChange_message docUri (Z.of_nat k) t) texts
  /\ version_of r c2 = Some (Z.of_nat (length texts)).
Proof.
  intros Ho Hi. rewrite new_LspPlugin_open by done.
  set (r := fresh (dom (views c))).
  set (pl := {| documentUri := docUri; languageId := langId;
                documentVersion := 0; doc := d; shown := [] |}).
  set (c1 := set_outbox _ _).
  destruct (sendChange_sequence texts r c1 pl) as [Hout Hver].
  - exact Ho.
  - unfold c1. cbn [views set_outbox set_plugins set_views].
    apply lookup_insert_eq.
  - cbn [documentUri documentVersion] in Hout, Hver.
    split; [|exact Hver].
    rewrite Hout. unfold c1. cbn [outbox set_outbox]. by rewrite <- app_assoc.
Qed.

(** ** Requests and responses *)

(** The fields of a client built with the setters. *)
Ltac fields :=
  cbn [id outboundRequests rootUri workspaceFolders plugins isOpen
       initializePromise capabilities promises jobs views outbox console
       set_id set_outboundRequests set_plugins set_isOpen set_capabilities
       set_promises set_jobs set_views set_outbox set_console].

Lemma fresh_promise_None c : promises c !! fresh_promise c = None.
Proof. unfold fresh_promise. apply (not_elem_of_dom (D := gset nat)), is_fresh. Qed.

Lemma request_spec m ps c :
  let f := fresh (dom (promises c)) in
  let p := fresh (dom (<[f := Pending []]> (promises c))) in
  request m ps c
  = (f, set_promises (<[p := Pending [ResumeRequest (IdNum (id c)) f]]>
                        (<[f := Pending []]> (promises c)))
          (set_outbox (outbox c ++ [ {| m_id := Some (IdNum (id c));
                                        m_method := Some m; m_params := ps;
                                        m_result := None; m_error := None |} ])
             (set_outboundRequests
                (<[IdNum (id c) := {| or_promise := p |}]> (outboundRequests c))
                (set_id (id c + 1) c)))).
Proof.
  intros f p. destruct c.
  cbv beta iota zeta delta
    [request new_promise fresh_promise await sendMessage set_id set_promises
     set_outboundRequests set_outbox id outboundRequests rootUri
     workspaceFolders plugins isOpen initializePromise capabilities promises
     jobs views outbox console] in *.
  fold f. fold p. rewrite lookup_insert_eq.
  cbv beta iota. by rewrite insert_insert_eq.
Qed.

Lemma request_pending m ps c f c' :
  request m ps c = (f, c') ->
  exists p,
    pending_call c' (IdNum (id c)) p f
    /\ id c' = id c + 1
    /\ jobs c' = jobs c
    /\ promises c !! f = None
    /\ (forall x v, promises c !! x = Some v -> promises c' !! x = Some v)
    /\ (forall j, j <> IdNum (id c) ->
                  outboundRequests c' !! j = outboundRequests c !! j).
Proof.
  rewrite request_spec. intros [= <- <-].
  set (f := fresh (dom (promises c))).
  set (p := fresh (dom (<[f := Pending []]> (promises c)))).
  assert (Hf : promises c !! f = None) by apply fresh_promise_None.
  assert (Hp : (<[f := Pending []]> (promises c)) !! p = None)
    by apply (not_elem_of_dom (D := gset nat)), is_fresh.
  assert (Hpf : p <> f).
  { intros ->. by rewrite lookup_insert_eq in Hp. }
  exists p. destruct c; cbn in *.
  split; [|split; [done|split; [done|split; [done|split]]]].
  - split; [apply lookup_insert_eq|]. cbn.
    split; [apply lookup_insert_eq|].
    rewrite lookup_insert_ne by done. apply lookup_insert_eq.
  - intros x v Hx.
    rewrite !lookup_insert_ne; [done| |]; intros ->.
    + congruence.
    + rewrite lookup_insert_ne in Hp by congruence. congruence.
  - intros j Hj. by rewrite lookup_insert_ne.
Qed.

Lemma fan_out_response msg refs v :
  m_method msg = None -> fan_out msg refs v = v.
Proof.
  intros Hm. revert v. induction refs as [|r refs IH]; intros v; [done|].
  cbn [fan_out]. destruct (v !! r) as [pl|] eqn:Hr; [|apply IH].
  unfold plugin_handleMessage. rewrite Hm, insert_id by done. apply IH.
Qed.

Lemma run_jobs_done n c : jobs c = [] -> run_jobs n c = Some c.
Proof. intros H. destruct n; cbn [run_jobs]; by rewrite H. Qed.

(** The response to a request that waits settles the promise of the
    request, and resumes the call, which removes the entry when the promise
    was resolved and leaves it when the promise was rejected. *)
Lemma receive_response c i p f msg :
  jobs c = [] -> pending_call c i p f ->
  m_id msg = Some i -> m_method msg = None ->
  receive msg c
  = Some (set_promises
            (<[f := Settled (settlement_of msg)]>
               (<[p := Settled (settlement_of msg)]> (promises c)))
            (set_outboundRequests
               (match settlement_of msg with
                | Fulfilled _ => delete i (outboundRequests c)
                | Rejected _ => outboundRequests c
                end) c)).
Proof.
  intros Hj (Hmap & Hp & Hf) Hid Hmeth.
  assert (Hpf : p <> f) by (intros ->; congruence).
  destruct c; cbn in *. subst.
  unfold receive, handleMessage, settlement_of. rewrite Hid, Hmeth. cbn.
  rewrite Hmap. cbn.
  destruct (truthy (m_error msg)); unfold settle; cbn; rewrite Hp; cbn;
    rewrite fan_out_response by done; cbn;
    unfold settle; cbn; rewrite lookup_insert_ne, Hf by done; cbn;
    by rewrite run_jobs_done.
Qed.

(** A response that answers no entry of the map is reported and dropped. *)
Lemma receive_stray c i msg :
  jobs c = [] -> m_id msg = Some i -> m_method msg = None ->
  outboundRequests c !! i = None ->
  receive msg c = Some (set_console (console c ++ [lit "Got non-answer"]) c).
Proof.
  intros Hj Hid Hmeth Hmap. destruct c; cbn in *. subst.
  unfold receive, handleMessage. rewrite Hid, Hmeth. cbn. rewrite Hmap. cbn.
  rewrite fan_out_response by done. cbn. by rewrite run_jobs_done.
Qed.

(** A promise that is settled stays as it is. *)
Lemma settle_stable q s' c x s :
  promises c !! x = Some (Settled s) ->
  promises (settle q s' c) !! x = Some (Settled s).
Proof.
  intros Hx. unfold settle.
  destruct (promises c !! q) as [[rs|]|] eqn:Hq; try done.
  destruct c; cbn in *.
  rewrite lookup_insert_ne; [done|]. intros ->. congruence.
Qed.

Lemma run_job_stable j c x s :
  promises c !! x = Some (Settled s) ->
  promises (run_job j c) !! x = Some (Settled s).
Proof.
  intros Hx. destruct j as [[i outer|outer|r text] [v|e]]; cbn [run_job].
  - apply settle_stable. by destruct c.
  - by apply settle_stable.
  - destruct v as [[]|]; apply settle_stable; by destruct c.
  - by apply settle_stable.
  - unfold send_open. destruct (views c !! r); by destruct c.
  - done.
Qed.

Lemma run_jobs_stable n : forall c c' x s,
  run_jobs n c = Some c' ->
  promises c !! x = Some (Settled s) ->
  promises c' !! x = Some (Settled s).
Proof.
  induction n as [|n IH]; intros c c' x s; cbn [run_jobs];
    destruct (jobs c) as [|j js] eqn:Hj; try congruence.
  intros Hrun Hx. eapply IH; [exact Hrun|].
  apply run_job_stable. by destruct c.
Qed.

Lemma handleMessage_stable msg c x s :
  promises c !! x = Some (Settled s) ->
  promises (handleMessage msg c) !! x = Some (Settled s).
Proof.
  intros Hx. unfold handleMessage.
  set (c1 := match m_id msg, m_method msg with
             | Some i, None => _
             | _, _ => c
             end).
  assert (H1 : promises c1 !! x = Some (Settled s)).
  { unfold c1. destruct (m_id msg), (m_method msg); try done.
    destruct (outboundRequests c !! _); [|by destruct c].
    destruct (truthy _); by apply settle_stable. }
  by destruct c1.
Qed.

Lemma receive_all_stable msgs : forall c c' x s,
  receive_all msgs c = Some c' ->
  promises c !! x = Some (Settled s) ->
  promises c' !! x = Some (Settled s).
Proof.
  induction msgs as [|m msgs IH]; intros c c' x s; cbn [receive_all].
  - by intros [= <-].
  - destruct (receive m c) as [c1|] eqn:Hr; [|done].
    intros Hall Hx. eapply IH; [exact Hall|].
    unfold receive in Hr. eapply run_jobs_stable; [exact Hr|].
    by apply handleMessage_stable.
Qed.

(** Responses to requests that wait, delivered in the order of the list
    [delivered]: each settles the promise of its own request, and the
    requests of [rest] go on waiting. *)
Lemma deliver_pending delivered : forall rest c,
  jobs c = [] ->
  NoDup ((delivered ++ rest).*1) ->
  NoDup (map (fun fm => m_id fm.2) (delivered ++ rest)) ->
  Forall (answers c) (delivered ++ rest) ->
  exists c',
    receive_all (delivered.*2) c = Some c'
    /\ jobs c' = []
    /\ Forall (fun fm => promises c' !! fm.1 = Some (Settled (settlement_of fm.2)))
         delivered
    /\ Forall (answers c') rest
    /\ (forall j, outboundRequests c !! j = None ->
                  outboundRequests c' !! j = None).
Proof.
  induction delivered as [|[f m] delivered IH]; intros rest c Hj Hfs Hids Hall.
  - exists c. cbn. by repeat split.
  - cbn [app fmap list_fmap map fst snd] in Hfs, Hids, Hall.
    apply NoDup_cons in Hfs as [Hf Hfs]. apply NoDup_cons in Hids as [Hi Hids].
    apply Forall_cons in Hall as [(i & p & Hid & Hmeth & Hcall) Hall].
    cbn [fst snd] in *.
    pose proof (receive_response c i p f m Hj Hcall Hid Hmeth) as Hrecv.
    set (c1 := set_promises _ _) in Hrecv.
    assert (Hj1 : jobs c1 = []) by (unfold c1; by fields).
    assert (Hall1 : Forall (answers c1) (delivered ++ rest)).
    { apply Forall_forall. intros [f' m'] Hin.
      rewrite Forall_forall in Hall.
      destruct (Hall _ Hin) as (i' & p' & Hid' & Hmeth' & Hmap' & Hp' & Hf').
      cbn [fst snd] in *.
      assert (i' <> i).
      { intros ->. apply Hi. rewrite Hid, <- Hid'.
        apply (list_elem_of_fmap_2 (fun fm => m_id fm.2) _ _ Hin). }
      assert (f' <> f).
      { intros ->. apply Hf.
        apply (list_elem_of_fmap_2 fst _ _ Hin). }
      destruct Hcall as (Hmap & Hp & Hf0).
      assert (p' <> p) by (intros ->; congruence).
      assert (p' <> f) by (intros ->; congruence).
      assert (f' <> p) by (intros ->; congruence).
      exists i', p'. split; [done|split; [done|]].
      unfold c1, pending_call. fields.
      split; [|split].
      - destruct (settlement_of m); [by rewrite lookup_delete_ne|done].
      - by rewrite !lookup_insert_ne.
      - by rewrite !lookup_insert_ne. }
    destruct (IH rest c1 Hj1 Hfs Hids Hall1)
      as (c' & Hrun & Hj' & Hdone & Hrest & Hdom).
    exists c'. cbn [fmap list_fmap snd receive_all]. rewrite Hrecv.
    split; [exact Hrun|]. split; [done|]. split; [|split; [done|]].
    + constructor; [|done]. cbn [fst snd].
      eapply receive_all_stable; [exact Hrun|].
      unfold c1. fields. apply lookup_insert_eq.
    + intros j Hnone. apply Hdom. unfold c1. fields.
      destruct (settlement_of m); [|done].
      destruct (decide (i = j)) as [->|]; [apply lookup_delete_eq|].
      by rewrite lookup_delete_ne.
Qed.

(** What a series of requests leaves: each request waits under its own id,
    the promises returned are new and distinct, and the entries of other
    ids are as before. *)
Lemma issue_spec reqs : forall c futures cN,
  issue reqs c = (futures, cN) ->
  jobs cN = jobs c
  /\ length futures = length reqs
  /\ (forall x v, promises c !! x = Some v -> promises cN !! x = Some v)
  /\ (forall f, f ∈ futures -> promises c !! f = None)
  /\ NoDup futures
  /\ (forall k f, futures !! k = Some f ->
                  exists p, pending_call cN (IdNum (id c + Z.of_nat k)) p f)
  /\ (forall j, (forall k, (k < length reqs)%nat -> j <> IdNum (id c + Z.of_nat k)) ->
                outboundRequests cN !! j = outboundRequests c !! j).
Proof.
  induction reqs as [|[m ps] reqs IH]; intros c futures cN; cbn [issue].
  - intros [= <- <-].
    split; [done|]. split; [done|]. split; [done|].
    split; [intros f Hf; by apply elem_of_nil in Hf|].
    split; [constructor|]. split; [|done].
    intros k f Hk. by rewrite lookup_nil in Hk.
  - destruct (request m ps c) as [f c1] eqn:Hreq.
    destruct (issue reqs c1) as [fs c2] eqn:Hiss.
    intros [= <- <-].
    destruct (request_pending _ _ _ _ _ Hreq)
      as (p & (Hmap & Hp & Hf) & Hid1 & Hj1 & Hnew & Hold & Hother).
    destruct (IH _ _ _ Hiss) as (Hj2 & Hlen & Hold2 & Hnew2 & Hnd & Hcalls & Hother2).
    split; [congruence|]. split; [cbn; congruence|].
    split; [intros x v Hx; by apply Hold2, Hold|].
    split.
    { intros f' [->|Hin]%elem_of_cons; [done|].
      specialize (Hnew2 _ Hin).
      destruct (promises c !! f') eqn:Hc; [|done].
      apply Hold in Hc. congruence. }
    split.
    { constructor; [|done]. intros Hin. apply Hnew2 in Hin. congruence. }
    split.
    { intros [|k] f'; cbn [lookup list_lookup].
      - intros [= <-]. exists p. rewrite Z.add_0_r.
        split; [|split; by apply Hold2].
        rewrite Hother2; [done|]. intros k _. rewrite Hid1. intros [=]. lia.
      - intros Hk. destruct (Hcalls _ _ Hk) as (p' & Hcall). exists p'.
        rewrite Hid1 in Hcall.
        by replace (id c + Z.of_nat (S k)) with (id c + 1 + Z.of_nat k) by lia. }
    intros j Hj. rewrite Hother2, Hother; [done| |].
    + specialize (Hj 0%nat). rewrite Z.add_0_r in Hj. apply Hj. cbn; lia.
    + intros k Hk. rewrite Hid1.
      replace (id c + 1 + Z.of_nat k) with (id c + Z.of_nat (S k)) by lia.
      apply Hj. cbn; lia.
Qed.

Lemma ids_of_responses (g : nat -> JsonRpcId) ks msgs :
  Forall2 (fun k m => m_id m = Some (g k) /\ m_method m = None) ks msgs ->
  map m_id msgs = map (fun k => Some (g k)) ks.
Proof.
  induction 1 as [|k m ks msgs [Hid _] _ IH]; [done|].
  cbn [map]. by rewrite Hid, IH.
Qed.

Lemma zip_ids (futures : list nat) msgs :
  length futures = length msgs ->
  map (fun fm : nat * JsonRpcMessage => m_id fm.2) (zip futures msgs)
  = map m_id msgs.
Proof.
  revert msgs. induction futures as [|f futures IH]; intros [|m msgs] Hl;
    try done.
  cbn. f_equal. apply IH. by injection Hl.
Qed.

(** C2.  Requests issued one after the other and all waiting, each response
    carrying the id of its request: in whatever order the responses are
    delivered, and after any number of them, the promise of every request
    whose response was delivered is settled with this very response
    (rejected with its error when it carries one, resolved with its result
    otherwise), and the promise of every other request is still pending;
    so each promise is settled once, by its own response.  A response whose
    id was never issued changes neither a promise nor the map of pending
    requests. *)
Theorem responses_in_any_order (c0 : LspClient)
    (reqs : list (JSString * option params)) (futures : list nat)
    (cN : LspClient) (msgs : list JsonRpcMessage) :
  jobs c0 = [] ->
  issue reqs c0 = (futures, cN) ->
  Forall2 (fun k m => m_id m = Some (IdNum (id c0 + Z.of_nat k))
                      /\ m_method m = None)
    (seq 0 (length reqs)) msgs ->
  forall delivered rest,
    Permutation (delivered ++ rest) (zip futures msgs) ->
    exists c',
      receive_all (delivered.*2) cN = Some c'
      /\ Forall (fun fm => promises c' !! fm.1
                           = Some (Settled (settlement_of fm.2))) delivered
      /\ Forall (fun fm => promises c' !! fm.1 = Some (Pending [])) rest
      /\ forall stray i,
           m_id stray = Some i -> m_method stray = None ->
           outboundRequests c0 !! i = None ->
           (forall k, (k < length reqs)%nat -> i <> IdNum (id c0 + Z.of_nat k)) ->
           exists c'',
             receive stray c' = Some c''
             /\ promises c'' = promises c'
             /\ outboundRequests c'' = outboundRequests c'.
Proof.
  intros Hj Hissue Hmsgs delivered rest Hperm.
  destruct (issue_spec _ _ _ _ Hissue)
    as (HjN & Hlen & _ & _ & Hnd & Hcalls & Hother).
  assert (Hlen' : length msgs = length reqs).
  { apply Forall2_length in Hmsgs. by rewrite length_seq in Hmsgs. }
  assert (Hall : Forall (answers cN) (delivered ++ rest)).
  { rewrite Hperm. apply Forall_forall. intros [f m] Hin.
    apply list_elem_of_lookup in Hin as [k Hk].
    apply lookup_zip_with_Some in Hk as (f' & m' & [= <- <-] & Hf & Hm).
    destruct (Hcalls _ _ Hf) as [p Hcall].
    assert (Hk : seq 0 (length reqs) !! k = Some k).
    { apply lookup_seq. split; [done|].
      apply lookup_lt_Some in Hm. lia. }
    destruct (Forall2_lookup_lr _ _ _ _ _ _ Hmsgs Hk Hm) as [Hid Hmeth].
    by exists (IdNum (id c0 + Z.of_nat k)), p. }
  assert (Hfs : NoDup ((delivered ++ rest).*1)).
  { rewrite Hperm, fst_zip by lia. done. }
  assert (Hids : NoDup (map (fun fm => m_id fm.2) (delivered ++ rest))).
  { rewrite Hperm.
    rewrite zip_ids by lia.
    rewrite (ids_of_responses (fun k => IdNum (id c0 + Z.of_nat k)) _ _ Hmsgs).
    assert (Hinj : Inj eq eq (fun k => Some (IdNum (id c0 + Z.of_nat k)))).
    { intros a b [=]. lia. }
    apply (NoDup_fmap_2 _), NoDup_seq. }
  destruct (deliver_pending delivered rest cN) as
    (c' & Hrun & Hj' & Hdone & Hrest & Hdom); [congruence|done|done|done|].
  exists c'. split; [done|]. split; [done|]. split.
  - eapply Forall_impl; [exact Hrest|].
    intros fm (i & p & _ & _ & _ & _ & Hf). exact Hf.
  - intros stray i Hid Hmeth Hnone Hnew.
    rewrite (receive_stray c' i stray) by
      (try done; apply Hdom; rewrite Hother by done; done).
    eexists; split; [reflexivity|]. by destruct c'.
Qed.

Lemma responses_in_any_order_witness :
  let c0 := new_LspClient (lit "file:///") [] in
  let reqs := [(lit "textDocument/hover", None);
               (lit "textDocument/completion", None)] in
  let m0 := {| m_id := Some (IdNum 0); m_method := None; m_params := None;
               m_result := Some (JString (lit "doc")); m_error := None |} in
  let m1 := {| m_id := Some (IdNum 1); m_method := None; m_params := None;
               m_result := None;
               m_error := Some (JObject [(lit "code", JNumber (lit "-32601"))]) |} in
  let stray := {| m_id := Some (IdNum 7); m_method := None; m_params := None;
                  m_result := Some JNull; m_error := None |} in
  exists c',
    receive_all [m1; m0] (issue reqs c0).2 = Some c'
    /\ promises c' !! 0%nat = Some (Settled (Fulfilled (Some (JString (lit "doc")))))
    /\ promises c' !! 2%nat
       = Some (Settled (Rejected
                          (Some (JObject [(lit "code", JNumber (lit "-32601"))]))))
    /\ exists c'', receive stray c' = Some c'' /\ promises c'' = promises c'.
Proof.
  intros c0 reqs m0 m1 stray.
  destruct (responses_in_any_order c0 reqs (issue reqs c0).1 (issue reqs c0).2
              [m0; m1] eq_refl (surjective_pairing _)
              ltac:(repeat constructor)
              [(2%nat, m1); (0%nat, m0)] [])
    as (c' & Hrun & Hdone & _ & Hstray).
  - vm_compute. apply perm_swap.
  - exists c'. split; [exact Hrun|].
    apply Forall_cons in Hdone as [H1 Hdone].
    apply Forall_cons in Hdone as [H0 _].
    split; [exact H0|]. split; [exact H1|].
    destruct (Hstray stray (IdNum 7) eq_refl eq_refl (lookup_empty _))
      as (c'' & Hrecv & Hprom & _).
    + intros k Hk [= Heq]. cbn in Hk, Heq. lia.
    + exists c''. split; [exact Hrecv|exact Hprom].
Defined.

(** C4 on the code: the entry of a request whose response carries a result
    is removed once the response is handled, and the entry of a request
    whose response carries an error stays in the map. *)
Theorem error_response_keeps_entry :
  let c0 := new_LspClient (lit "file:///") [] in
  let c1 := (request (lit "textDocument/hover") None c0).2 in
  let ok := {| m_id := Some (IdNum 0); m_method := None; m_params := None;
               m_result := Some JNull; m_error := None |} in
  let failed := {| m_id := Some (IdNum 0); m_method := None; m_params := None;
                   m_result := None;
                   m_error := Some (JObject [(lit "code", JNumber (lit "-32601"))]) |} in
  is_Some (outboundRequests c1 !! IdNum 0)
  /\ (exists c2, receive ok c1 = Some c2
                 /\ outboundRequests c2 !! IdNum 0 = None)
  /\ (exists c2, receive failed c1 = Some c2
                 /\ outboundRequests c2 !! IdNum 0 = Some {| or_promise := 1 |}
                 /\ jobs c2 = []).
Proof.
  intros c0 c1 ok failed. split; [|split].
  - vm_compute. eauto.
  - eexists. split; [vm_compute; reflexivity|]. vm_compute. reflexivity.
  - eexists. split; [vm_compute; reflexivity|]. vm_compute. split; reflexivity.
Qed.

(** In general: the response to a request that waits removes the entry of
    the request exactly when it carries no error. *)
Lemma response_entry c i p f msg c' :
  jobs c = [] -> pending_call c i p f ->
  m_id msg = Some i -> m_method msg = None ->
  receive msg c = Some c' ->
  outboundRequests c' !! i
  = if truthy (m_error msg) then Some {| or_promise := p |} else None.
Proof.
  intros Hj Hcall Hid Hmeth. rewrite (receive_response c i p f) by done.
  intros [= <-]. destruct Hcall as (Hmap & _). unfold settlement_of.
  destruct c; cbn in *. destruct (truthy (m_error msg)); [done|].
  apply lookup_delete_eq.
Qed.

(** *** The microtask queue runs out *)

Lemma waiting_pending h p rs :
  h !! p = Some (Pending rs) ->
  map_fold (fun (_ : nat) q n =>
              match q with Pending rs => (length rs + n)%nat | Settled _ => n end)
    0%nat h
  = (length rs
     + map_fold (fun (_ : nat) q n =>
                   match q with Pending rs => (length rs + n)%nat | Settled _ => n end)
         0%nat (delete p h))%nat.
Proof.
  intros Hp.
  rewrite (map_fold_delete_L _ _ p (Pending rs) h); [done| |done].
  intros j1 j2 z1 z2 y _ _ _. destruct z1, z2; lia.
Qed.

Lemma waiting_settle c p rs s :
  promises c !! p = Some (Pending rs) ->
  (waiting (set_promises (<[p := Settled s]> (promises c)) c) + length rs
   = waiting c)%nat.
Proof.
  intros Hp. unfold waiting. cbn [promises set_promises].
  rewrite (waiting_pending _ _ _ Hp).
  rewrite <- insert_delete_eq.
  rewrite map_fold_insert_L; [lia| |apply lookup_delete_eq].
  intros j1 j2 z1 z2 y _ _ _. destruct z1, z2; lia.
Qed.

Lemma settle_measure p s c :
  (length (jobs (settle p s c)) + waiting (settle p s c)
   = length (jobs c) + waiting c)%nat.
Proof.
  unfold settle. destruct (promises c !! p) as [[rs|]|] eqn:Hp; try done.
  cbn [jobs set_jobs]. rewrite length_app, length_map.
  pose proof (waiting_settle c p rs s Hp) as Hw.
  unfold waiting in *. cbn [promises set_jobs set_promises] in *. lia.
Qed.

Lemma run_job_measure j c :
  (length (jobs (run_job j c)) + waiting (run_job j c)
   <= length (jobs c) + waiting c)%nat.
Proof.
  destruct j as [[i outer|outer|r text] [v|e]]; cbn [run_job];
    rewrite ?settle_measure; try done.
  - destruct v as [[]|]; rewrite settle_measure; done.
  - unfold send_open. by destruct (views c !! r).
Qed.

Lemma run_jobs_enough fuel : forall c,
  (length (jobs c) + waiting c <= fuel)%nat -> is_Some (run_jobs fuel c).
Proof.
  induction fuel as [|fuel IH]; intros c Hfuel; cbn [run_jobs];
    destruct (jobs c) as [|j js] eqn:Hj; try by eauto.
  - cbn in Hfuel. lia.
  - apply IH.
    pose proof (run_job_measure j (set_jobs js c)) as Hm.
    change (waiting (set_jobs js c)) with (waiting c) in Hm.
    cbn [jobs set_jobs length] in Hm, Hfuel. lia.
Qed.

(** The handling of a message always ends. *)
Lemma receive_total msg c : is_Some (receive msg c).
Proof. unfold receive. by apply run_jobs_enough. Qed.

(** The handshake: the response to [initialize] opens the client, which
    records the capabilities and sends [initialized]. *)
Example initialize_opens :
  let c0 := new_LspClient (lit "file:///") [] in
  let c1 := (initialize c0).2 in
  let response := {| m_id := Some (IdNum 0); m_method := None; m_params := None;
                     m_result := Some (JObject [(lit "capabilities", JObject [])]);
                     m_error := None |} in
  isOpen c1 = false
  /\ exists c2, receive response c1 = Some c2
                /\ isOpen c2 = true
                /\ capabilities c2 = Some (JObject [])
                /\ m_method <$> last (outbox c2) = Some (Some (lit "initialized"))
                /\ initializePromise c2 = None
                /\ jobs c2 = [].
Proof.
  intros c0 c1 response. split; [vm_compute; reflexivity|].
  eexists. split; [vm_compute; reflexivity|].
  vm_compute. by repeat split.
Qed.

(** *** Ids never issued *)

Lemma settle_map p s c :
  outboundRequests (settle p s c) = outboundRequests c
  /\ id (settle p s c) = id c.
Proof. unfold settle. by destruct (promises c !! p) as [[]|]. Qed.

Lemma send_open_map r text c :
  outboundRequests (send_open r text c) = outboundRequests c
  /\ id (send_open r text c) = id c.
Proof. unfold send_open. by destruct (views c !! r). Qed.

Lemma run_job_keys j c :
  id (run_job j c) = id c
  /\ forall i, is_Some (outboundRequests (run_job j c) !! i) ->
               is_Some (outboundRequests c !! i).
Proof.
  destruct j as [[i0 outer|outer|r text] [v|e]]; cbn [run_job].
  - destruct (settle_map outer (Fulfilled v)
                (set_outboundRequests (delete i0 (outboundRequests c)) c))
      as [-> ->].
    fields. split; [done|]. intros i.
    destruct (decide (i0 = i)) as [->|Hne].
    + rewrite lookup_delete_eq. by intros [? ?].
    + by rewrite lookup_delete_ne.
  - by destruct (settle_map outer (Rejected e) c) as [-> ->].
  - destruct v as [[]|];
      match goal with
      | |- context [settle ?p ?s ?c'] =>
          destruct (settle_map p s c') as [-> ->]
      end; by fields.
  - by destruct (settle_map outer (Rejected e) c) as [-> ->].
  - by destruct (send_open_map r text c) as [-> ->].
  - done.
Qed.

Lemma run_jobs_keys fuel : forall c c',
  run_jobs fuel c = Some c' ->
  id c' = id c
  /\ forall i, is_Some (outboundRequests c' !! i) ->
               is_Some (outboundRequests c !! i).
Proof.
  induction fuel as [|fuel IH]; intros c c'; cbn [run_jobs];
    destruct (jobs c) as [|j js] eqn:Hj.
  - by intros [= <-].
  - done.
  - by intros [= <-].
  - intros Hrun. destruct (IH _ _ Hrun) as [Hid Hkeys].
    destruct (run_job_keys j (set_jobs js c)) as [Hid1 Hkeys1].
    split; [by rewrite Hid, Hid1|].
    intros i Hi. by apply Hkeys1, Hkeys.
Qed.

Lemma handleMessage_keys msg c :
  id (handleMessage msg c) = id c
  /\ outboundRequests (handleMessage msg c) = outboundRequests c.
Proof.
  unfold handleMessage. fields.
  destruct (m_id msg) as [i|]; [|done].
  destruct (m_method msg); [done|].
  destruct (outboundRequests c !! i); [|done].
  destruct (truthy (m_error msg));
    match goal with
    | |- context [settle ?p ?s ?c'] => by destruct (settle_map p s c') as [-> ->]
    end.
Qed.

Lemma request_keys m ps c :
  keys_issued c -> keys_issued (request m ps c).2.
Proof.
  intros [Hid Hc]. rewrite request_spec. cbn [snd]. split; fields; [lia|].
  intros i. destruct (decide (IdNum (id c) = i)) as [<-|Hne].
  - intros _. exists (id c). split; [done|lia].
  - rewrite lookup_insert_ne by done. intros Hi.
    destruct (Hc i Hi) as (k & -> & Hk). exists k. split; [done|lia].
Qed.

Lemma receive_keys msg c c' :
  receive msg c = Some c' -> keys_issued c -> keys_issued c'.
Proof.
  unfold receive. intros Hrun [Hid Hc].
  destruct (run_jobs_keys _ _ _ Hrun) as [Hid' Hkeys].
  destruct (handleMessage_keys msg c) as [Hid1 Hmap1].
  rewrite Hid1 in Hid'. split; [by rewrite Hid'|].
  intros i Hi. apply Hkeys in Hi. rewrite Hmap1 in Hi.
  rewrite Hid'. by apply Hc.
Qed.

Lemma sendChange_keys r text c :
  outboundRequests (sendChange r text c) = outboundRequests c
  /\ id (sendChange r text c) = id c.
Proof.
  unfold sendChange. destruct (isOpen c); [|done].
  by destruct (views c !! r).
Qed.

Lemma new_LspPlugin_keys u l d c :
  outboundRequests (new_LspPlugin u l d c).2 = outboundRequests c
  /\ id (new_LspPlugin u l d c).2 = id c.
Proof.
  unfold new_LspPlugin, plugin_initialize, attachPlugin. cbn [snd]. fields.
  destruct (initializePromise c) as [p|].
  - unfold await. fields. by destruct (promises c !! p) as [[]|].
  - unfold send_open. fields. by rewrite lookup_insert_eq.
Qed.

(** ** The frame decoder *)

(** *** Frames in ASCII *)

Lemma utf8_run_ascii bs :
  is_ascii bs -> utf8_run utf8_init bs = chars bs.
Proof.
  induction 1 as [|b bs Hb _ IH]; [done|].
  cbn [utf8_run chars map]. unfold utf8_step, utf8_lead. cbn [u_needed utf8_init].
  rewrite N.eqb_refl.
  destruct (N.leb_spec (Byte.to_N b) 127) as [_|]; [|lia].
  cbn [app]. by rewrite IH.
Qed.

Lemma utf16_units_ascii cps :
  Forall (fun c => (c < 128)%N) cps -> concat (map utf16_units cps) = cps.
Proof.
  induction 1 as [|c cps Hc _ IH]; [done|].
  cbn [map concat]. rewrite IH. unfold utf16_units.
  by destruct (N.ltb_spec c 65536) as [_|]; [|lia].
Qed.

(** The text of bytes that are ASCII is these bytes. *)
Lemma decode_ascii bs : is_ascii bs -> TextDecoder_decode bs = chars bs.
Proof.
  intros Hbs. unfold TextDecoder_decode. rewrite utf8_run_ascii by done.
  assert (Hc : Forall (fun c => (c < 128)%N) (chars bs)).
  { unfold chars. apply Forall_fmap. exact Hbs. }
  destruct (chars bs) as [|c r] eqn:Hcs; [done|].
  apply Forall_cons in Hc as Hc'. destruct Hc' as [Hc0 _].
  destruct (N.eqb_spec c 65279) as [->|_]; [lia|].
  by apply utf16_units_ascii.
Qed.

Lemma js_prefix_app p s : js_prefix p (p ++ s) = true.
Proof. induction p as [|c p IH]; [done|]. cbn. by rewrite N.eqb_refl, IH. Qed.

Lemma js_prefix_length p s : js_prefix p s = true -> (length p <= length s)%nat.
Proof.
  revert s. induction p as [|c p IH]; intros s; [cbn; lia|].
  destruct s as [|d s]; cbn [js_prefix length]; [intros [=]|].
  intros [_ H]%andb_true_iff. apply IH in H. lia.
Qed.

Lemma indexOf_header pre rest i :
  Forall (fun c => c <> CR) pre ->
  indexOf_from i (pre ++ HEADER_END ++ rest) HEADER_END
  = i + Z.of_nat (length pre).
Proof.
  intros Hpre. revert i. induction Hpre as [|c pre Hc _ IH]; intros i.
  - cbn [app length]. change (HEADER_END ++ rest) with (CR :: LF :: CR :: LF :: rest).
    cbn. lia.
  - cbn [app length indexOf_from]. unfold HEADER_END at 1. cbn [js_prefix].
    destruct (N.eqb_spec CR c) as [Heq|_]; [by symmetry in Heq|]. cbn [andb].
    rewrite IH. lia.
Qed.

(** The ten digits. *)
Lemma digit_cases (c : N) :
  (48 <= c <= 57)%N ->
  (c = 48 \/ c = 49 \/ c = 50 \/ c = 51 \/ c = 52 \/ c = 53 \/ c = 54
   \/ c = 55 \/ c = 56 \/ c = 57)%N.
Proof. lia. Qed.

Lemma digit_byte_char k :
  (k < 10)%nat -> Byte.to_N (digit_byte k) = (48 + N.of_nat k)%N.
Proof.
  intros Hk. do 10 (destruct k as [|k]; [reflexivity|]). lia.
Qed.

Lemma digit_value_char k :
  (k < 10)%nat -> digit_value 10 (48 + N.of_nat k) = Some (Z.of_nat k).
Proof.
  intros Hk. do 10 (destruct k as [|k]; [reflexivity|]). lia.
Qed.

Lemma decimal_fuel_digits f : forall n,
  (n < f)%nat ->
  decimal_fuel f n <> []
  /\ Forall (fun b => (48 <= Byte.to_N b <= 57)%N) (decimal_fuel f n)
  /\ forall rest,
       digits_value 10 None (chars (decimal_fuel f n) ++ rest)
       = digits_value 10 (Some (Z.of_nat n)) rest.
Proof.
  induction f as [|f IH]; intros n Hn; [lia|].
  cbn [decimal_fuel].
  assert (Hk : (n mod 10 < 10)%nat) by (apply Nat.mod_upper_bound; lia).
  pose proof (digit_byte_char _ Hk) as Hchar.
  destruct (Nat.ltb_spec n 10) as [Hlt|Hge].
  - rewrite Nat.mod_small in * by done.
    split; [done|]. split.
    { constructor; [lia|constructor]. }
    intros rest. cbn [chars map app digits_value].
    rewrite Hchar, digit_value_char by done.
    apply (f_equal (fun a => digits_value 10 (Some a) rest)). lia.
  - assert (Hdiv : (n / 10 < f)%nat).
    { pose proof (Nat.div_lt n 10). lia. }
    destruct (IH _ Hdiv) as (Hne & Hdig & Hval).
    split; [by destruct (decimal_fuel f (n / 10))|].
    split.
    { apply Forall_app. split; [done|]. constructor; [lia|constructor]. }
    intros rest. unfold chars in *. rewrite map_app, <- app_assoc, Hval.
    cbn [map app digits_value].
    rewrite Hchar, digit_value_char by done.
    apply (f_equal (fun a => digits_value 10 (Some a) rest)).
    pose proof (Nat.div_mod_eq n 10). lia.
Qed.

Lemma decimal_digits n :
  decimal n <> []
  /\ Forall (fun b => (48 <= Byte.to_N b <= 57)%N) (decimal n)
  /\ forall rest,
       digits_value 10 None (chars (decimal n) ++ rest)
       = digits_value 10 (Some (Z.of_nat n)) rest.
Proof. apply decimal_fuel_digits. lia. Qed.

Lemma is_js_space_digit c : (48 <= c <= 57)%N -> is_js_space c = false.
Proof.
  intros H.
  destruct (digit_cases c H)
    as [-> | [-> | [-> | [-> | [-> | [-> | [-> | [-> | [-> | ->] ] ] ] ] ] ] ] ];
    reflexivity.
Qed.

(** What [parseInt] reads in a header: the decimal digits up to the
    carriage return. *)
Lemma parseInt_decimal n rest :
  parseInt (chars (decimal n) ++ CR :: rest) = Num (Z.of_nat n).
Proof.
  destruct (decimal_digits n) as (Hne & Hdig & Hval).
  specialize (Hval (CR :: rest)).
  destruct (decimal n) as [|d0 ds]; [done|].
  apply Forall_cons in Hdig as [H0 Hds].
  unfold parseInt.
  cbn [chars map app skip_space] in *.
  rewrite is_js_space_digit by done.
  destruct (N.eqb_spec (Byte.to_N d0) 45) as [|_]; [lia|].
  destruct (N.eqb_spec (Byte.to_N d0) 43) as [|_]; [lia|].
  destruct ds as [|d1 ds']; cbn [map app] in *.
  - destruct (Byte.to_N d0 =? 48)%N; cbn [andb orb N.eqb Pos.eqb CR];
      rewrite Hval; cbn; f_equal; lia.
  - apply Forall_cons in Hds as [H1 _].
    destruct (N.eqb_spec (Byte.to_N d1) 120) as [|_]; [lia|].
    destruct (N.eqb_spec (Byte.to_N d1) 88) as [|_]; [lia|].
    rewrite andb_false_r, Hval. cbn. f_equal. lia.
Qed.

Lemma chars_app a b : chars (a ++ b) = chars a ++ chars b.
Proof. apply map_app. Qed.

Lemma length_chars a : length (chars a) = length a.
Proof. apply length_map. Qed.

Lemma is_ascii_decimal n : is_ascii (decimal n).
Proof.
  destruct (decimal_digits n) as (_ & Hdig & _).
  eapply Forall_impl; [exact Hdig|]. cbn. intros; lia.
Qed.

Lemma is_ascii_header n : is_ascii (header n).
Proof.
  unfold header, is_ascii. rewrite !Forall_app. split; [|split].
  - vm_compute. repeat constructor.
  - apply is_ascii_decimal.
  - vm_compute. repeat constructor.
Qed.

Lemma chars_header n :
  chars (header n) = CONTENT_LENGTH ++ chars (decimal n) ++ HEADER_END.
Proof. unfold header. by rewrite !chars_app. Qed.

Lemma length_header n : length (header n) = (20 + length (decimal n))%nat.
Proof. unfold header. rewrite !length_app. cbn. lia. Qed.

(** One turn of the loop on a buffer that starts with a whole header: it
    waits when the body is not there yet, and otherwise cuts the body out
    and parses it. *)
Lemma frame_step_header n R :
  is_ascii R ->
  frame_step (header n ++ R)
  = if (length R <? n)%nat then FBreak
    else match JSON_parse (chars (take n R)) with
         | Some m => FEmit m (drop n R)
         | None => FThrow (drop n R)
         end.
Proof.
  intros HR. unfold frame_step.
  rewrite decode_ascii by (apply Forall_app; split; [apply is_ascii_header|done]).
  rewrite chars_app, chars_header, <- !app_assoc.
  unfold startsWith. rewrite js_prefix_app. cbn [negb].
  assert (Hcl : length CONTENT_LENGTH = 16%nat) by reflexivity.
  set (nd := length (decimal n)).
  assert (Hzlen : zlen (CONTENT_LENGTH ++ chars (decimal n) ++ HEADER_END ++ chars R)
                  = 20 + Z.of_nat nd + Z.of_nat (length R)).
  { unfold zlen. rewrite !length_app, !length_chars, Hcl. cbn. lia. }
  assert (Hslice : slice_from (CONTENT_LENGTH ++ chars (decimal n) ++ HEADER_END ++ chars R)
                     (Num (zlen CONTENT_LENGTH))
                   = chars (decimal n) ++ CR :: [LF; CR; LF] ++ chars R).
  { unfold slice_from. rewrite Hzlen. cbn [to_integer].
    unfold clamp_index, zlen. rewrite Hcl.
    destruct (Z.ltb_spec (Z.of_nat 16) 0); [lia|].
    rewrite Z.min_l by lia. rewrite Nat2Z.id, <- Hcl.
    by rewrite drop_app_length. }
  rewrite Hslice, parseInt_decimal.
  assert (Hidx : indexOf (CONTENT_LENGTH ++ chars (decimal n) ++ HEADER_END ++ chars R)
                   HEADER_END = 16 + Z.of_nat nd).
  { unfold indexOf. rewrite (app_assoc CONTENT_LENGTH).
    rewrite indexOf_header.
    - rewrite length_app, length_chars, Hcl. lia.
    - apply Forall_app. split; [vm_compute; repeat constructor; discriminate|].
      unfold chars. apply Forall_fmap.
      destruct (decimal_digits n) as (_ & Hdig & _).
      eapply Forall_impl; [exact Hdig|]. cbn. unfold CR. intros; lia. }
  rewrite Hidx. cbn [num_eq num_add num_lt].
  destruct (Z.eqb_spec (16 + Z.of_nat nd + 4) (-1)); [lia|].
  assert (Hzb : zlen (header n ++ R) = 20 + Z.of_nat nd + Z.of_nat (length R)).
  { unfold zlen. rewrite length_app, length_header. fold nd. lia. }
  rewrite Hzb.
  destruct (Nat.ltb_spec (length R) n) as [Hlt|Hge].
  - destruct (Z.ltb_spec (20 + Z.of_nat nd + Z.of_nat (length R))
                (16 + Z.of_nat nd + 4 + Z.of_nat n)); [done|lia].
  - destruct (Z.ltb_spec (20 + Z.of_nat nd + Z.of_nat (length R))
                (16 + Z.of_nat nd + 4 + Z.of_nat n)); [lia|].
    assert (Hsplice : splice0 (header n ++ R) (Num (16 + Z.of_nat nd + 4 + Z.of_nat n))
                      = drop n R).
    { unfold splice0. cbn [to_integer]. rewrite Hzb.
      rewrite Z.max_l, Z.min_l by lia.
      replace (Z.to_nat (16 + Z.of_nat nd + 4 + Z.of_nat n))
        with (length (header n) + n)%nat by (rewrite length_header; fold nd; lia).
      by rewrite drop_app_add. }
    assert (Hbody : slice (CONTENT_LENGTH ++ chars (decimal n) ++ HEADER_END ++ chars R)
                      (Num (16 + Z.of_nat nd + 4))
                      (Num (16 + Z.of_nat nd + 4 + Z.of_nat n))
                    = chars (take n R)).
    { unfold slice. cbn [to_integer]. rewrite Hzlen. unfold clamp_index.
      destruct (Z.ltb_spec (16 + Z.of_nat nd + 4) 0); [lia|].
      destruct (Z.ltb_spec (16 + Z.of_nat nd + 4 + Z.of_nat n) 0); [lia|].
      rewrite !Z.min_l by lia.
      replace (Z.to_nat (16 + Z.of_nat nd + 4 + Z.of_nat n - (16 + Z.of_nat nd + 4)))
        with n by lia.
      rewrite !app_assoc.
      replace (Z.to_nat (16 + Z.of_nat nd + 4))
        with (length ((CONTENT_LENGTH ++ chars (decimal n)) ++ HEADER_END)).
      2:{ rewrite !length_app, length_chars, Hcl. fold nd. cbn. lia. }
      rewrite drop_app_length. unfold chars. by rewrite <- fmap_take. }
    rewrite Hsplice, Hbody. done.
Qed.

(** A buffer shorter than [Content-Length: ] waits. *)
Lemma frame_step_short P :
  is_ascii P -> (length P < 16)%nat -> frame_step P = FBreak.
Proof.
  intros HP Hlen. unfold frame_step. rewrite decode_ascii by done.
  destruct (startsWith (chars P) CONTENT_LENGTH) eqn:Hs; [|done].
  apply js_prefix_length in Hs. rewrite length_chars in Hs.
  change (length CONTENT_LENGTH) with 16%nat in Hs. lia.
Qed.

(** The loop stops by itself: with more fuel than the buffer has bytes it
    never runs out, since every turn that goes on has shortened the
    buffer. *)
Lemma frame_loop_fuel fuel : forall buffer,
  (length buffer < fuel)%nat -> (frame_loop fuel buffer).2 <> OutOfFuel.
Proof.
  induction fuel as [|fuel IH]; intros buffer Hlen; [lia|].
  cbn [frame_loop]. destruct (frame_step buffer) as [|b'|m b']; try done.
  destruct (Nat.ltb_spec (length b') (length buffer)) as [Hlt|_]; [|done].
  specialize (IH b' ltac:(lia)).
  by destruct (frame_loop fuel b') as [[ms b] e].
Qed.

Lemma frame_step_frame body m tail :
  is_ascii body -> is_ascii tail -> JSON_parse (chars body) = Some m ->
  frame_step (encode body ++ tail) = FEmit m tail.
Proof.
  intros Hb Ht Hm. unfold encode. rewrite <- app_assoc.
  rewrite frame_step_header by (by apply Forall_app).
  destruct (Nat.ltb_spec (length (body ++ tail)) (length body)) as [Hlt|_].
  { rewrite length_app in Hlt. lia. }
  by rewrite take_app_length, drop_app_length, Hm.
Qed.

Lemma frame_step_partial body k :
  is_ascii body -> (k < length body)%nat ->
  frame_step (header (length body) ++ take k body) = FBreak.
Proof.
  intros Hb Hk. rewrite frame_step_header by (by apply Forall_take).
  destruct (Nat.ltb_spec (length (take k body)) (length body)) as [_|Hge]; [done|].
  rewrite length_take in Hge. lia.
Qed.

Lemma stream_cons fm frames : stream (fm :: frames) = encode fm.1 ++ stream frames.
Proof. reflexivity. Qed.

Lemma stream_app a b : stream (a ++ b) = stream a ++ stream b.
Proof. unfold stream. by rewrite map_app, concat_app. Qed.

Lemma is_ascii_stream frames :
  Forall well_formed frames -> is_ascii (stream frames).
Proof.
  induction 1 as [|fm frames [Ha _] _ IH]; [constructor|].
  rewrite stream_cons. unfold encode.
  apply Forall_app. split; [|done].
  apply Forall_app. split; [apply is_ascii_header|done].
Qed.

Lemma length_encode body : (20 <= length (encode body))%nat.
Proof. unfold encode. rewrite length_app, length_header. lia. Qed.

Lemma length_stream frames : (length frames <= length (stream frames))%nat.
Proof.
  induction frames as [|fm frames IH]; [done|].
  rewrite stream_cons, length_app. pose proof (length_encode fm.1). cbn. lia.
Qed.

(** The loop on whole frames followed by bytes that wait: every frame is
    posted, in order, and the bytes that wait stay. *)
Lemma frame_loop_frames frames : forall P fuel,
  Forall well_formed frames -> is_ascii P -> frame_step P = FBreak ->
  (length frames < fuel)%nat ->
  frame_loop fuel (stream frames ++ P) = (map snd frames, P, Broke).
Proof.
  induction frames as [|[body m] frames IH]; intros P fuel Hwf HP Hq Hfuel;
    (destruct fuel as [|fuel]; [cbn in Hfuel; lia|]); cbn [frame_loop].
  - cbn [stream map concat app]. by rewrite Hq.
  - apply Forall_cons in Hwf as [[Hb Hm] Hwf]. cbn [fst snd] in *.
    rewrite stream_cons, <- app_assoc. cbn [fst].
    rewrite (frame_step_frame body m); [|done| |done].
    2:{ apply Forall_app. split; [by apply is_ascii_stream|done]. }
    destruct (Nat.ltb_spec (length (stream frames ++ P))
                (length (encode body ++ stream frames ++ P))) as [_|Hge].
    + rewrite IH; [done|done|done|done|cbn in Hfuel; lia].
    + rewrite (length_app (encode body)) in Hge.
      pose proof (length_encode body). lia.
Qed.

Lemma view_slice_all chunk :
  view_slice chunk 0 (N.of_nat (length chunk)) = chunk.
Proof.
  unfold view_slice. cbn [N.to_nat drop]. rewrite Nat2N.id.
  by rewrite take_ge.
Qed.

(** A delivery to [stdout]: the bytes join the buffer and the loop runs. *)
Lemma deliver_bytes_stdout B chunk ms b :
  frame_loop (S (length (B ++ chunk))) (B ++ chunk) = (ms, b, Broke) ->
  deliver_bytes {| kind := stdout; buffer := B |} chunk
  = ({| kind := stdout; buffer := b |}, map PostMessage ms,
     Return {| w_ret := 0; nwritten := N.of_nat (length chunk) |}).
Proof.
  intros Hloop. unfold deliver_bytes, fd_write. cbn [fd_write_from].
  unfold write_iovec. cbn [kind buffer buf buf_len].
  rewrite view_slice_all, Hloop. cbn [fd_write_from]. by rewrite app_nil_r.
Qed.

Lemma app_prefix_split {A} (S E rest T : list A) :
  S ++ rest = E ++ T -> (length E <= length S)%nat ->
  exists S', S = E ++ S' /\ S' ++ rest = T.
Proof.
  intros Heq Hlen. exists (drop (length E) S). split.
  - rewrite <- (take_drop (length E) S) at 1. f_equal.
    apply (f_equal (take (length E))) in Heq.
    rewrite take_app_le, take_app_length in Heq by done. done.
  - apply (f_equal (drop (length E))) in Heq.
    rewrite drop_app_le, drop_app_length in Heq by done. done.
Qed.

(** A prefix of a stream is a number of whole frames and a part of the
    next one. *)
Lemma split_stream frames : forall S rest,
  S ++ rest = stream frames ->
  exists j Q,
    S = stream (take j frames) ++ Q
    /\ Q ++ rest = stream (drop j frames)
    /\ match frames !! j with
       | Some fm => (length Q < length (encode fm.1))%nat
       | None => Q = []
       end.
Proof.
  induction frames as [|fm frames IH]; intros S rest Heq.
  - exists 0%nat, []. cbn in *. apply app_eq_nil in Heq as [-> ->]. done.
  - rewrite stream_cons in Heq.
    destruct (Nat.lt_ge_cases (length S) (length (encode fm.1))) as [Hlt|Hge].
    + exists 0%nat, S. cbn [take drop lookup list_lookup]. done.
    + destruct (app_prefix_split _ _ _ _ Heq Hge) as (S' & -> & Heq').
      destruct (IH _ _ Heq') as (j & Q & -> & Hrest & Hj).
      exists (S j), Q. cbn [take drop lookup list_lookup].
      rewrite stream_cons, <- app_assoc. done.
Qed.

Lemma take_add {A} (l : list A) j k :
  take (j + k) l = take j l ++ take k (drop j l).
Proof.
  revert l. induction j as [|j IH]; intros [|x l]; cbn; try done.
  - by rewrite take_nil.
  - by rewrite IH.
Qed.

(** The part of a frame that has arrived waits, unless the cut is inside
    the header after [Content-Length: ]. *)
Lemma partial_frame_waits fm Q tail :
  well_formed fm ->
  Q ++ tail = encode fm.1 ->
  tail <> [] ->
  ((16 <= length Q)%nat ->
   forall r, header (length fm.1) = Q ++ r -> r = []) ->
  frame_step Q = FBreak.
Proof.
  intros [Hb Hm] Heq Htail Hsafe.
  assert (HQ : is_ascii Q).
  { assert (Hall : is_ascii (encode fm.1)).
    { unfold encode. apply Forall_app. split; [apply is_ascii_header|done]. }
    rewrite <- Heq in Hall. by apply Forall_app in Hall as [? _]. }
  destruct (Nat.lt_ge_cases (length Q) 16) as [Hshort|Hlong].
  { by apply frame_step_short. }
  unfold encode in Heq.
  destruct (Nat.lt_ge_cases (length Q) (length (header (length fm.1))))
    as [Hin|Hout].
  - exfalso.
    assert (Hh : header (length fm.1)
                 = Q ++ drop (length Q) (header (length fm.1))).
    { rewrite <- (take_drop (length Q) (header (length fm.1))) at 1. f_equal.
      apply (f_equal (take (length Q))) in Heq.
      rewrite take_app_length, take_app_le in Heq by lia. done. }
    specialize (Hsafe Hlong _ Hh).
    assert (Hz : length (drop (length Q) (header (length fm.1))) = 0%nat)
      by (by rewrite Hsafe).
    rewrite length_drop in Hz. lia.
  - destruct (app_prefix_split _ _ _ _ Heq Hout) as (Q' & -> & Hbody).
    assert (HQ' : Q' = take (length Q') fm.1).
    { rewrite <- Hbody. by rewrite take_app_length. }
    rewrite HQ'. apply frame_step_partial; [done|].
    rewrite <- Hbody, length_app.
    destruct tail; [done|]. cbn. lia.
Qed.

(** Deliveries that go on from bytes that wait. *)
Lemma deliver_frames chunks : forall P frames,
  Forall well_formed frames ->
  P ++ concat chunks = stream frames ->
  match frames !! 0%nat with
  | Some fm => (length P < length (encode fm.1))%nat
  | None => P = []
  end ->
  (forall t, (0 < t <= length chunks)%nat ->
             ~ cut_inside_header frames (P ++ concat (take t chunks))) ->
  deliver_all {| kind := stdout; buffer := P |} chunks
  = ({| kind := stdout; buffer := [] |},
     map (fun fm => PostMessage fm.2) frames, Return tt).
Proof.
  induction chunks as [|c chunks IH]; intros P frames Hwf Heq Hhead Hsafe.
  - cbn [concat] in Heq. rewrite app_nil_r in Heq. subst P.
    destruct frames as [|fm frames]; cbn [lookup list_lookup] in Hhead.
    + cbn. done.
    + rewrite stream_cons, length_app in Hhead. lia.
  - cbn [concat] in Heq. rewrite app_assoc in Heq.
    destruct (split_stream _ _ _ Heq) as (j & Q & HPc & HQ & Hj).
    assert (Hwfd : Forall well_formed (drop j frames)) by (by apply Forall_drop).
    assert (HQa : is_ascii Q).
    { pose proof (is_ascii_stream _ Hwfd) as Ha. rewrite <- HQ in Ha.
      by apply Forall_app in Ha as [? _]. }
    assert (Hquiet : frame_step Q = FBreak).
    { destruct (frames !! j) as [fm|] eqn:Hfm.
      - assert (Hd : drop j frames = fm :: drop (S j) frames)
          by (by apply drop_S).
        rewrite Hd, stream_cons in HQ.
        assert (Hfmwf : well_formed fm).
        { rewrite Forall_forall in Hwf. apply Hwf.
          by eapply list_elem_of_lookup_2. }
        assert (Hsplit : Q ++ drop (length Q) (encode fm.1) = encode fm.1).
        { rewrite <- (take_drop (length Q) (encode fm.1)) at 2. f_equal.
          apply (f_equal (take (length Q))) in HQ.
          rewrite take_app_length, take_app_le in HQ by lia. done. }
        apply (partial_frame_waits fm Q _ Hfmwf Hsplit).
        + intros Hnil.
          assert (Hz : length (drop (length Q) (encode fm.1)) = 0%nat)
            by (by rewrite Hnil).
          rewrite length_drop in Hz. lia.
        + intros Hlong r Hr.
          destruct r as [|x r]; [done|]. exfalso.
          apply (Hsafe 1%nat); [cbn; lia|].
          exists j, Q, (x :: r), fm.
          cbn [take concat]. rewrite app_nil_r.
          by repeat split.
      - subst Q. apply frame_step_short; [done|cbn; lia]. }
    cbn [deliver_all].
    rewrite (deliver_bytes_stdout P c (map snd (take j frames)) Q).
    2:{ rewrite HPc. apply frame_loop_frames; [by apply Forall_take|done|done|].
        rewrite <- HPc. pose proof (length_stream (take j frames)) as Hl.
        rewrite HPc, length_app. lia. }
    rewrite (IH Q (drop j frames)); [| done | done | | ].
    + f_equal. f_equal.
      rewrite <- (take_drop j frames) at 3.
      rewrite map_app, map_map. done.
    + rewrite lookup_drop, Nat.add_0_r. exact Hj.
    + intros t Ht (j' & q & r & fm & Hcut & Hfm & Hh & Hr & Hlong).
      apply (Hsafe (S t)); [cbn; lia|].
      exists (j + j')%nat, q, r, fm.
      rewrite lookup_drop in Hfm.
      split; [|by repeat split].
      cbn [take concat]. rewrite (app_assoc P c), HPc, <- app_assoc, Hcut.
      rewrite take_add, stream_app, <- app_assoc. done.
Qed.

(** X1.  Frames reassembled.  Well-formed frames in ASCII, written to [stdout]
    in pieces however cut, as long as no piece ends inside a header after
    its first 16 bytes: every message is posted, once, in the order of the
    frames, and nothing stays in the buffer. *)
Theorem frames_reassembled (frames : list (list byte * json))
    (chunks : list (list byte)) :
  Forall well_formed frames ->
  concat chunks = stream frames ->
  (forall t, ~ cut_inside_header frames (concat (take t chunks))) ->
  deliver_all (new_Stdio stdout) chunks
  = ({| kind := stdout; buffer := [] |},
     map (fun fm => PostMessage fm.2) frames, Return tt).
Proof.
  intros Hwf Heq Hsafe. apply deliver_frames; [done|done| |].
  - destruct frames as [|fm frames]; cbn [lookup list_lookup]; [done|].
    pose proof (length_encode fm.1). cbn [length]. lia.
  - intros t _. apply Hsafe.
Qed.

(** Two frames, cut in the middle of [Content-Length: ] of the first. *)
Example frames_reassembled_example :
  let body := json_bytes "{'jsonrpc':2}" in
  let message := JObject [(lit "jsonrpc", JNumber (lit "2"))] in
  let bytes := encode body ++ encode body in
  deliver_all (new_Stdio stdout) [take 11 bytes; drop 11 bytes]
  = ({| kind := stdout; buffer := [] |},
     [PostMessage message; PostMessage message], Return tt).
Proof.
  intros body message bytes.
  apply (frames_reassembled [(body, message); (body, message)]
           [take 11 bytes; drop 11 bytes]).
  - assert (Hwf : well_formed (body, message)).
    { split; [|vm_compute; reflexivity].
      apply Forall_forall. intros b Hb. cbn [fst] in Hb.
      vm_compute in Hb. repeat (apply elem_of_cons in Hb as [->|Hb]; [done|]).
      by apply elem_of_nil in Hb. }
    by repeat constructor.
  - vm_compute. reflexivity.
  - intros t (j & q & rest & fm & Hcut & Hfm & Hh & Hr & Hlong).
    assert (Hrest : (0 < length rest)%nat) by (destruct rest; [done|cbn; lia]).
    assert (Hq : (length q <= 21)%nat).
    { assert (Hh' : length (header (length fm.1)) = 22%nat).
      { destruct j as [|[|j]]; cbn in Hfm; [injection Hfm as <-..|done];
          vm_compute; reflexivity. }
      rewrite Hh, length_app in Hh'. lia. }
    assert (Ht : length (concat (take t [take 11 bytes; drop 11 bytes]))
                 = match t with 0 => 0 | 1 => 11 | _ => 70 end%nat).
    { destruct t as [|[|t]]; [| |rewrite take_ge by (cbn; lia)];
        vm_compute; reflexivity. }
    assert (Hj : length (stream (take j [(body, message); (body, message)]))
                 = match j with 0 => 0 | 1 => 35 | _ => 70 end%nat).
    { destruct j as [|[|j]]; [| |rewrite take_ge by (cbn; lia)];
        vm_compute; reflexivity. }
    rewrite Hcut, length_app, Hj in Ht.
    destruct t as [|[|t]]; destruct j as [|[|j]]; try lia; done.
Defined.

(** *** The claims on the code *)

(** C1 on the code.  The frame of the 13-byte body [{"jsonrpc":2}] is
    delivered in two writes, the first of [k] bytes.  Cut inside
    [Content-Length: ] (k from 1 to 15), the first write posts nothing and
    the second posts the message, once.  Cut after it and before the end of
    the header (k from 16 to 21), the first write finds no header end,
    takes [-1 + 4] for the start of the body, and ends with the exception
    of [JSON.parse]: no message is posted; from k = 17 on it has removed
    the start of the header from the buffer, and the rest of the frame,
    were it written, would post nothing either. *)
Theorem split_header_deliveries :
  let body := json_bytes "{'jsonrpc':2}" in
  let frame := encode body in
  let message := JObject [(lit "jsonrpc", JNumber (lit "2"))] in
  length body = 13%nat
  /\ header 13 = list_byte_of_string "Content-Length: 13" ++ [x0d; x0a; x0d; x0a]
  /\ Forall (fun k =>
               deliver_bytes (new_Stdio stdout) (take k frame)
               = ({| kind := stdout; buffer := take k frame |}, [],
                  Return {| w_ret := 0; nwritten := N.of_nat k |})
               /\ deliver_all (new_Stdio stdout) [take k frame; drop k frame]
                  = ({| kind := stdout; buffer := [] |},
                     [PostMessage message], Return tt))
       (seq 1 15)
  /\ Forall (fun k =>
               exists s,
                 deliver_all (new_Stdio stdout) [take k frame; drop k frame]
                 = (s, [], Throw))
       (seq 16 6)
  /\ Forall (fun k =>
               exists s s' o,
                 deliver_bytes (new_Stdio stdout) (take k frame) = (s, [], Throw)
                 /\ deliver_bytes s (drop k frame) = (s', [], o))
       (seq 17 5).
Proof.
  intros body frame message.
  split; [vm_compute; reflexivity|]. split; [vm_compute; reflexivity|].
  split; [|split].
  - repeat (constructor; [split; vm_compute; reflexivity|]). constructor.
  - repeat (constructor; [eexists; vm_compute; reflexivity|]). constructor.
  - repeat (constructor;
            [eexists _, _, _; split; [vm_compute; reflexivity|];
             vm_compute; reflexivity|]).
    constructor.
Qed.

(** C5 on the code.  Two frames in a row, cut 17 bytes into the second
    header: the first message is posted, then the loop reads the partial
    header as a frame and the write ends with an exception; the second
    message is never posted.  And two frames in one write, the first body
    holding a character of two bytes: the body is cut out of the decoded
    text at the byte length, takes the first character of the next header
    with it, and [JSON.parse] throws; no message is posted. *)
Theorem chunked_frames_lost :
  let frame := encode (json_bytes "{'jsonrpc':2}") in
  let message := JObject [(lit "jsonrpc", JNumber (lit "2"))] in
  let body2 := json_bytes "{'a':'" ++ [xc3; xa9] ++ json_bytes "'}" in
  (exists s,
     deliver_all (new_Stdio stdout)
       [frame ++ take 17 frame; drop 17 frame]
     = (s, [PostMessage message], Throw))
  /\ deliver_bytes (new_Stdio stdout) (encode body2)
     = ({| kind := stdout; buffer := [] |},
        [PostMessage (JObject [(lit "a", JString [233%N])])],
        Return {| w_ret := 0; nwritten := 32 |})
  /\ deliver_bytes (new_Stdio stdout) (encode body2 ++ frame)
     = ({| kind := stdout; buffer := frame |}, [], Throw).
Proof.
  intros frame message body2. split; [|split].
  - eexists. vm_compute. reflexivity.
  - vm_compute. reflexivity.
  - vm_compute. reflexivity.
Qed.

(** * Further properties of the code *)

(** ** The [stdout] decoder off the header *)

Lemma utf8_run_ascii_app P Y :
  is_ascii P -> utf8_run utf8_init (P ++ Y) = chars P ++ utf8_run utf8_init Y.
Proof.
  induction 1 as [|b bs Hb _ IH]; [done|].
  cbn [utf8_run chars map app]. unfold utf8_step, utf8_lead. cbn [u_needed utf8_init].
  rewrite N.eqb_refl.
  destruct (N.leb_spec (Byte.to_N b) 127) as [_|]; [|lia].
  cbn [app]. by rewrite IH.
Qed.

(** The text of a buffer that starts with ASCII bytes starts with these
    bytes, whatever follows. *)
Lemma decode_ascii_app P Y :
  is_ascii P -> P <> [] ->
  exists Z, TextDecoder_decode (P ++ Y) = chars P ++ Z.
Proof.
  intros HP Hne. unfold TextDecoder_decode. rewrite utf8_run_ascii_app by done.
  destruct P as [|b P]; [done|]. apply Forall_cons in HP as [Hb HP].
  cbn [chars map app].
  destruct (N.eqb_spec (Byte.to_N b) 65279) as [Heq|_]; [lia|].
  cbn [map concat]. rewrite map_app, concat_app.
  assert (Hc : Forall (fun c => (c < 128)%N) (map Byte.to_N P)).
  { apply Forall_fmap. exact HP. }
  rewrite (utf16_units_ascii _ Hc). unfold utf16_units at 1.
  destruct (N.ltb_spec (Byte.to_N b) 65536) as [_|]; [|lia].
  cbn [app]. eexists. reflexivity.
Qed.

Lemma js_prefix_mismatch p s i a b :
  p !! i = Some a -> s !! i = Some b -> a <> b -> js_prefix p s = false.
Proof.
  revert s i. induction p as [|x p IH]; intros [|y s] [|i]; cbn; try done.
  - intros [= ->] [= ->] Hne. by destruct (N.eqb_spec a b).
  - intros Hp Hs Hne. rewrite (IH _ _ Hp Hs Hne). apply andb_false_r.
Qed.

Lemma frame_step_off_header P Y i a b :
  is_ascii P ->
  chars P !! i = Some a -> CONTENT_LENGTH !! i = Some b -> a <> b ->
  frame_step (P ++ Y) = FBreak.
Proof.
  intros HP Ha Hb Hne. unfold frame_step.
  destruct (decode_ascii_app P Y HP) as [Z ->].
  { intros ->. discriminate Ha. }
  unfold startsWith.
  rewrite (js_prefix_mismatch CONTENT_LENGTH (chars P ++ Z) i b a); [done|done| |done].
  by apply lookup_app_l_Some.
Qed.

(** X2.  Once the buffer of [stdout] starts with bytes that differ from
    [Content-Length: ], no write ever posts a message again: every write
    returns, and the buffer keeps all the bytes delivered. *)
Theorem stdout_never_resynchronises (P rest : list byte)
    (chunks : list (list byte)) (i : nat) (a b : N) :
  is_ascii P ->
  chars P !! i = Some a -> CONTENT_LENGTH !! i = Some b -> a <> b ->
  deliver_all {| kind := stdout; buffer := P ++ rest |} chunks
  = ({| kind := stdout; buffer := P ++ rest ++ concat chunks |}, [], Return tt).
Proof.
  intros HP Ha Hb Hne. revert rest.
  induction chunks as [|c chunks IH]; intros rest.
  - cbn. by rewrite app_nil_r.
  - cbn [deliver_all concat].
    rewrite (deliver_bytes_stdout (P ++ rest) c [] ((P ++ rest) ++ c)).
    + rewrite <- (app_assoc P rest c), IH. cbn [map app].
      by rewrite <- (app_assoc rest c).
    + cbn [frame_loop]. rewrite <- (app_assoc P).
      by rewrite (frame_step_off_header P _ i a b).
Qed.

Lemma stdout_never_resynchronises_witness :
  let left := list_byte_of_string "13" ++ [x0d] in
  let frame := encode (json_bytes "{'jsonrpc':2}") in
  deliver_all {| kind := stdout; buffer := left ++ [] |} [[x0a; x0d; x0a]; frame]
  = ({| kind := stdout;
        buffer := left ++ [] ++ concat [[x0a; x0d; x0a]; frame] |}, [], Return tt).
Proof.
  intros left frame.
  apply (stdout_never_resynchronises left [] _ 0 49%N 67%N).
  - unfold is_ascii. vm_compute. repeat constructor.
  - reflexivity.
  - reflexivity.
  - discriminate.
Defined.

(** ** The lines of [stderr] *)

Lemma take_lines_app cur a b :
  take_lines cur (a ++ b)
  = let '(la, ra) := take_lines cur a in
    let '(lb, rb) := take_lines (rev ra) b in (la ++ lb, rb).
Proof.
  revert cur. induction a as [|x a IH]; intros cur.
  - cbn [app take_lines]. rewrite rev_involutive.
    by destruct (take_lines cur b).
  - cbn [app take_lines]. destruct (Byte.to_N x =? 10)%N.
    + rewrite IH. destruct (take_lines [] a) as [la ra].
      by destruct (take_lines (rev ra) b).
    + apply IH.
Qed.

(** The partial line that stays in the buffer holds no line feed when the
    bytes before it hold none. *)
Lemma take_lines_rest cur bs ls rest :
  Forall (fun b => Byte.to_N b <> 10%N) cur ->
  take_lines cur bs = (ls, rest) ->
  Forall (fun b => Byte.to_N b <> 10%N) rest.
Proof.
  revert cur ls. induction bs as [|x bs IH]; intros cur ls Hcur.
  - cbn. intros [= <- <-]. by apply Forall_rev.
  - cbn [take_lines]. destruct (N.eqb_spec (Byte.to_N x) 10) as [_|Hx].
    + destruct (take_lines [] bs) as [ls' r'] eqn:E. intros [= <- <-].
      by apply (IH [] ls').
    + by apply IH, Forall_cons.
Qed.

Lemma take_lines_no_lf cur bs :
  Forall (fun b => Byte.to_N b <> 10%N) bs ->
  take_lines cur bs = ([], rev cur ++ bs).
Proof.
  revert cur. induction bs as [|x bs IH]; intros cur Hbs.
  - cbn. by rewrite app_nil_r.
  - apply Forall_cons in Hbs as [Hx Hbs]. cbn [take_lines].
    destruct (N.eqb_spec (Byte.to_N x) 10) as [|_]; [done|].
    rewrite IH by done. cbn [rev]. by rewrite <- app_assoc.
Qed.

(** Every line ends with its line feed and holds no other; the lines and
    the partial line are the bytes read. *)
Lemma take_lines_spec cur bs ls rest :
  Forall (fun b => Byte.to_N b <> 10%N) cur ->
  take_lines cur bs = (ls, rest) ->
  concat ls ++ rest = rev cur ++ bs
  /\ Forall (fun l => exists l0 b, l = l0 ++ [b] /\ Byte.to_N b = 10%N
                      /\ Forall (fun b => Byte.to_N b <> 10%N) l0) ls.
Proof.
  revert cur ls. induction bs as [|x bs IH]; intros cur ls Hcur.
  - cbn. intros [= <- <-]. by rewrite app_nil_r.
  - cbn [take_lines]. destruct (N.eqb_spec (Byte.to_N x) 10) as [Hx|Hx].
    + destruct (take_lines [] bs) as [ls' r'] eqn:E. intros [= <- <-].
      destruct (IH [] ls' ltac:(constructor) E) as [Hcat Hls]. split.
      * cbn [concat rev]. rewrite <- !app_assoc, Hcat. by cbn.
      * constructor; [|done]. exists (rev cur), x. cbn [rev].
        split; [done|]. split; [done|]. by apply Forall_rev.
    + intros E. destruct (IH (x :: cur) ls ltac:(by constructor) E)
        as [Hcat Hls]. split; [|done]. rewrite Hcat. cbn [rev].
      by rewrite <- app_assoc.
Qed.

Lemma deliver_bytes_stderr b chunk :
  deliver_bytes {| kind := stderr; buffer := b |} chunk
  = let '(ls, rest) := take_lines [] (b ++ chunk) in
    ({| kind := stderr; buffer := rest |},
     map (fun l => ConsoleDebug stderr (TextDecoder_decode l)) ls,
     Return {| w_ret := 0; nwritten := N.of_nat (length chunk) |}).
Proof.
  unfold deliver_bytes, fd_write. cbn [fd_write_from write_iovec kind buffer buf buf_len].
  rewrite view_slice_all. destruct (take_lines [] (b ++ chunk)) as [ls rest].
  by rewrite app_nil_r.
Qed.

Lemma deliver_all_stderr chunks b :
  Forall (fun x => Byte.to_N x <> 10%N) b ->
  deliver_all {| kind := stderr; buffer := b |} chunks
  = let '(ls, rest) := take_lines [] (b ++ concat chunks) in
    ({| kind := stderr; buffer := rest |},
     map (fun l => ConsoleDebug stderr (TextDecoder_decode l)) ls, Return tt).
Proof.
  revert b. induction chunks as [|c chunks IH]; intros b Hb.
  - cbn [deliver_all concat]. rewrite app_nil_r, take_lines_no_lf by done. done.
  - cbn [deliver_all concat]. rewrite deliver_bytes_stderr.
    rewrite app_assoc, (take_lines_app [] (b ++ c) (concat chunks)).
    destruct (take_lines [] (b ++ c)) as [l1 r1] eqn:E1.
    assert (Hr1 : Forall (fun x => Byte.to_N x <> 10%N) r1).
    { by apply (take_lines_rest [] (b ++ c) l1). }
    cbv beta iota. rewrite IH by done.
    rewrite (take_lines_app [] r1 (concat chunks)), (take_lines_no_lf [] r1 Hr1).
    cbn [rev app]. destruct (take_lines (rev r1) (concat chunks)) as [l2 r2].
    cbn [app]. by rewrite map_app.
Qed.

(** X3.  Whatever the writes to [stderr] are cut into, the console gets
    the same lines, which depend on the bytes written only: the decoded
    lines of all the bytes written, each ending with its line feed and
    holding no other, in order; the bytes after the last line feed stay in
    the buffer, and every write returns. *)
Theorem stderr_lines_whatever_the_cut (chunks : list (list byte)) :
  exists ls rest,
    deliver_all (new_Stdio stderr) chunks
    = ({| kind := stderr; buffer := rest |},
       map (fun l => ConsoleDebug stderr (TextDecoder_decode l)) ls, Return tt)
    /\ take_lines [] (concat chunks) = (ls, rest)
    /\ concat ls ++ rest = concat chunks
    /\ Forall (fun l => exists l0 b, l = l0 ++ [b] /\ Byte.to_N b = 10%N
                        /\ Forall (fun b => Byte.to_N b <> 10%N) l0) ls
    /\ Forall (fun b => Byte.to_N b <> 10%N) rest.
Proof.
  unfold new_Stdio. rewrite deliver_all_stderr by constructor. cbn [app].
  destruct (take_lines [] (concat chunks)) as [ls rest] eqn:E.
  exists ls, rest. split; [done|]. split; [done|].
  destruct (take_lines_spec [] _ ls rest ltac:(constructor) E) as [Hcat Hls].
  split; [exact Hcat|]. split; [exact Hls|].
  by apply (take_lines_rest [] (concat chunks) ls).
Qed.

(** ** Reads that fail, reads that follow each other *)

Lemma fd_read_from_app a b : forall n sh view8,
  fd_read_from n sh view8 (a ++ b)
  = match fd_read_from n sh view8 a with
    | (sh', view8', Return n') => fd_read_from n' sh' view8' b
    | other => other
    end.
Proof.
  induction a as [|io a IH]; intros n sh view8; [done|].
  cbn [app fd_read_from].
  destruct (typed_set view8 _ (buf io)) as [v|]; [|done].
  destruct (shift_left (dataBuffer sh) _) as [d|]; [|done].
  apply IH.
Qed.

Lemma scatter_length iovs : forall view8 data,
  Forall (fun iovec => (buf iovec + buf_len iovec <= N.of_nat (length view8))%N)
    iovs ->
  length (scatter view8 iovs data) = length view8.
Proof.
  induction iovs as [|io iovs IH]; intros view8 data Hfit; [done|].
  apply Forall_cons in Hfit as [H0 Hfit]. cbn [scatter].
  assert (Hl : length (take (N.to_nat (buf io)) view8
                       ++ take (N.to_nat (buf_len io)) data
                       ++ drop (N.to_nat (buf io)
                                + length (take (N.to_nat (buf_len io)) data)) view8)
               = length view8).
  { rewrite !length_app, length_drop, !length_take. lia. }
  rewrite IH; [done|]. by rewrite Hl.
Qed.

(** X5.  A read whose buffers lie in memory up to one that does not: the
    call ends with the exception of the store, the channel stays locked,
    and the bytes stored for the buffers before are gone from the channel
    although no count of bytes read was returned. *)
Theorem fd_read_failure_keeps_lock (refill : Sharer -> Sharer) (s : Stdio)
    (sh : Sharer) (view8 : list byte) (good : list Iovec) (bad : Iovec)
    (more : list Iovec) :
  let sh1 := if (index sh =? 0)%N then refill sh else sh in
  let valid := take (N.to_nat (index sh1)) (dataBuffer sh1) in
  let taken := N.min (total_len good) (index sh1) in
  let piece := N.min (buf_len bad) (index sh1 - taken) in
  kind s = stdin ->
  (index sh1 <= N.of_nat (length (dataBuffer sh1)))%N ->
  Forall (fun iovec => (buf iovec + buf_len iovec <= N.of_nat (length view8))%N)
    good ->
  (N.of_nat (length view8) < buf bad + piece)%N ->
  exists sh',
    fd_read refill s sh view8 (good ++ bad :: more)
    = (sh', scatter view8 good valid, Throw)
    /\ locked sh' = true
    /\ index sh' = (index sh1 - taken)%N
    /\ take (N.to_nat (index sh')) (dataBuffer sh') = drop (N.to_nat taken) valid.
Proof.
  intros sh1 valid taken piece Hkind Hidx Hfit Hbad.
  destruct (fd_read_from_scatter good 0 (lock sh1) view8)
    as (sh' & Hrun & Hi & Hl & Hv & Hlock); [done|done|].
  cbn [lock index dataBuffer locked] in *. fold valid taken in Hrun, Hi, Hv.
  exists sh'. unfold fd_read. rewrite Hkind. fold sh1.
  rewrite fd_read_from_app, Hrun. cbn [fd_read_from].
  unfold typed_set.
  destruct (Nat.leb_spec
    (N.to_nat (buf bad)
     + length (take (N.to_nat (N.min (buf_len bad) (index sh'))) (dataBuffer sh')))
    (length (scatter view8 good valid))) as [Hle|_]; [|done].
  exfalso. rewrite scatter_length in Hle by done.
  rewrite length_take, Hi in Hle. fold piece in Hle.
  assert (N.to_nat piece <= length (dataBuffer sh'))%nat; [|lia].
  rewrite Hl. unfold piece, taken. lia.
Qed.

Lemma fd_read_failure_keeps_lock_witness :
  let sh := {| index := 3; dataBuffer := list_byte_of_string "abcde";
               locked := false |} in
  let view8 := list_byte_of_string "0123" in
  exists sh',
    fd_read (fun x => x) (new_Stdio stdin) sh view8
      ([ {| buf := 0; buf_len := 2 |} ] ++ {| buf := 4; buf_len := 2 |} :: [])
    = (sh', list_byte_of_string "ab23", Throw)
    /\ locked sh' = true
    /\ index sh' = 1%N
    /\ take 1 (dataBuffer sh') = list_byte_of_string "c".
Proof.
  intros sh view8.
  destruct (fd_read_failure_keeps_lock (fun x => x) (new_Stdio stdin) sh view8
              [ {| buf := 0; buf_len := 2 |} ] {| buf := 4; buf_len := 2 |} [])
    as (sh' & Hrun & Hlock & Hidx & Hdata).
  - reflexivity.
  - vm_compute; discriminate.
  - repeat constructor. vm_compute; discriminate.
  - vm_compute; reflexivity.
  - exists sh'. split; [exact Hrun|]. split; [exact Hlock|].
    split; [exact Hidx|]. rewrite Hidx in Hdata. exact Hdata.
Defined.

(** X6.  Two reads that follow each other, the first leaving bytes in the
    channel: the second stores the bytes that follow those of the first,
    and together they return the count of the bytes gone from the
    channel. *)
Theorem fd_read_twice (refill : Sharer -> Sharer) (s : Stdio) (sh : Sharer)
    (view8 : list byte) (iovs1 iovs2 : list Iovec) :
  let valid := take (N.to_nat (index sh)) (dataBuffer sh) in
  let read1 := total_len iovs1 in
  let read2 := N.min (total_len iovs2) (index sh - read1) in
  kind s = stdin ->
  (read1 < index sh <= N.of_nat (length (dataBuffer sh)))%N ->
  Forall (fun iovec => (buf iovec + buf_len iovec <= N.of_nat (length view8))%N)
    (iovs1 ++ iovs2) ->
  exists sh1 view1 sh2,
    fd_read refill s sh view8 iovs1
    = (sh1, view1, Return {| r_ret := 0; nread := read1 |})
    /\ view1 = scatter view8 iovs1 valid
    /\ fd_read refill s sh1 view1 iovs2
       = (sh2, scatter view1 iovs2 (drop (N.to_nat read1) valid),
          Return {| r_ret := 0; nread := read2 |})
    /\ index sh2 = (index sh - (read1 + read2))%N
    /\ take (N.to_nat (index sh2)) (dataBuffer sh2)
       = drop (N.to_nat (read1 + read2)) valid.
Proof.
  intros valid read1 read2 Hkind [Hlt Hidx] Hfit.
  apply Forall_app in Hfit as [Hfit1 Hfit2].
  assert (Hne : (index sh =? 0)%N = false) by (apply N.eqb_neq; lia).
  destruct (fd_read_from_scatter iovs1 0 (lock sh) view8)
    as (sh1 & Hrun1 & Hi1 & Hl1 & Hv1 & Hlock1); [done|done|].
  cbn [lock index dataBuffer locked] in *. fold valid in Hrun1, Hv1.
  rewrite N.min_l in Hrun1, Hi1, Hv1 by (fold read1; lia). fold read1 in Hrun1, Hi1, Hv1.
  assert (Hne1 : (index (unlock sh1) =? 0)%N = false).
  { apply N.eqb_neq. cbn [unlock index]. lia. }
  destruct (fd_read_from_scatter iovs2 0 (lock (unlock sh1)) (scatter view8 iovs1 valid))
    as (sh2 & Hrun2 & Hi2 & Hl2 & Hv2 & Hlock2).
  { cbn [lock unlock index dataBuffer]. lia. }
  { by rewrite scatter_length. }
  cbn [lock unlock index dataBuffer locked] in *.
  rewrite Hv1, Hi1 in Hrun2. fold read2 in Hrun2.
  exists (unlock sh1), (scatter view8 iovs1 valid), (unlock sh2).
  unfold fd_read. cbn [unlock index dataBuffer locked].
  rewrite Hkind, Hne, Hne1, Hrun1, Hrun2, !N.add_0_l.
  split; [done|]. split; [done|]. split; [done|]. cbn [unlock index dataBuffer].
  split.
  - rewrite Hi2, Hi1. fold read2. lia.
  - rewrite Hv2, Hv1, Hi1. fold read2. rewrite drop_drop. f_equal. lia.
Qed.

Lemma fd_read_twice_witness :
  let sh := {| index := 3; dataBuffer := list_byte_of_string "abcde";
               locked := false |} in
  let view8 := list_byte_of_string "0123456789" in
  exists sh1 sh2,
    fd_read (fun x => x) (new_Stdio stdin) sh view8 [ {| buf := 0; buf_len := 2 |} ]
    = (sh1, list_byte_of_string "ab23456789", Return {| r_ret := 0; nread := 2 |})
    /\ fd_read (fun x => x) (new_Stdio stdin) sh1 (list_byte_of_string "ab23456789")
         [ {| buf := 5; buf_len := 4 |} ]
       = (sh2, list_byte_of_string "ab234c6789", Return {| r_ret := 0; nread := 1 |})
    /\ index sh2 = 0%N.
Proof.
  intros sh view8.
  destruct (fd_read_twice (fun x => x) (new_Stdio stdin) sh view8
              [ {| buf := 0; buf_len := 2 |} ] [ {| buf := 5; buf_len := 4 |} ])
    as (sh1 & view1 & sh2 & Hrun1 & Hview & Hrun2 & Hidx & _).
  - reflexivity.
  - vm_compute. split; [reflexivity|discriminate].
  - repeat constructor; vm_compute; discriminate.
  - exists sh1, sh2. rewrite Hview in Hrun1, Hrun2. 
    split; [exact Hrun1|]. split; [exact Hrun2|]. exact Hidx.
Defined.

(** ** Writes with several buffers *)

Lemma write_iovec_slice s view8 iovec :
  write_iovec s view8 iovec
  = write_iovec s (view_slice view8 (buf iovec) (buf_len iovec))
      {| buf := 0;
         buf_len := N.of_nat (length (view_slice view8 (buf iovec) (buf_len iovec))) |}.
Proof.
  unfold write_iovec. cbn [buf buf_len]. by rewrite view_slice_all.
Qed.

Lemma fd_write_from_slices iovs : forall n s view8,
  fd_write_from n s view8 iovs
  = let '(s', ev, o) :=
      deliver_all s (map (fun iovec => view_slice view8 (buf iovec) (buf_len iovec))
                       iovs) in
    (s', ev,
     match o with
     | Return _ => Return {| w_ret := 0; nwritten := n + total_len iovs |}
     | Throw => Throw
     | Hang => Hang
     end).
Proof.
  induction iovs as [|io iovs IH]; intros n s view8.
  - cbn. by rewrite N.add_0_r.
  - cbn [fd_write_from map deliver_all]. unfold deliver_bytes, fd_write.
    cbn [fd_write_from]. rewrite <- write_iovec_slice.
    destruct (write_iovec s view8 io) as [[s1 ev1] [[]| |]]; try done.
    rewrite app_nil_r, IH.
    destruct (deliver_all s1 _) as [[s2 ev2] o].
    replace (n + buf_len io + total_len iovs)%N with (n + total_len (io :: iovs))%N
      by (unfold total_len; cbn; lia).
    done.
Qed.

(** X7.  A write with several buffers does what successive writes of the
    bytes of each buffer do, on [stdout], [stderr] and [stdin] alike; when
    it returns it reports the sum of the sizes of the buffers, also for a
    buffer that reaches past the end of the memory. *)
Theorem fd_write_buffer_by_buffer (s : Stdio) (view8 : list byte)
    (iovs : list Iovec) :
  fd_write s view8 iovs
  = let '(s', ev, o) :=
      deliver_all s (map (fun iovec => view_slice view8 (buf iovec) (buf_len iovec))
                       iovs) in
    (s', ev,
     match o with
     | Return _ => Return {| w_ret := 0; nwritten := total_len iovs |}
     | Throw => Throw
     | Hang => Hang
     end).
Proof. unfold fd_write. by rewrite fd_write_from_slices. Qed.

(** ** A body that is not JSON *)

Lemma frame_loop_frames_thrown frames : forall P b fuel,
  Forall well_formed frames -> is_ascii P -> frame_step P = FThrow b ->
  (length frames < fuel)%nat ->
  frame_loop fuel (stream frames ++ P) = (map snd frames, b, Threw).
Proof.
  induction frames as [|[body m] frames IH]; intros P b fuel Hwf HP Hq Hfuel;
    (destruct fuel as [|fuel]; [cbn in Hfuel; lia|]); cbn [frame_loop].
  - cbn [stream map concat app]. by rewrite Hq.
  - apply Forall_cons in Hwf as [[Hb Hm] Hwf]. cbn [fst snd] in *.
    rewrite stream_cons, <- app_assoc. cbn [fst].
    rewrite (frame_step_frame body m); [|done| |done].
    2:{ apply Forall_app. split; [by apply is_ascii_stream|done]. }
    destruct (Nat.ltb_spec (length (stream frames ++ P))
                (length (encode body ++ stream frames ++ P))) as [_|Hge].
    + rewrite (IH P b); [done|done|done|done|cbn in Hfuel; lia].
    + rewrite length_app in Hge. pose proof (length_encode body). lia.
Qed.

(** X27.  A frame whose body is not JSON, written to [stdout] in one write
    with well-formed frames before it and behind it: the messages before it
    are posted, the write ends with the exception of [JSON.parse], and the
    frame is gone from the buffer; the frames behind it stay in the buffer
    and are posted by the next write only, even one of no bytes. *)
Theorem bad_body_is_dropped (before behind : list (list byte * json))
    (bad : list byte) :
  Forall well_formed before -> Forall well_formed behind ->
  is_ascii bad -> JSON_parse (chars bad) = None ->
  deliver_bytes (new_Stdio stdout) (stream before ++ encode bad ++ stream behind)
  = ({| kind := stdout; buffer := stream behind |},
     map (fun fm => PostMessage fm.2) before, Throw)
  /\ deliver_bytes {| kind := stdout; buffer := stream behind |} []
     = ({| kind := stdout; buffer := [] |},
        map (fun fm => PostMessage fm.2) behind,
        Return {| w_ret := 0; nwritten := 0 |}).
Proof.
  intros Hbefore Hbehind Hbad Hparse. split.
  - unfold deliver_bytes, fd_write, new_Stdio. cbn [fd_write_from].
    unfold write_iovec. cbn [kind buffer buf buf_len app].
    rewrite view_slice_all.
    assert (Hbehind' : is_ascii (stream behind)) by by apply is_ascii_stream.
    assert (Hstep : frame_step (encode bad ++ stream behind)
                    = FThrow (stream behind)).
    { unfold encode. rewrite <- app_assoc.
      rewrite frame_step_header by (by apply Forall_app).
      destruct (Nat.ltb_spec (length (bad ++ stream behind)) (length bad))
        as [Hlt|_].
      { rewrite length_app in Hlt. lia. }
      by rewrite take_app_length, drop_app_length, Hparse. }
    rewrite (frame_loop_frames_thrown before _ (stream behind)); try done.
    + by rewrite map_map.
    + apply Forall_app. split; [|done]. unfold encode.
      apply Forall_app. split; [apply is_ascii_header|done].
    + pose proof (length_stream before). rewrite length_app. lia.
  - rewrite (deliver_bytes_stdout (stream behind) [] (map snd behind) []).
    + by rewrite map_map.
    + rewrite app_nil_r.
      rewrite <- (app_nil_r (stream behind)) at 2.
      apply frame_loop_frames; [done|constructor| |].
      * by apply frame_step_short; [constructor|cbn; lia].
      * pose proof (length_stream behind). lia.
Qed.

Lemma bad_body_is_dropped_witness :
  let body := json_bytes "{'jsonrpc':2}" in
  let message := JObject [(lit "jsonrpc", JNumber (lit "2"))] in
  let bad := json_bytes "{jsonrpc}" in
  deliver_bytes (new_Stdio stdout)
    (stream [(body, message)] ++ encode bad ++ stream [(body, message)])
  = ({| kind := stdout; buffer := stream [(body, message)] |},
     map (fun fm => PostMessage fm.2) [(body, message)], Throw)
  /\ deliver_bytes {| kind := stdout; buffer := stream [(body, message)] |} []
     = ({| kind := stdout; buffer := [] |},
        map (fun fm => PostMessage fm.2) [(body, message)],
        Return {| w_ret := 0; nwritten := 0 |}).
Proof.
  intros body message bad.
  assert (Hascii : forall bs : list byte,
            forallb (fun b => (Byte.to_N b <? 128)%N) bs = true -> is_ascii bs).
  { intros bs H. apply Forall_forall. intros b Hb.
    rewrite forallb_forall in H. apply N.ltb_lt, H. by apply list_elem_of_In. }
  assert (Hwf : well_formed (body, message)).
  { split; [apply Hascii|]; vm_compute; reflexivity. }
  apply (bad_body_is_dropped [(body, message)] [(body, message)] bad).
  - by repeat constructor.
  - by repeat constructor.
  - apply Hascii. vm_compute. reflexivity.
  - vm_compute. reflexivity.
Defined.

(** ** Positions inside their line *)

Section positions_in_line.

Local Open Scope N_scope.

Lemma line_lookup ls : forall k number from l,
  ls !! k = Some l ->
  exists f,
    line_in ls number from (number + N.of_nat k)
    = Some {| l_number := number + N.of_nat k; l_from := f; l_text := l |}
    /\ from <= f
    /\ f + N.of_nat (length l) <= from + lines_length ls
    /\ forall ch, ch <= N.of_nat (length l) ->
         lineAt_in ls number from (f + ch)
         = Some {| l_number := number + N.of_nat k; l_from := f; l_text := l |}.
Proof.
  induction ls as [|x ls IH]; intros k number from l Hk; [done|].
  assert (Hlen : from + N.of_nat (length x) <= from + lines_length (x :: ls)).
  { destruct ls; cbn [lines_length]; lia. }
  destruct k as [|k].
  - injection Hk as ->. exists from. cbn [line_in lineAt_in].
    rewrite N.add_0_r, N.eqb_refl. split; [done|]. split; [lia|]. split; [done|].
    intros ch Hch. destruct (N.leb_spec (from + ch) (from + N.of_nat (length l))); [done|lia].
  - cbn [lookup list_lookup] in Hk.
    destruct (IH k (number + 1) (from + N.of_nat (length x) + 1) l Hk)
      as (f & Hline & Hlo & Hhi & Hat).
    exists f. cbn [line_in lineAt_in].
    replace (number + N.of_nat (S k)) with (number + 1 + N.of_nat k) by lia.
    destruct (N.eqb_spec number (number + 1 + N.of_nat k)) as [|_]; [lia|].
    split; [done|]. split; [lia|]. split.
    + destruct ls as [|y ls']; [done|].
      change (lines_length (x :: y :: ls'))
        with (N.of_nat (length x) + 1 + lines_length (y :: ls')). lia.
    + intros ch Hch.
      destruct (N.leb_spec (f + ch) (from + N.of_nat (length x))); [lia|].
      by apply Hat.
Qed.

Lemma lineAt_in_none ls : forall number from pos,
  lineAt_in ls number from pos = None ->
  from + lines_length ls < pos \/ ls = [].
Proof.
  induction ls as [|x ls IH]; intros number from pos; [by right|].
  cbn [lineAt_in].
  destruct (N.leb_spec pos (from + N.of_nat (length x))) as [|Hgt]; [done|].
  intros H. left. apply IH in H as [H| ->]; [|cbn [lines_length]; lia].
  destruct ls as [|y ls']; [cbn [lines_length] in *; lia|].
  change (lines_length (x :: y :: ls'))
    with (N.of_nat (length x) + 1 + lines_length (y :: ls')). lia.
Qed.

Lemma lineAt_in_bounds ls : forall number from pos l,
  lineAt_in ls number from pos = Some l ->
  from <= pos ->
  pos <= l_from l + N.of_nat (length (l_text l))
  /\ pos <= from + lines_length ls
  /\ ls !! N.to_nat (l_number l - number) = Some (l_text l).
Proof.
  induction ls as [|x ls IH]; intros number from pos l Hl Hlo; [done|].
  cbn [lineAt_in] in Hl.
  destruct (N.leb_spec pos (from + N.of_nat (length x))) as [Hle|Hgt].
  - injection Hl as <-. cbn [l_number l_from l_text].
    rewrite N.sub_diag. split; [done|]. split; [|done].
    destruct ls; cbn [lines_length]; lia.
  - pose proof (lineAt_in_line _ _ _ _ _ Hl ltac:(lia)) as (_ & Hnum & _).
    apply IH in Hl as (Hto & Hhi & Hk); [|lia].
    split; [done|]. split.
    + destruct ls as [|y ls']; [done|].
      change (lines_length (x :: y :: ls'))
        with (N.of_nat (length x) + 1 + lines_length (y :: ls')). lia.
    + replace (N.to_nat (l_number l - number))
        with (S (N.to_nat (l_number l - (number + 1)))) by lia.
      done.
Qed.

End positions_in_line.

(** X8.  A position on a line of the document, its character within the
    line or just after it: [posToOffset] gives an offset of the document,
    and [offsetToPos] maps this offset back to the position. *)
Theorem posToOffset_offsetToPos (d : Text) (pos : Position) (l : JSString) :
  text_lines d !! N.to_nat (p_line pos) = Some l ->
  (p_character pos <= N.of_nat (length l))%N ->
  exists offset, posToOffset d pos = Some offset
                 /\ (offset <= doc_length d)%N
                 /\ offsetToPos d offset = Some pos.
Proof.
  intros Hl Hch.
  destruct (line_lookup (text_lines d) _ 1%N 0%N l Hl) as (f & Hline & _ & Hhi & Hat).
  apply lookup_lt_Some in Hl as Hlt.
  exists (f + p_character pos)%N.
  unfold posToOffset, offsetToPos, line, lineAt, lines, doc_length.
  destruct (N.leb_spec (N.of_nat (length (text_lines d))) (p_line pos)); [lia|].
  replace (p_line pos + 1)%N with (1 + N.of_nat (N.to_nat (p_line pos)))%N by lia.
  rewrite Hline. cbn [l_from].
  destruct (N.ltb_spec (lines_length (text_lines d)) (f + p_character pos)); [lia|].
  split; [done|]. split; [lia|].
  rewrite (Hat _ Hch). cbn [l_number l_from]. destruct pos as [ln ch].
  cbn [p_line p_character] in *. f_equal. f_equal; lia.
Qed.

Lemma posToOffset_offsetToPos_witness :
  let d := {| first_line := lit "abc"; more_lines := [[]; lit "de"] |} in
  let pos := {| p_line := 2; p_character := 2 |} in
  posToOffset d pos = Some 7%N /\ offsetToPos d 7 = Some pos.
Proof.
  intros d pos.
  destruct (posToOffset_offsetToPos d pos (lit "de")) as (offset & Hto & _ & Hback).
  - reflexivity.
  - vm_compute; discriminate.
  - assert (Ho : offset = 7%N).
    { vm_compute in Hto. by injection Hto as <-. }
    rewrite Ho in Hto, Hback. split; [exact Hto|exact Hback].
Defined.

(** X9.  [offsetToPos] raises its [RangeError] exactly for the offsets past
    the end of the document; for the others the position it gives is on a
    line of the document, its character within the line or just after
    it. *)
Theorem offsetToPos_in_line (d : Text) (offset : N) :
  match offsetToPos d offset with
  | Some pos =>
      (offset <= doc_length d)%N
      /\ exists l, text_lines d !! N.to_nat (p_line pos) = Some l
                   /\ (p_character pos <= N.of_nat (length l))%N
  | None => (doc_length d < offset)%N
  end.
Proof.
  unfold offsetToPos, lineAt, doc_length.
  destruct (lineAt_in (text_lines d) 1 0 offset) as [l|] eqn:E.
  - pose proof (lineAt_in_line _ _ _ _ _ E ltac:(lia)) as (_ & _ & Hfrom).
    apply lineAt_in_bounds in E as (Hto & Hhi & Hk); [|lia].
    split; [lia|]. exists (l_text l). cbn [p_line p_character].
    split; [done|lia].
  - apply lineAt_in_none in E as [H|H]; [lia|done].
Qed.

(** ** The states of a client *)

(** The calls that send a request. *)
Lemma request_frame m ps c :
  id (request m ps c).2 = id c + 1
  /\ sent_ids (request m ps c).2 = sent_ids c ++ [IdNum (id c)]
  /\ jobs (request m ps c).2 = jobs c
  /\ initializePromise (request m ps c).2 = initializePromise c
  /\ isOpen (request m ps c).2 = isOpen c
  /\ views (request m ps c).2 = views c
  /\ plugins (request m ps c).2 = plugins c.
Proof.
  rewrite request_spec. cbn [snd]. unfold sent_ids. fields.
  by rewrite omap_app.
Qed.

Lemma initialize_spec c :
  let o := fresh (dom (promises c)) in
  let h0 := <[o := Pending []]> (promises c) in
  let f := fresh (dom h0) in
  let p := fresh (dom (<[f := Pending []]> h0)) in
  initialize c
  = (o, set_promises
          (<[f := Pending [ResumeClientInitialize o]]>
             (<[p := Pending [ResumeRequest (IdNum (id c)) f]]>
                (<[f := Pending []]> h0)))
          (set_outbox
             (outbox c ++ [ {| m_id := Some (IdNum (id c));
                               m_method := Some (lit "initialize");
                               m_params := Some (InitializeRequest (rootUri c)
                                                   (workspaceFolders c));
                               m_result := None; m_error := None |} ])
             (set_outboundRequests
                (<[IdNum (id c) := {| or_promise := p |}]> (outboundRequests c))
                (set_id (id c + 1) c)))).
Proof.
  intros o h0 f p. unfold initialize, new_promise, fresh_promise. fold o. fold h0.
  rewrite request_spec. fields. fold f. fold p.
  assert (Hp : (<[f := Pending []]> h0) !! p = None)
    by apply (not_elem_of_dom (D := gset nat)), is_fresh.
  assert (Hpf : p <> f).
  { intros E. rewrite E, lookup_insert_eq in Hp. done. }
  unfold await. fields.
  rewrite lookup_insert_ne, lookup_insert_eq by done.
  destruct c. reflexivity.
Qed.

Lemma initialize_frame c :
  id (initialize c).2 = id c + 1
  /\ sent_ids (initialize c).2 = sent_ids c ++ [IdNum (id c)]
  /\ jobs (initialize c).2 = jobs c
  /\ initializePromise (initialize c).2 = initializePromise c
  /\ isOpen (initialize c).2 = isOpen c
  /\ views (initialize c).2 = views c
  /\ plugins (initialize c).2 = plugins c.
Proof.
  rewrite initialize_spec. cbn [snd]. unfold sent_ids. fields.
  by rewrite omap_app.
Qed.

(** The steps that send no request. *)
Lemma no_request_refl c : no_request c c.
Proof. by repeat split. Qed.

Lemma no_request_trans c1 c2 c3 :
  no_request c1 c2 -> no_request c2 c3 -> no_request c1 c3.
Proof. intros (? & ? & ?) (? & ? & ?). repeat split; congruence. Qed.

Lemma notify_no_request m ps c : no_request c (notify m ps c).
Proof.
  unfold no_request, notify, sendMessage, sent_ids. fields.
  rewrite omap_app. cbn. by rewrite app_nil_r.
Qed.

Lemma settle_no_request p s c : no_request c (settle p s c).
Proof. unfold settle. destruct (promises c !! p) as [[]|]; by repeat split. Qed.

Lemma await_no_request p r c : no_request c (await p r c).
Proof. unfold await. destruct (promises c !! p) as [[]|]; by repeat split. Qed.

Lemma send_open_no_request r text c : no_request c (send_open r text c).
Proof.
  unfold send_open, textDocumentDidOpen.
  destruct (views c !! r); [apply notify_no_request|apply no_request_refl].
Qed.

Lemma sendChange_no_request r text c : no_request c (sendChange r text c).
Proof.
  unfold sendChange, textDocumentDidChange.
  destruct (isOpen c); [|apply no_request_refl].
  destruct (views c !! r); [|apply no_request_refl]. cbn [negb].
  eapply no_request_trans; [|apply notify_no_request]. by repeat split.
Qed.

Lemma update_no_request r changed d c : no_request c (update r changed d c).
Proof.
  unfold update.
  assert (H : no_request c
                match views c !! r with
                | Some pl =>
                    set_views (<[r := {| documentUri := documentUri pl;
                                         languageId := languageId pl;
                                         documentVersion := documentVersion pl;
                                         doc := d; shown := shown pl |}]> (views c)) c
                | None => c
                end).
  { destruct (views c !! r); by repeat split. }
  destruct changed; cbn [negb]; [|done].
  eapply no_request_trans; [exact H|apply sendChange_no_request].
Qed.

Lemma new_LspPlugin_no_request u l d c : no_request c (new_LspPlugin u l d c).2.
Proof.
  unfold new_LspPlugin, plugin_initialize, attachPlugin. cbn [snd]. fields.
  eapply no_request_trans;
    [|destruct (initializePromise c);
      [apply await_no_request|apply send_open_no_request]].
  by repeat split.
Qed.

Lemma run_job_no_request j c : no_request c (run_job j c).
Proof.
  destruct j as [[i0 outer|outer|r text] [v|e]]; cbn [run_job];
    try apply settle_no_request; try apply send_open_no_request;
    try apply no_request_refl.
  - eapply no_request_trans; [|apply settle_no_request]. by repeat split.
  - destruct v as [[]|]; try apply settle_no_request;
      (eapply no_request_trans; [|apply settle_no_request]);
      unfold no_request, notify, sendMessage, sent_ids; fields;
      rewrite omap_app; cbn; by rewrite app_nil_r.
Qed.

Lemma run_jobs_no_request fuel : forall c c',
  run_jobs fuel c = Some c' -> no_request c c'.
Proof.
  induction fuel as [|fuel IH]; intros c c'; cbn [run_jobs];
    destruct (jobs c) as [|j js] eqn:Hj; try (intros [= <-]; apply no_request_refl);
    try done.
  intros Hrun. eapply no_request_trans; [|apply (IH _ _ Hrun)].
  eapply no_request_trans; [|apply run_job_no_request]. by repeat split.
Qed.

Lemma run_jobs_ends fuel : forall c c',
  run_jobs fuel c = Some c' -> jobs c' = [].
Proof.
  induction fuel as [|fuel IH]; intros c c'; cbn [run_jobs];
    destruct (jobs c) as [|j js] eqn:Hj; try (by intros [= <-]); try done.
  apply IH.
Qed.

Lemma handleMessage_no_request msg c : no_request c (handleMessage msg c).
Proof.
  unfold handleMessage.
  set (c1 := match m_id msg with Some _ => _ | None => _ end).
  assert (H1 : no_request c c1).
  { unfold c1. destruct (m_id msg) as [i|]; [|apply no_request_refl].
    destruct (m_method msg); [apply no_request_refl|].
    destruct (outboundRequests c !! i); [|by repeat split].
    destruct (truthy (m_error msg)); apply settle_no_request. }
  cbv zeta. eapply no_request_trans; [exact H1|]. by repeat split.
Qed.

Lemma receive_no_request msg c c' :
  receive msg c = Some c' -> no_request c c' /\ jobs c' = [].
Proof.
  unfold receive. intros Hrun. split; [|by eapply run_jobs_ends].
  eapply no_request_trans; [apply handleMessage_no_request|].
  by eapply run_jobs_no_request.
Qed.

Lemma only_notifies_refl c : only_notifies c c.
Proof. split; [apply no_request_refl|done]. Qed.

Lemma only_notifies_trans c1 c2 c3 :
  only_notifies c1 c2 -> only_notifies c2 c3 -> only_notifies c1 c3.
Proof.
  intros (H1 & ? & ?) (H2 & ? & ?).
  split; [by eapply no_request_trans|]. split; congruence.
Qed.

Lemma notify_only_notifies m ps c : only_notifies c (notify m ps c).
Proof. split; [apply notify_no_request|done]. Qed.

Lemma send_open_only_notifies r text c : only_notifies c (send_open r text c).
Proof.
  split; [apply send_open_no_request|].
  unfold send_open. by destruct (views c !! r).
Qed.

Lemma sendChange_only_notifies r text c : only_notifies c (sendChange r text c).
Proof.
  split; [apply sendChange_no_request|].
  unfold sendChange. destruct (isOpen c); [|done]. by destruct (views c !! r).
Qed.

Lemma update_only_notifies r changed d c : only_notifies c (update r changed d c).
Proof.
  split; [apply update_no_request|].
  unfold update. destruct changed; cbn [negb].
  - match goal with |- context [sendChange r ?t ?c'] =>
      destruct (sendChange_only_notifies r t c') as (_ & -> & ->) end.
    by destruct (views c !! r).
  - by destruct (views c !! r).
Qed.

Lemma new_LspPlugin_only_notifies u l d c :
  initializePromise c = None -> only_notifies c (new_LspPlugin u l d c).2.
Proof.
  intros Hi. rewrite new_LspPlugin_open by done. cbn [snd].
  split; [|done]. unfold no_request, sent_ids. fields.
  rewrite omap_app. cbn. by rewrite app_nil_r.
Qed.

Lemma only_notifies_invariant c c' :
  only_notifies c c' -> client_invariant c -> client_invariant c'.
Proof.
  intros ((Hid & Hsent & Hinit) & Hjobs & Hmap) ([H0 Hkeys] & [_ Hids] & [Hj Hi]).
  repeat split.
  - by rewrite Hid.
  - rewrite Hmap, Hid. apply Hkeys.
  - by rewrite Hid.
  - by rewrite Hsent, Hid.
  - by rewrite Hjobs.
  - by rewrite Hinit.
Qed.

Lemma request_invariant m ps c :
  client_invariant c -> client_invariant (request m ps c).2.
Proof.
  intros (Hkeys & [H0 Hids] & [Hj Hi]).
  destruct (request_frame m ps c) as (Hid & Hsent & Hjobs & Hinit & _).
  split; [by apply request_keys|]. split; [|split; congruence].
  split; [lia|]. rewrite Hsent, Hid, Hids.
  replace (Z.to_nat (id c + 1)) with (S (Z.to_nat (id c))) by lia.
  rewrite seq_S, map_app. cbn [map Nat.add]. do 3 f_equal. lia.
Qed.

Lemma initialize_keys c : keys_issued c -> keys_issued (initialize c).2.
Proof.
  intros [Hid Hc]. rewrite initialize_spec. cbn [snd]. split; fields; [lia|].
  intros i. destruct (decide (IdNum (id c) = i)) as [<-|Hne].
  - intros _. exists (id c). split; [done|lia].
  - rewrite lookup_insert_ne by done. intros Hi.
    destruct (Hc i Hi) as (k & -> & Hk). exists k. split; [done|lia].
Qed.

Lemma initialize_invariant c :
  client_invariant c -> client_invariant (initialize c).2.
Proof.
  intros (Hkeys & [H0 Hids] & [Hj Hi]).
  destruct (initialize_frame c) as (Hid & Hsent & Hjobs & Hinit & _).
  split; [by apply initialize_keys|]. split; [|split; congruence].
  split; [lia|]. rewrite Hsent, Hid, Hids.
  replace (Z.to_nat (id c + 1)) with (S (Z.to_nat (id c))) by lia.
  rewrite seq_S, map_app. cbn [map Nat.add]. do 3 f_equal. lia.
Qed.

Lemma receive_invariant msg c c' :
  receive msg c = Some c' -> client_invariant c -> client_invariant c'.
Proof.
  intros Hrecv (Hkeys & [H0 Hids] & [Hj Hi]).
  destruct (receive_no_request _ _ _ Hrecv) as [(Hid & Hsent & Hinit) Hjobs].
  split; [by eapply receive_keys|]. split; [|split; congruence].
  split; [by rewrite Hid|]. by rewrite Hsent, Hid.
Qed.

Lemma detachPlugin_invariant autoClose r c :
  client_invariant c -> client_invariant (detachPlugin autoClose r c).
Proof.
  intros Hc. unfold detachPlugin, close.
  destruct (remove_first r (plugins c)) as [rest|]; [|done].
  assert (H1 : client_invariant (set_plugins rest c)).
  { apply (only_notifies_invariant c); [|done]. by repeat split. }
  destruct autoClose; [by apply request_invariant|done].
Qed.

Lemma requestCompletion_begin_invariant r context position kind char c :
  client_invariant c ->
  client_invariant (requestCompletion_begin r context position kind char c).2.
Proof.
  intros Hc. unfold requestCompletion_begin, textDocumentCompletion.
  destruct (isOpen c); cbn [negb]; [|done].
  destruct (capabilities c) as [caps|]; [|done].
  destruct (negb (truthy (get_property (lit "completionProvider") caps)));
    [by destruct caps|].
  assert (H1 : client_invariant
                 (match views c !! r with
                  | Some pl =>
                      let c0 := sendChange r (doc_toString (ctx_doc context)) c in
                      let '(p, c1) :=
                        request (lit "textDocument/completion")
                          (Some (CompletionRequest
                                   {| cp_uri := documentUri pl;
                                      cp_position := position;
                                      cp_triggerKind := kind;
                                      cp_triggerCharacter := char |})) c0 in
                      (Return (Some p), c1)
                  | None => (Throw, c)
                  end).2).
  { destruct (views c !! r) as [pl|]; [|done]. cbv zeta.
    match goal with |- context [request ?m ?ps ?c0] =>
      pose proof (request_invariant m ps c0) as Hr;
      destruct (request m ps c0) as [p c1] end.
    cbn [snd] in *. apply Hr.
    eapply only_notifies_invariant; [apply sendChange_only_notifies|done]. }
  by destruct caps.
Qed.

Lemma completion_source_invariant r context c :
  client_invariant c -> client_invariant (completion_source r context c).2.
Proof.
  intros Hc. unfold completion_source.
  destruct (lineAt (ctx_doc context) (ctx_pos context)) as [l|]; [|done].
  destruct (if ctx_explicit context then _ else _) as [t| |]; [|done|done].
  destruct (if ((if t then TriggerCharacter else Invoked) =? Invoked)%N
            then _ else _) as [[]| |]; try done.
  destruct (offsetToPos (ctx_doc context) (ctx_pos context)); [|done].
  by apply requestCompletion_begin_invariant.
Qed.

(** In every state of a client: the entries of the map of pending requests
    are under ids that were issued, the requests sent carry the numbers
    from 0 on in the order they were sent, and no microtask is left. *)
Lemma reachable_invariant c : reachable c -> client_invariant c.
Proof.
  induction 1 as [root folders|c m ps _ IH|c m ps _ IH|c _ IH|c u l d _ IH
                 |c r t _ IH|c r b d _ IH|c a r _ IH|c r ctx pos k ch _ IH
                 |c r ctx _ IH|c msg c' _ IH Hrecv].
  - repeat split; try done. intros i [x Hx].
    cbn [outboundRequests new_LspClient] in Hx. by rewrite lookup_empty in Hx.
  - by apply request_invariant.
  - eapply only_notifies_invariant; [apply notify_only_notifies|done].
  - by apply initialize_invariant.
  - eapply only_notifies_invariant; [|done].
    apply new_LspPlugin_only_notifies, IH.
  - eapply only_notifies_invariant; [apply sendChange_only_notifies|done].
  - eapply only_notifies_invariant; [apply update_only_notifies|done].
  - by apply detachPlugin_invariant.
  - by apply requestCompletion_begin_invariant.
  - by apply completion_source_invariant.
  - by eapply receive_invariant.
Qed.

Lemma reachable_keys c : reachable c -> keys_issued c.
Proof. intros Hc. by destruct (reachable_invariant c Hc) as (Hk & _). Qed.

(** An id that was never issued has no entry in the map of pending
    requests. *)
Lemma never_issued c i :
  reachable c ->
  (forall k, 0 <= k < id c -> i <> IdNum k) ->
  outboundRequests c !! i = None.
Proof.
  intros Hc Hi. destruct (outboundRequests c !! i) as [x|] eqn:Hx; [|done].
  destruct (reachable_keys c Hc) as [_ Hk].
  destruct (Hk i) as (k & -> & Hrange); [by eexists|].
  by destruct (Hi k Hrange).
Qed.

(** X10.  In every state of a client, a response whose id was never issued
    settles nothing and changes nothing: it only leaves a line on the
    console. *)
Theorem stray_response_reported (c : LspClient) (msg : JsonRpcMessage)
    (i : JsonRpcId) :
  reachable c ->
  m_id msg = Some i -> m_method msg = None ->
  (forall k, 0 <= k < id c -> i <> IdNum k) ->
  receive msg c = Some (set_console (console c ++ [lit "Got non-answer"]) c).
Proof.
  intros Hc Hid Hmeth Hi.
  destruct (reachable_invariant c Hc) as (_ & _ & [Hj _]).
  apply (receive_stray c i); [done|done|done|].
  by apply never_issued.
Qed.

Lemma stray_response_reported_witness :
  let c := (request (lit "textDocument/hover") None
              (new_LspClient (lit "file:///") [])).2 in
  let msg := {| m_id := Some (IdStr (lit "0")); m_method := None;
                m_params := None; m_result := Some JNull; m_error := None |} in
  receive msg c = Some (set_console (console c ++ [lit "Got non-answer"]) c).
Proof.
  intros c msg.
  apply (stray_response_reported c msg (IdStr (lit "0"))).
  - apply reach_request, reach_new.
  - reflexivity.
  - reflexivity.
  - intros k _. discriminate.
Defined.

(** X11.  In every state of a client, the requests sent carry the ids 0, 1,
    2, ... in the order they were sent, up to the counter of the client:
    no two requests share an id, and no notification carries one. *)
Theorem request_ids_in_order (c : LspClient) :
  reachable c ->
  sent_ids c = map (fun k => IdNum (Z.of_nat k)) (seq 0 (Z.to_nat (id c)))
  /\ NoDup (sent_ids c)
  /\ 0 <= id c.
Proof.
  intros Hc. destruct (reachable_invariant c Hc) as (_ & [H0 Hids] & _).
  split; [done|]. split; [|done]. rewrite Hids.
  apply NoDup_fmap_2; [|apply NoDup_seq].
  intros a b [= E]. lia.
Qed.

Lemma request_ids_in_order_witness :
  let c0 := new_LspClient (lit "file:///") [] in
  let c1 := (initialize c0).2 in
  let c2 := (new_LspPlugin (lit "file:///main.zig") (lit "zig")
               {| first_line := lit "a"; more_lines := [] |} c1).2 in
  let c3 := (request (lit "textDocument/hover") None c2).2 in
  sent_ids c3 = [IdNum 0; IdNum 1] /\ length (outbox c3) = 3%nat.
Proof.
  intros c0 c1 c2 c3. split; [|vm_compute; reflexivity].
  destruct (request_ids_in_order c3) as (Hids & _ & _).
  - apply reach_request, reach_plugin, reach_initialize, reach_new.
  - rewrite Hids. vm_compute. reflexivity.
Defined.

(** ** Diagnostics for the plugins *)

Lemma handleDiagnostics_twice ps pl :
  handleDiagnostics ps (handleDiagnostics ps pl) = handleDiagnostics ps pl.
Proof.
  unfold handleDiagnostics.
  destruct (negb (eqb_string (uri ps) (documentUri pl))) eqn:E; rewrite ?E; [done|].
  cbn [documentUri languageId documentVersion doc shown]. by rewrite E.
Qed.

Lemma fan_out_diagnostics msg ps refs : forall v r,
  m_method msg = Some (lit "textDocument/publishDiagnostics") ->
  m_params msg = Some (PublishDiagnostics ps) ->
  fan_out msg refs v !! r
  = if bool_decide (r ∈ refs) then handleDiagnostics ps <$> v !! r else v !! r.
Proof.
  intros v r Hm Hp. revert v.
  assert (Hpl : forall pl, plugin_handleMessage msg pl = handleDiagnostics ps pl).
  { intros pl. unfold plugin_handleMessage. by rewrite Hm, Hp. }
  induction refs as [|r0 refs IH]; intros v; [done|].
  cbn [fan_out]. rewrite IH.
  destruct (decide (r = r0)) as [->|Hne].
  - rewrite (bool_decide_eq_true_2 (r0 ∈ r0 :: refs)) by (apply elem_of_cons; by left).
    destruct (v !! r0) as [pl|] eqn:Hv.
    + rewrite lookup_insert_eq, Hpl. cbn [fmap option_fmap option_map].
      rewrite handleDiagnostics_twice. by destruct (bool_decide (r0 ∈ refs)).
    + rewrite Hv. by destruct (bool_decide (r0 ∈ refs)).
  - assert (Hv : match v !! r0 with
                 | Some pl => <[r0 := plugin_handleMessage msg pl]> v
                 | None => v
                 end !! r = v !! r).
    { destruct (v !! r0); [by rewrite lookup_insert_ne|done]. }
    rewrite Hv.
    destruct (bool_decide_reflect (r ∈ refs)) as [Hin|Hnin].
    + by rewrite bool_decide_eq_true_2 by (apply elem_of_cons; by right).
    + rewrite bool_decide_eq_false_2; [done|].
      intros [?|?]%elem_of_cons; done.
Qed.

(** X12.  A notification of diagnostics is handed to every plugin that is
    attached, and each plugin takes it or leaves it by its own uri; the
    plugins that are not attached keep what they show, and nothing else of
    the client changes: no request is settled, nothing is sent, no line
    goes to the console. *)
Theorem diagnostics_reach_attached_plugins (c : LspClient)
    (msg : JsonRpcMessage) (ps : PublishDiagnosticsParams) :
  jobs c = [] ->
  m_method msg = Some (lit "textDocument/publishDiagnostics") ->
  m_params msg = Some (PublishDiagnostics ps) ->
  exists v,
    receive msg c = Some (set_views v c)
    /\ forall r,
         v !! r = if bool_decide (r ∈ plugins c)
                  then handleDiagnostics ps <$> views c !! r
                  else views c !! r.
Proof.
  intros Hj Hm Hp. exists (fan_out msg (plugins c) (views c)).
  split; [|intros r; by apply fan_out_diagnostics].
  unfold receive, handleMessage. rewrite Hm.
  assert (Hc1 : match m_id msg with Some _ | _ => c end = c)
    by by destruct (m_id msg).
  rewrite Hc1. by rewrite run_jobs_done.
Qed.

Lemma diagnostics_reach_attached_plugins_witness :
  let d := {| first_line := lit "abc"; more_lines := [lit "de"] |} in
  let c0 := open_client in
  let c1 := (new_LspPlugin (lit "file:///a.zig") (lit "zig") d c0).2 in
  let c2 := (new_LspPlugin (lit "file:///b.zig") (lit "zig") d c1).2 in
  let at_ (l ch : N) := {| p_line := l; p_character := ch |} in
  let ps := {| uri := lit "file:///b.zig";
               diagnostics :=
                 [ {| range := {| r_start := at_ 1%N 0%N; r_end := at_ 1%N 2%N |};
                      message := lit "second";
                      severity := Some DiagnosticSeverity.Hint |};
                   {| range := {| r_start := at_ 0%N 1%N; r_end := at_ 0%N 2%N |};
                      message := lit "first"; severity := None |} ] |} in
  exists v,
    receive (publishDiagnostics_message ps) c2 = Some (set_views v c2)
    /\ shown <$> v !! 0%nat = Some []
    /\ shown <$> v !! 1%nat
       = Some [ {| from := Some 1%N; to := Some 2%N; d_severity := None;
                   d_message := lit "first" |};
                {| from := Some 4%N; to := Some 6%N;
                   d_severity := Some Severity.info;
                   d_message := lit "second" |} ].
Proof.
  intros d c0 c1 c2 at_ ps.
  destruct (diagnostics_reach_attached_plugins c2 (publishDiagnostics_message ps) ps)
    as (v & Hrun & Hv).
  - vm_compute. reflexivity.
  - reflexivity.
  - reflexivity.
  - exists v. split; [exact Hrun|].
    rewrite (Hv 0%nat), (Hv 1%nat). split; vm_compute; reflexivity.
Defined.

(** ** The handshake *)

Lemma run_jobs_agree n : forall m c a b,
  run_jobs n c = Some a -> run_jobs m c = Some b -> a = b.
Proof.
  induction n as [|n IH]; intros [|m] c a b; cbn [run_jobs];
    destruct (jobs c) as [|j js]; try congruence.
  apply IH.
Qed.

Lemma set_jobs_same c : jobs c = [] -> set_jobs [] c = c.
Proof. destruct c. cbn. by intros ->. Qed.

Lemma send_open_outbox r text c :
  send_open r text c
  = set_outbox (outbox c ++ option_list (open_of (views c) (r, text))) c.
Proof.
  unfold send_open, open_of, textDocumentDidOpen, notify, sendMessage.
  cbn [fst snd]. destruct (views c !! r) as [pl|]; [done|].
  cbn. rewrite app_nil_r. by destruct c.
Qed.

Lemma foldl_send_open rts : forall c,
  foldl (fun c rt => send_open rt.1 rt.2 c) c rts
  = set_outbox (outbox c ++ omap (open_of (views c)) rts) c.
Proof.
  induction rts as [|[r t] rts IH]; intros c.
  - cbn. rewrite app_nil_r. by destruct c.
  - cbn [foldl fst snd]. rewrite IH, send_open_outbox. fields.
    change (omap (open_of (views c)) ((r, t) :: rts))
      with (match open_of (views c) (r, t) with
            | Some y => y :: omap (open_of (views c)) rts
            | None => omap (open_of (views c)) rts
            end).
    destruct (open_of (views c) (r, t)); cbn [option_list];
      rewrite <- ?app_assoc; cbn [app]; [done|].
    by rewrite app_nil_r.
Qed.

(** The jobs of the plugins that waited for the handshake. *)
Lemma run_jobs_opens v rts : forall n c,
  jobs c = map (fun rt => (ResumeInitialize rt.1 rt.2, Fulfilled v)) rts ->
  (length rts <= n)%nat ->
  run_jobs n c
  = Some (foldl (fun c rt => send_open rt.1 rt.2 c) (set_jobs [] c) rts).
Proof.
  induction rts as [|[r t] rts IH]; intros n c Hj Hn.
  - cbn [foldl]. rewrite run_jobs_done, set_jobs_same by done. done.
  - destruct n as [|n]; [cbn in Hn; lia|]. cbn [run_jobs]. rewrite Hj.
    cbn [map fst snd run_job foldl].
    rewrite (IH n); [|by rewrite send_open_outbox|cbn in Hn; lia].
    f_equal. f_equal. rewrite !send_open_outbox. by destruct c.
Qed.

Lemma run_jobs_no_opens e rts : forall n c,
  jobs c = map (fun rt => (ResumeInitialize rt.1 rt.2, Rejected e)) rts ->
  (length rts <= n)%nat ->
  run_jobs n c = Some (set_jobs [] c).
Proof.
  induction rts as [|[r t] rts IH]; intros n c Hj Hn.
  - rewrite run_jobs_done, set_jobs_same by done. done.
  - destruct n as [|n]; [cbn in Hn; lia|]. cbn [run_jobs]. rewrite Hj.
    cbn [map fst snd run_job]. rewrite (IH n); [done|done|cbn in Hn; lia].
Qed.

Lemma settle_pending p s c rs :
  promises c !! p = Some (Pending rs) ->
  settle p s c
  = set_jobs (jobs c ++ map (fun r => (r, s)) rs)
      (set_promises (<[p := Settled s]> (promises c)) c).
Proof. intros H. unfold settle. by rewrite H. Qed.

(** The response to [initialize], the client waiting for it and the
    plugins [rts] waiting for the client. *)
Lemma handshake_response c i p f o rts msg :
  jobs c = [] ->
  outboundRequests c !! i = Some {| or_promise := p |} ->
  promises c !! p = Some (Pending [ResumeRequest i f]) ->
  promises c !! f = Some (Pending [ResumeClientInitialize o]) ->
  promises c !! o
  = Some (Pending (map (fun rt => ResumeInitialize rt.1 rt.2) rts)) ->
  m_id msg = Some i -> m_method msg = None ->
  receive msg c
  = Some
      match settlement_of msg with
      | Rejected e =>
          set_promises (<[o := Settled (Rejected e)]>
                          (<[f := Settled (Rejected e)]>
                             (<[p := Settled (Rejected e)]> (promises c)))) c
      | Fulfilled v =>
          let h := <[f := Settled (Fulfilled v)]>
                     (<[p := Settled (Fulfilled v)]> (promises c)) in
          let c1 := set_outboundRequests (delete i (outboundRequests c)) c in
          match v with
          | None | Some JNull =>
              set_promises (<[o := Settled (Rejected None)]> h) c1
          | Some r =>
              set_outbox
                (outbox c ++ initialized_message :: omap (open_of (views c)) rts)
                (set_isOpen true
                   (set_capabilities (get_property (lit "capabilities") r)
                      (set_promises (<[o := Settled (Fulfilled None)]> h) c1)))
          end
      end.
Proof.
  intros Hj Hmap Hp Hf Ho Hid Hmeth.
  assert (Hpf : p <> f) by (intros ->; congruence).
  assert (Hpo : p <> o).
  { intros ->. rewrite Hp in Ho. by destruct rts. }
  assert (Hfo : f <> o).
  { intros ->. rewrite Hf in Ho. by destruct rts. }
  destruct (receive_total msg c) as [c' Hrecv]. rewrite Hrecv. f_equal.
  unfold receive in Hrecv.
  apply (run_jobs_agree _ (2 + length rts) _ _ _ Hrecv). clear Hrecv c'.
  set (s := settlement_of msg).
  assert (Hh : handleMessage msg c
               = set_jobs [(ResumeRequest i f, s)]
                   (set_promises (<[p := Settled s]> (promises c)) c)).
  { unfold handleMessage, s, settlement_of. rewrite Hid, Hmeth, Hmap.
    cbn [or_promise].
    destruct (truthy (m_error msg)); rewrite (settle_pending _ _ _ _ Hp), Hj;
      fields; rewrite fan_out_response by done; by destruct c. }
  rewrite Hh. clear Hh. cbn [Nat.add run_jobs]. fields.
  destruct s as [v|e]; cbn [run_job]; fields.
  - rewrite (settle_pending f _ _ [ResumeClientInitialize o])
      by (fields; by rewrite lookup_insert_ne).
    fields. cbn [app map run_job].
    destruct v as [[]|];
      rewrite (settle_pending o _ _ (map (fun rt => ResumeInitialize rt.1 rt.2) rts))
        by (unfold notify, sendMessage; fields; by rewrite !lookup_insert_ne);
      unfold notify, sendMessage; fields; cbn [app];
      rewrite map_map; cbn [fst snd];
      try (rewrite (run_jobs_opens None rts); [|done|done]);
      try (rewrite (run_jobs_no_opens None rts); [|done|done]);
      rewrite ?foldl_send_open; fields; f_equal;
      destruct c; cbn in *; subst; try reflexivity.
    all: rewrite <- ?app_assoc; reflexivity.
  - rewrite (settle_pending f _ _ [ResumeClientInitialize o])
      by (fields; by rewrite lookup_insert_ne).
    fields. cbn [app map run_job].
    rewrite (settle_pending o _ _ (map (fun rt => ResumeInitialize rt.1 rt.2) rts))
      by (fields; by rewrite !lookup_insert_ne).
    fields. cbn [app]. rewrite map_map. cbn [fst snd].
    rewrite (run_jobs_no_opens e rts); [|done|done].
    f_equal. destruct c; cbn in *; subst; reflexivity.
Qed.

(** The state [initialize] leaves: the request waits, and the call waits
    for the request. *)
Lemma initialize_waits c :
  let o := (initialize c).1 in
  let c1 := (initialize c).2 in
  exists p f,
    outboundRequests c1 !! IdNum (id c) = Some {| or_promise := p |}
    /\ promises c1 !! p = Some (Pending [ResumeRequest (IdNum (id c)) f])
    /\ promises c1 !! f = Some (Pending [ResumeClientInitialize o])
    /\ promises c1 !! o = Some (Pending [])
    /\ outbox c1 = outbox c ++ [initialize_message c]
    /\ jobs c1 = jobs c /\ isOpen c1 = isOpen c
    /\ capabilities c1 = capabilities c /\ views c1 = views c
    /\ plugins c1 = plugins c.
Proof.
  rewrite initialize_spec. cbn [fst snd]. fields.
  set (o := fresh (dom (promises c))).
  set (h0 := <[o := Pending []]> (promises c)).
  set (f := fresh (dom h0)).
  set (p := fresh (dom (<[f := Pending []]> h0))).
  assert (Hf : h0 !! f = None) by apply (not_elem_of_dom (D := gset nat)), is_fresh.
  assert (Hp : (<[f := Pending []]> h0) !! p = None)
    by apply (not_elem_of_dom (D := gset nat)), is_fresh.
  assert (Hpf : p <> f).
  { intros E. rewrite E, lookup_insert_eq in Hp. done. }
  assert (Hfo : f <> o).
  { intros E. unfold h0 in Hf. rewrite E, lookup_insert_eq in Hf. done. }
  assert (Hpo : p <> o).
  { intros E. rewrite lookup_insert_ne in Hp by done.
    unfold h0 in Hp. rewrite E, lookup_insert_eq in Hp. done. }
  exists p, f. repeat split.
  - apply lookup_insert_eq.
  - rewrite lookup_insert_ne by done. apply lookup_insert_eq.
  - apply lookup_insert_eq.
  - rewrite !lookup_insert_ne by done. apply lookup_insert_eq.
Qed.

(** X13.  The handshake.  [initialize] sends its request and leaves the
    client closed.  The response opens the client only when it carries a
    result that is an object or another value but [null]: the client then
    records the [capabilities] of the result (none when the result has no
    such member), sends [initialized] and resolves the call.  A response
    with an error rejects the call with the error, and keeps the entry of
    the request; a response whose result is absent or [null] rejects the
    call with a [TypeError]; in both cases the client stays as closed as it
    was and sends nothing. *)
Theorem initialize_handshake (c : LspClient) (msg : JsonRpcMessage) :
  let o := (initialize c).1 in
  let c1 := (initialize c).2 in
  jobs c = [] ->
  m_id msg = Some (IdNum (id c)) -> m_method msg = None ->
  outbox c1 = outbox c ++ [initialize_message c]
  /\ isOpen c1 = isOpen c
  /\ exists c2,
       receive msg c1 = Some c2
       /\ jobs c2 = []
       /\ match settlement_of msg with
          | Rejected e =>
              isOpen c2 = isOpen c /\ capabilities c2 = capabilities c
              /\ outbox c2 = outbox c1
              /\ promises c2 !! o = Some (Settled (Rejected e))
              /\ is_Some (outboundRequests c2 !! IdNum (id c))
          | Fulfilled None | Fulfilled (Some JNull) =>
              isOpen c2 = isOpen c /\ capabilities c2 = capabilities c
              /\ outbox c2 = outbox c1
              /\ promises c2 !! o = Some (Settled (Rejected None))
              /\ outboundRequests c2 !! IdNum (id c) = None
          | Fulfilled (Some r) =>
              isOpen c2 = true
              /\ capabilities c2 = get_property (lit "capabilities") r
              /\ outbox c2 = outbox c1 ++ [initialized_message]
              /\ promises c2 !! o = Some (Settled (Fulfilled None))
              /\ outboundRequests c2 !! IdNum (id c) = None
          end.
Proof.
  intros o c1 Hj Hid Hmeth.
  destruct (initialize_waits c)
    as (p & f & Hmap & Hp & Hf & Ho & Hout & Hjobs & Hopen & Hcaps & _).
  fold o c1 in Hmap, Hp, Hf, Ho, Hout, Hjobs, Hopen, Hcaps.
  split; [done|]. split; [done|].
  eexists. split.
  { apply (handshake_response c1 (IdNum (id c)) p f o []); try done. congruence. }
  destruct (settlement_of msg) as [[[]|]|e]; fields; cbn [omap list_omap];
    rewrite ?lookup_insert_eq, ?lookup_delete_eq, ?Hmap;
    repeat split; try done; try congruence; by eexists.
Qed.

Lemma initialize_handshake_witness :
  let c := new_LspClient (lit "file:///") [] in
  let c1 := (initialize c).2 in
  let caps := JObject [(lit "completionProvider", JObject [])] in
  let msg := {| m_id := Some (IdNum 0); m_method := None; m_params := None;
                m_result := Some (JObject [(lit "capabilities", caps)]);
                m_error := None |} in
  exists c2,
    receive msg c1 = Some c2
    /\ isOpen c2 = true
    /\ capabilities c2 = Some caps
    /\ outbox c2 = [initialize_message c; initialized_message].
Proof.
  intros c c1 caps msg.
  destruct (initialize_handshake c msg) as (Hout & _ & c2 & Hrun & _ & Hc2).
  - reflexivity.
  - reflexivity.
  - reflexivity.
  - exists c2. split; [exact Hrun|].
    change (settlement_of msg) with (Fulfilled (m_result msg)) in Hc2.
    lazy beta iota delta [m_result msg] in Hc2.
    destruct Hc2 as (Ho & Hcaps & Hout2 & _).
    split; [exact Ho|]. split; [exact Hcaps|].
    rewrite Hout2, Hout. reflexivity.
Defined.

(** ** Plugins and the handshake *)

(** While the client is closed an update changes the document the plugin
    looks at, and nothing else. *)
Lemma updates_closed r edits : forall c pl,
  isOpen c = false -> views c !! r = Some pl ->
  exists v pl',
    foldl (fun c (e : bool * Text) => update r e.1 e.2 c) c edits = set_views v c
    /\ v !! r = Some pl'
    /\ documentUri pl' = documentUri pl
    /\ languageId pl' = languageId pl
    /\ documentVersion pl' = documentVersion pl.
Proof.
  induction edits as [|[b d] edits IH]; intros c pl Ho Hv.
  - exists (views c), pl. cbn [foldl]. split; [by destruct c|done].
  - cbn [foldl fst snd].
    set (pl1 := {| documentUri := documentUri pl; languageId := languageId pl;
                   documentVersion := documentVersion pl; doc := d;
                   shown := shown pl |}).
    assert (Hu : update r b d c = set_views (<[r := pl1]> (views c)) c).
    { unfold update. rewrite Hv. fold pl1.
      destruct b; cbn [negb]; [|done]. by apply sendChange_closed. }
    rewrite Hu.
    destruct (IH (set_views (<[r := pl1]> (views c)) c) pl1)
      as (v & pl' & Hfold & Hr & Huri & Hlang & Hver);
      [done|apply lookup_insert_eq|].
    exists v, pl'. rewrite Hfold. split; [done|]. by repeat split.
Qed.

(** X14.  A plugin made for a client that is not open yet, the client
    holding no handshake promise (the source never stores one): the
    document is opened at once, with version 0, before any handshake;
    while the client is not open the updates of the view send nothing and
    leave the version at 0; and once the client is open, the first update
    in which the document changed sends the whole text of the document as
    it then is, under version 0, so that the server sees the edits made
    meanwhile only then. *)
Theorem updates_before_open_send_nothing (c : LspClient) (u l : JSString)
    (d : Text) (edits : list (bool * Text)) :
  let r := (new_LspPlugin u l d c).1 in
  let c1 := (new_LspPlugin u l d c).2 in
  let c2 := foldl (fun c (e : bool * Text) => update r e.1 e.2 c) c1 edits in
  isOpen c = false -> initializePromise c = None ->
  outbox c1 = outbox c ++ [didOpen_message u l (doc_toString d) 0]
  /\ outbox c2 = outbox c1
  /\ version_of r c2 = Some 0
  /\ isOpen c2 = false
  /\ forall c3 d',
       isOpen c3 = true -> views c3 !! r = views c2 !! r ->
       outbox (update r true d' c3)
       = outbox c3 ++ [didChange_message u 0 (doc_toString d')]
       /\ version_of r (update r true d' c3) = Some 1.
Proof.
  intros r c1 c2 Ho Hi. subst r c1 c2.
  rewrite new_LspPlugin_open by done. cbn [fst snd].
  set (r := fresh (dom (views c))).
  set (c1 := set_outbox _ _).
  split; [done|].
  edestruct (updates_closed r edits c1) as (v & pl' & Hfold & Hr & Huri & _ & Hver);
    [done|apply lookup_insert_eq|].
  cbn [documentVersion documentUri] in Hver, Huri.
  rewrite Hfold. unfold version_of. fields. rewrite Hr.
  split; [done|]. split; [by rewrite <- Hver|]. split; [done|].
  intros c3 d' Ho3 Hv3.
  set (pl1 := {| documentUri := documentUri pl'; languageId := languageId pl';
                 documentVersion := documentVersion pl'; doc := d';
                 shown := shown pl' |}).
  assert (Hu : update r true d' c3
               = sendChange r (doc_toString d')
                   (set_views (<[r := pl1]> (views c3)) c3)).
  { unfold update. by rewrite Hv3. }
  rewrite Hu.
  destruct (sendChange_open r (doc_toString d')
              (set_views (<[r := pl1]> (views c3)) c3) pl1)
    as (Hout & Hviews & _); [done|apply lookup_insert_eq|].
  rewrite Hout, Hviews, lookup_insert_eq. unfold pl1.
  cbn [documentUri documentVersion fmap option_fmap option_map].
  rewrite Huri, Hver. fields. done.
Qed.

Lemma updates_before_open_send_nothing_witness :
  let c := (initialize (new_LspClient (lit "file:///") [])).2 in
  let u := lit "file:///main.zig" in
  let d0 := {| first_line := lit "a"; more_lines := [] |} in
  let d1 := {| first_line := lit "ab"; more_lines := [] |} in
  let r := (new_LspPlugin u (lit "zig") d0 c).1 in
  let c1 := (new_LspPlugin u (lit "zig") d0 c).2 in
  let c2 := foldl (fun c (e : bool * Text) => update r e.1 e.2 c) c1
              [(true, d1)] in
  outbox c1 = outbox c ++ [didOpen_message u (lit "zig") (doc_toString d0) 0]
  /\ outbox c2 = outbox c1
  /\ version_of r c2 = Some 0
  /\ isOpen c2 = false
  /\ outbox (update r true d1 (set_isOpen true c2))
     = outbox (set_isOpen true c2) ++ [didChange_message u 0 (doc_toString d1)].
Proof.
  intros c u d0 d1 r c1 c2.
  destruct (updates_before_open_send_nothing c u (lit "zig") d0 [(true, d1)])
    as (H1 & H2 & H3 & H4 & H5); [vm_compute; reflexivity..|].
  split; [exact H1|]. split; [exact H2|]. split; [exact H3|]. split; [exact H4|].
  apply (H5 (set_isOpen true c2) d1); reflexivity.
Defined.

(** X15.  A plugin made while the handshake is under way, the client
    holding the promise of its [initialize]: nothing is sent for the
    document until the response arrives.  A response that opens the client
    is followed by [initialized] and then by the notification that opens
    the document, with the text the document had when the plugin was made
    and version 0, whatever was edited meanwhile; after a response that
    does not open the client the document is never opened. *)
Theorem plugin_waits_for_handshake (c : LspClient) (u l : JSString) (d : Text)
    (edits : list (bool * Text)) (msg : JsonRpcMessage) :
  let o := (initialize c).1 in
  let c1 := set_initializePromise (Some o) (initialize c).2 in
  let r := (new_LspPlugin u l d c1).1 in
  let c2 := (new_LspPlugin u l d c1).2 in
  let c3 := foldl (fun c (e : bool * Text) => update r e.1 e.2 c) c2 edits in
  jobs c = [] -> isOpen c = false ->
  m_id msg = Some (IdNum (id c)) -> m_method msg = None ->
  outbox c3 = outbox c ++ [initialize_message c]
  /\ exists c4,
       receive msg c3 = Some c4
       /\ match settlement_of msg with
          | Rejected _ | Fulfilled None | Fulfilled (Some JNull) =>
              outbox c4 = outbox c3 /\ isOpen c4 = false
          | Fulfilled (Some _) =>
              outbox c4
              = outbox c3 ++ [initialized_message;
                              didOpen_message u l (doc_toString d) 0]
              /\ isOpen c4 = true
          end.
Proof.
  intros o c1 r c2 c3 Hj Hopen Hid Hmeth. subst c3 c2 r c1 o.
  pose proof (initialize_waits c) as Hw. cbv zeta in Hw.
  destruct (initialize c) as [o ci]. cbn [fst snd] in *.
  destruct Hw as (p & f & Hmap & Hp & Hf & Ho & Hout & Hjobs & Hopen1 & _).
  assert (Hpo : p <> o) by (intros ->; congruence).
  assert (Hfo : f <> o) by (intros ->; congruence).
  set (pl := {| documentUri := u; languageId := l; documentVersion := 0;
                doc := d; shown := [] |}).
  assert (Hnew : exists r v0,
             v0 !! r = Some pl
             /\ new_LspPlugin u l d (set_initializePromise (Some o) ci)
                = (r, set_promises
                        (<[o := Pending [ResumeInitialize r (doc_toString d)]]>
                           (promises ci))
                        (set_plugins (plugins ci ++ [r])
                           (set_views v0 (set_initializePromise (Some o) ci))))).
  { eexists _, _. split; [apply lookup_insert_eq|].
    unfold new_LspPlugin, plugin_initialize, attachPlugin, await,
      set_initializePromise. fields. rewrite Ho. reflexivity. }
  destruct Hnew as (r & v0 & Hv0 & Hnew). rewrite Hnew. cbn [fst snd]. clear Hnew.
  set (c2 := set_promises _ _).
  assert (Hc2 : jobs c2 = [] /\ isOpen c2 = false
                /\ views c2 = v0
                /\ outbox c2 = outbox c ++ [initialize_message c]
                /\ outboundRequests c2 = outboundRequests ci
                /\ promises c2
                   = <[o := Pending [ResumeInitialize r (doc_toString d)]]>
                       (promises ci)).
  { unfold c2, set_initializePromise. fields.
    repeat split; try done; congruence. }
  clearbody c2. destruct Hc2 as (Hj2 & Ho2 & Hv2 & Hout2 & Hmap2 & Hh2).
  destruct (updates_closed r edits c2 pl)
    as (v & pl' & Hfold & Hr & Huri & Hlang & Hver); [done|by rewrite Hv2|].
  rewrite Hfold. clear Hfold. fields.
  split; [exact Hout2|].
  assert (Hp3 : promises (set_views v c2) !! p
                = Some (Pending [ResumeRequest (IdNum (id c)) f])).
  { fields. rewrite Hh2, lookup_insert_ne by done. exact Hp. }
  assert (Hf3 : promises (set_views v c2) !! f
                = Some (Pending [ResumeClientInitialize o])).
  { fields. rewrite Hh2, lookup_insert_ne by done. exact Hf. }
  assert (Ho3 : promises (set_views v c2) !! o
                = Some (Pending (map (fun rt : nat * JSString =>
                                        ResumeInitialize rt.1 rt.2)
                                   [(r, doc_toString d)]))).
  { fields. rewrite Hh2. cbn [map fst snd]. apply lookup_insert_eq. }
  assert (Hmap3 : outboundRequests (set_views v c2) !! IdNum (id c)
                  = Some {| or_promise := p |}).
  { fields. rewrite Hmap2. exact Hmap. }
  pose proof (handshake_response (set_views v c2) _ _ _ _ _ msg
                Hj2 Hmap3 Hp3 Hf3 Ho3 Hid Hmeth) as Hrun.
  eexists. split; [exact Hrun|]. clear Hrun.
  assert (Hopen_of : omap (open_of v) [(r, doc_toString d)]
                     = [didOpen_message u l (doc_toString d) 0]).
  { change (omap (open_of v) [(r, doc_toString d)])
      with (match open_of v (r, doc_toString d) with
            | Some y => [y] | None => [] end).
    unfold open_of. cbn [fst snd]. rewrite Hr. cbn [fmap option_fmap option_map].
    by rewrite Huri, Hlang, Hver. }
  destruct (settlement_of msg) as [[[]|]|e]; fields; rewrite ?Hopen_of;
    split; try done.
Qed.

Lemma plugin_waits_for_handshake_witness :
  let c := new_LspClient (lit "file:///") [] in
  let u := lit "file:///main.zig" in
  let o := (initialize c).1 in
  let c1 := set_initializePromise (Some o) (initialize c).2 in
  let d0 := {| first_line := lit "a"; more_lines := [] |} in
  let d1 := {| first_line := lit "ab"; more_lines := [] |} in
  let r := (new_LspPlugin u (lit "zig") d0 c1).1 in
  let c2 := (new_LspPlugin u (lit "zig") d0 c1).2 in
  let c3 := foldl (fun c (e : bool * Text) => update r e.1 e.2 c) c2
              [(true, d1)] in
  let msg := {| m_id := Some (IdNum 0); m_method := None; m_params := None;
                m_result := Some (JObject [(lit "capabilities", JObject [])]);
                m_error := None |} in
  outbox c3 = outbox c ++ [initialize_message c]
  /\ exists c4,
       receive msg c3 = Some c4
       /\ outbox c4
          = outbox c3 ++ [initialized_message;
                          didOpen_message u (lit "zig") (doc_toString d0) 0]
       /\ isOpen c4 = true.
Proof.
  intros c u o c1 d0 d1 r c2 c3 msg.
  destruct (plugin_waits_for_handshake c u (lit "zig") d0 [(true, d1)] msg)
    as (Hout & c4 & Hrun & Hc4); [reflexivity..|].
  split; [exact Hout|]. exists c4. split; [exact Hrun|].
  change (settlement_of msg) with (Fulfilled (m_result msg)) in Hc4.
  lazy beta iota delta [m_result msg] in Hc4. exact Hc4.
Defined.

(** ** Messages that are no responses *)

Lemma fan_out_other msg refs : forall v,
  (forall pl, plugin_handleMessage msg pl = pl) -> fan_out msg refs v = v.
Proof.
  intros v H. revert v. induction refs as [|r refs IH]; intros v; [done|].
  cbn [fan_out]. destruct (v !! r) as [pl|] eqn:Hr; [|apply IH].
  rewrite H, insert_id by done. apply IH.
Qed.

(** X16.  A request of the server, or a notification that is not one of
    diagnostics, changes nothing in the client: no pending request is
    settled, no line goes to the console, and nothing is sent back, so a
    request of the server is never answered. *)
Theorem server_requests_unanswered (c : LspClient) (msg : JsonRpcMessage)
    (m : JSString) :
  jobs c = [] ->
  m_method msg = Some m ->
  m <> lit "textDocument/publishDiagnostics" ->
  receive msg c = Some c.
Proof.
  intros Hj Hm Hne. unfold receive, handleMessage. rewrite Hm.
  assert (Hc1 : match m_id msg with Some _ | _ => c end = c)
    by by destruct (m_id msg).
  rewrite Hc1, fan_out_other.
  - replace (set_views (views c) c) with c by by destruct c.
    by apply run_jobs_done.
  - intros pl. unfold plugin_handleMessage, eqb_string. rewrite Hm.
    by rewrite bool_decide_eq_false_2.
Qed.

Lemma server_requests_unanswered_witness :
  let c := open_client in
  let msg := {| m_id := Some (IdNum 0);
                m_method := Some (lit "workspace/configuration");
                m_params := Some (OtherParams (JObject [(lit "items", JArray [])]));
                m_result := None; m_error := None |} in
  receive msg c = Some c.
Proof.
  intros c msg.
  apply (server_requests_unanswered c msg (lit "workspace/configuration")).
  - vm_compute. reflexivity.
  - reflexivity.
  - vm_compute. discriminate.
Defined.

(** ** Plugins that leave *)

Lemma remove_first_split r before after :
  r ∉ before -> remove_first r (before ++ r :: after) = Some (before ++ after).
Proof.
  induction before as [|x before IH]; intros Hnin; cbn [app remove_first].
  - by rewrite bool_decide_eq_true_2.
  - apply not_elem_of_cons in Hnin as [Hne Hnin].
    rewrite bool_decide_eq_false_2 by done. by rewrite IH.
Qed.

Lemma remove_first_absent r a : r ∉ a -> remove_first r a = None.
Proof.
  induction a as [|x a IH]; intros Hnin; [done|]. cbn [remove_first].
  apply not_elem_of_cons in Hnin as [Hne Hnin].
  rewrite bool_decide_eq_false_2 by done. by rewrite IH.
Qed.

(** X17.  A plugin that is attached and leaves: it is taken from the list
    of the plugins, at its first place, and with [autoClose] the client
    at once sends the request [shutdown] under a new id, whether other
    plugins stay attached or not; without [autoClose] nothing is sent.
    A plugin that is not attached leaves the client as it is. *)
Theorem detachPlugin_shuts_down (c : LspClient) (r : nat)
    (before after : list nat) :
  plugins c = before ++ r :: after -> r ∉ before ->
  let c' := detachPlugin true r c in
  plugins c' = before ++ after
  /\ outbox c'
     = outbox c ++ [ {| m_id := Some (IdNum (id c));
                        m_method := Some (lit "shutdown"); m_params := None;
                        m_result := None; m_error := None |} ]
  /\ is_Some (outboundRequests c' !! IdNum (id c))
  /\ views c' = views c
  /\ detachPlugin false r c = set_plugins (before ++ after) c
  /\ forall autoClose r', r' ∉ plugins c -> detachPlugin autoClose r' c = c.
Proof.
  intros Hpl Hnin c'. unfold c', detachPlugin, close.
  rewrite Hpl, (remove_first_split r before after Hnin).
  rewrite request_spec. cbn [snd]. fields.
  repeat split; try done.
  - rewrite lookup_insert_eq. by eexists.
  - intros a r' Hr'. by rewrite remove_first_absent.
Qed.

Lemma detachPlugin_shuts_down_witness :
  let d := {| first_line := lit "a"; more_lines := [] |} in
  let c1 := (new_LspPlugin (lit "file:///a.zig") (lit "zig") d open_client).2 in
  let c2 := (new_LspPlugin (lit "file:///b.zig") (lit "zig") d c1).2 in
  let c' := detachPlugin true 0%nat c2 in
  plugins c' = [] ++ [1%nat]
  /\ outbox c'
     = outbox c2 ++ [ {| m_id := Some (IdNum (id c2));
                         m_method := Some (lit "shutdown"); m_params := None;
                         m_result := None; m_error := None |} ].
Proof.
  intros d c1 c2 c'.
  destruct (detachPlugin_shuts_down c2 0%nat [] [1%nat]) as (Hpl & Hout & _).
  - vm_compute. reflexivity.
  - apply not_elem_of_nil.
  - split; [exact Hpl|exact Hout].
Defined.

(** ** The request for completions *)

(** X18.  A request for completions on an open client whose server offers
    completions: the plugin first sends the whole text of the document as
    a change, under the version it had, and raises its version by one,
    also when the document has not changed since the last change; then it
    sends the request, under a new id, with the position and the trigger
    it was given, and waits for the response. *)
Theorem completion_request_sends_change (c : LspClient) (r : nat)
    (context : CompletionContext) (position : Position) (kind : N)
    (char : option JSString) (caps : json) (pl : LspPlugin) :
  isOpen c = true ->
  capabilities c = Some caps -> caps <> JNull ->
  truthy (get_property (lit "completionProvider") caps) = true ->
  views c !! r = Some pl ->
  exists p c',
    requestCompletion_begin r context position kind char c = (Return (Some p), c')
    /\ outbox c'
       = outbox c
         ++ [didChange_message (documentUri pl) (documentVersion pl)
               (doc_toString (ctx_doc context));
             {| m_id := Some (IdNum (id c));
                m_method := Some (lit "textDocument/completion");
                m_params := Some (CompletionRequest
                                    {| cp_uri := documentUri pl;
                                       cp_position := position;
                                       cp_triggerKind := kind;
                                       cp_triggerCharacter := char |});
                m_result := None; m_error := None |}]
    /\ version_of r c' = Some (documentVersion pl + 1)
    /\ is_Some (outboundRequests c' !! IdNum (id c))
    /\ promises c !! p = None
    /\ promises c' !! p = Some (Pending [])
    /\ id c' = id c + 1.
Proof.
  intros Ho Hcaps Hnull Hprov Hv.
  unfold requestCompletion_begin, textDocumentCompletion.
  rewrite Ho, Hcaps, Hprov, Hv. cbn [negb].
  destruct (sendChange_open r (doc_toString (ctx_doc context)) c pl Ho Hv)
    as (Hout & Hviews & Hopen).
  destruct (sendChange_only_notifies r (doc_toString (ctx_doc context)) c)
    as ((Hid & _ & _) & Hjobs & Hmap).
  set (c0 := sendChange r (doc_toString (ctx_doc context)) c) in *.
  assert (Hprom : promises c0 = promises c).
  { unfold c0, sendChange, textDocumentDidChange, notify, sendMessage.
    by rewrite Ho, Hv. }
  clearbody c0.
  match goal with |- context [request ?m ?ps c0] =>
    pose proof (request_pending m ps c0) as Hreq;
    pose proof (request_frame m ps c0) as Hframe;
    pose proof (request_spec m ps c0) as Hspec;
    destruct (request m ps c0) as [p c'] end.
  destruct (Hreq p c' eq_refl) as (q & (Hentry & _ & Hp) & Hid' & _ & Hfresh & _).
  cbn [snd] in Hframe. destruct Hframe as (_ & _ & _ & _ & _ & Hviews' & _).
  cbv zeta in Hspec. injection Hspec as _ Hc'.
  exists p, c'. destruct caps; try done; (split; [done|]).
  all: repeat split; try congruence.
  all: try (rewrite Hid in Hentry; by eexists).
  all: try (unfold version_of; rewrite Hviews', Hviews, lookup_insert_eq; done).
  all: rewrite Hc'; fields; rewrite Hout, Hid, <- app_assoc; done.
Qed.

Lemma completion_request_sends_change_witness :
  let caps := JObject [(lit "completionProvider", JObject [])] in
  let c0 := new_LspClient (lit "file:///") [] in
  let c1 := default c0
              (receive {| m_id := Some (IdNum 0); m_method := None;
                          m_params := None;
                          m_result := Some (JObject [(lit "capabilities", caps)]);
                          m_error := None |} (initialize c0).2) in
  let d := {| first_line := lit "st"; more_lines := [] |} in
  let c := (new_LspPlugin (lit "file:///main.zig") (lit "zig") d c1).2 in
  let context := {| ctx_doc := d; ctx_pos := 2; ctx_explicit := true |} in
  let position := {| p_line := 0; p_character := 2 |} in
  exists p c',
    requestCompletion_begin 0 context position Invoked None c
    = (Return (Some p), c')
    /\ sent_ids c' = [IdNum 0; IdNum 1]
    /\ version_of 0 c' = Some 1.
Proof.
  intros caps c0 c1 d c context position.
  destruct (completion_request_sends_change c 0%nat context position Invoked None
              caps
              {| documentUri := lit "file:///main.zig"; languageId := lit "zig";
                 documentVersion := 0; doc := d; shown := [] |})
    as (p & c' & Hrun & Hout & Hver & _).
  - vm_compute. reflexivity.
  - vm_compute. reflexivity.
  - discriminate.
  - vm_compute. reflexivity.
  - vm_compute. reflexivity.
  - exists p, c'. split; [exact Hrun|]. split; [|exact Hver].
    unfold sent_ids. rewrite Hout. vm_compute. reflexivity.
Defined.



(** ** The completion source of the editor *)

Lemma forallb_last {A} (f : A -> bool) l x :
  forallb f l = true -> last l = Some x -> f x = true.
Proof.
  intros Hall Hlast. apply last_Some in Hlast as [l' ->].
  rewrite forallb_app in Hall. apply andb_true_iff in Hall as [_ Hx].
  cbn in Hx. by rewrite andb_true_r in Hx.
Qed.

(** [/\w+$/] finds a match exactly when the text ends with a word
    character. *)
Lemma search_WORD str : forall i,
  is_defined (search WORD i str)
  = match last str with Some ch => is_word ch | None => false end.
Proof.
  induction str as [|c str IH]; intros i; [done|]. cbn [search].
  assert (Hset : forall x, in_set (p_first WORD) x = is_word x).
  { intros x. unfold in_set. cbn. by rewrite orb_false_r. }
  assert (Hrest : forallb (in_set (p_rest WORD)) str = forallb is_word str).
  { clear IH. induction str as [|x str IHs]; [done|]. cbn [forallb].
    by rewrite IHs, Hset. }
  rewrite Hset, Hrest.
  destruct str as [|c' str'].
  - cbn. by destruct (is_word c).
  - change (last (c :: c' :: str')) with (last (c' :: str')).
    destruct (is_word c && forallb is_word (c' :: str')) eqn:E; [|apply IH].
    apply andb_true_iff in E as [_ E]. cbn [is_defined].
    destruct (last (c' :: str')) as [x|] eqn:Hl.
    + symmetry. by apply (forallb_last is_word (c' :: str')).
    + by apply last_None in Hl.
Qed.

(** The text [matchBefore] looks at ends with the character before the
    cursor. *)
Lemma matchBefore_WORD context l :
  lineAt (ctx_doc context) (ctx_pos context) = Some l ->
  exists token,
    matchBefore context WORD = Some token
    /\ is_defined token
       = match char_at (l_text l)
                 (Z.of_N (ctx_pos context) - Z.of_N (l_from l) - 1) with
         | Some ch => is_word ch
         | None => false
         end.
Proof.
  intros Hl. unfold matchBefore. rewrite Hl.
  set (pos := ctx_pos context) in *.
  set (start := N.max (l_from l) (pos - 250)).
  set (str := take (N.to_nat (pos - start))
                (drop (N.to_nat (start - l_from l)) (l_text l))).
  eexists. split; [reflexivity|].
  assert (Hdef : is_defined
                   match search WORD 0 str with
                   | Some found =>
                       Some {| t_from := start + found; t_to := pos;
                               t_text := drop (N.to_nat found) str |}
                   | None => None
                   end = is_defined (search WORD 0 str))
    by by destruct (search WORD 0 str).
  rewrite Hdef, search_WORD. clear Hdef.
  unfold lineAt in Hl.
  pose proof (lineAt_in_line _ _ _ _ _ Hl ltac:(lia)) as (_ & _ & Hfrom).
  apply lineAt_in_bounds in Hl as (Hto & _ & _); [|lia].
  assert (Hlen : length str = N.to_nat (pos - start)).
  { unfold str. rewrite length_take, length_drop. unfold start. lia. }
  rewrite last_lookup, Hlen. unfold char_at.
  destruct (Z.ltb_spec (Z.of_N pos - Z.of_N (l_from l) - 1) 0) as [Hneg|Hpos].
  - assert (Hz : N.to_nat (pos - start) = 0%nat) by (unfold start; lia).
    rewrite Hz. cbn [pred]. destruct str; [done|]. cbn in Hlen. lia.
  - unfold str. rewrite lookup_take_lt by (unfold start; lia).
    rewrite lookup_drop.
    replace (N.to_nat (start - l_from l) + pred (N.to_nat (pos - start)))%nat
      with (Z.to_nat (Z.of_N pos - Z.of_N (l_from l) - 1))
      by (unfold start; lia).
    done.
Qed.

Lemma offsetToPos_lineAt d offset l :
  lineAt d offset = Some l ->
  offsetToPos d offset
  = Some {| p_line := l_number l - 1; p_character := offset - l_from l |}.
Proof. intros H. unfold offsetToPos. by rewrite H. Qed.

(** X20.  The completion source, when no trigger character applies, that
    is when the completion was asked for explicitly or when the character
    before the cursor is not one the server lists: the plugin is asked
    only if the character before the cursor is a word character, with the
    position of the cursor and the trigger kind [Invoked]; otherwise the
    source answers [null] at once and nothing is sent, also right after a
    trigger character when the completion was asked for explicitly. *)
Theorem completion_invoked_needs_word (c : LspClient) (r : nat)
    (context : CompletionContext) (l : Line) :
  let before := char_at (l_text l)
                  (Z.of_N (ctx_pos context) - Z.of_N (l_from l) - 1) in
  lineAt (ctx_doc context) (ctx_pos context) = Some l ->
  ctx_explicit context = true
  \/ optional_includes
       (get_optional (lit "triggerCharacters")
          (get_optional (lit "completionProvider") (capabilities c)))
       before = Return false ->
  completion_source r context c
  = if match before with Some ch => is_word ch | None => false end
    then requestCompletion_begin r context
           {| p_line := l_number l - 1;
              p_character := ctx_pos context - l_from l |} Invoked None c
    else (Return None, c).
Proof.
  intros before Hl Htrig. unfold completion_source. rewrite Hl. fold before.
  assert (Ht : (if ctx_explicit context then Return false
                else optional_includes
                       (get_optional (lit "triggerCharacters")
                          (get_optional (lit "completionProvider") (capabilities c)))
                       before) = Return false).
  { destruct Htrig as [->| ->]; [done|]. by destruct (ctx_explicit context). }
  rewrite Ht. cbn [N.eqb Invoked Pos.eqb].
  destruct (matchBefore_WORD context l Hl) as (token & -> & Hdef).
  fold before in Hdef. rewrite Hdef, (offsetToPos_lineAt _ _ _ Hl).
  by destruct (match before with Some ch => is_word ch | None => false end).
Qed.

Lemma completion_invoked_needs_word_witness :
  let d := {| first_line := lit "std."; more_lines := [] |} in
  let c := (new_LspPlugin (lit "file:///main.zig") (lit "zig") d open_client).2 in
  let context := {| ctx_doc := d; ctx_pos := 4; ctx_explicit := true |} in
  completion_source 0 context c = (Return None, c).
Proof.
  intros d c context.
  exact (completion_invoked_needs_word c 0%nat context
           {| l_number := 1; l_from := 0; l_text := lit "std." |}
           eq_refl (or_introl eq_refl)).
Defined.

(** X21.  The completion source, when the completion was not asked for
    explicitly and the character before the cursor is one of the trigger
    characters the server lists: the plugin is asked, with the position of
    the cursor, the trigger kind [TriggerCharacter] and this character,
    whether a word was typed before the cursor or not. *)
Theorem completion_on_trigger_character (c : LspClient) (r : nat)
    (context : CompletionContext) (l : Line) (ch : N) (tcs : list json) :
  lineAt (ctx_doc context) (ctx_pos context) = Some l ->
  ctx_explicit context = false ->
  char_at (l_text l) (Z.of_N (ctx_pos context) - Z.of_N (l_from l) - 1)
  = Some ch ->
  get_optional (lit "triggerCharacters")
    (get_optional (lit "completionProvider") (capabilities c))
  = Some (JArray tcs) ->
  JString [ch] ∈ tcs ->
  completion_source r context c
  = requestCompletion_begin r context
      {| p_line := l_number l - 1;
         p_character := ctx_pos context - l_from l |}
      TriggerCharacter (Some [ch]) c.
Proof.
  intros Hl Hexp Hch Htc Hin. unfold completion_source.
  rewrite Hl, Hexp, Hch, Htc. cbn [optional_includes].
  assert (Hex : existsb (fun v => match v with
                                  | JString s => eqb_string s [ch]
                                  | _ => false
                                  end) tcs = true).
  { apply existsb_exists. exists (JString [ch]).
    split; [by apply list_elem_of_In|]. unfold eqb_string.
    by apply bool_decide_eq_true_2. }
  rewrite Hex. cbn [N.eqb TriggerCharacter Invoked Pos.eqb fmap option_fmap option_map].
  by rewrite (offsetToPos_lineAt _ _ _ Hl).
Qed.

Lemma completion_on_trigger_character_witness :
  let caps := JObject [(lit "completionProvider",
                        JObject [(lit "triggerCharacters",
                                  JArray [JString (lit "."); JString (lit "@")])])] in
  let c0 := new_LspClient (lit "file:///") [] in
  let c1 := default c0
              (receive {| m_id := Some (IdNum 0); m_method := None;
                          m_params := None;
                          m_result := Some (JObject [(lit "capabilities", caps)]);
                          m_error := None |} (initialize c0).2) in
  let d := {| first_line := lit "std."; more_lines := [] |} in
  let c := (new_LspPlugin (lit "file:///main.zig") (lit "zig") d c1).2 in
  let context := {| ctx_doc := d; ctx_pos := 4; ctx_explicit := false |} in
  completion_source 0 context c
  = requestCompletion_begin 0 context {| p_line := 1 - 1; p_character := 4 - 0 |}
      TriggerCharacter (Some [46%N]) c.
Proof.
  intros caps c0 c1 d c context.
  apply (completion_on_trigger_character c 0%nat context
           {| l_number := 1; l_from := 0; l_text := lit "std." |} 46%N
           [JString (lit "."); JString (lit "@")]).
  - reflexivity.
  - reflexivity.
  - reflexivity.
  - vm_compute. reflexivity.
  - apply elem_of_cons. by left.
Defined.

(** ** Updates of the view *)

(** X26.  The updates of the view on an open client: every update in which
    the document changed sends the whole text of the document as it is
    after the update, under the next version, the versions going up by one
    from the version of the plugin; an update in which the document did
    not change sends nothing; and the version of the plugin ends at the
    number of changes sent above where it started. *)
Theorem updates_send_whole_text (edits : list (bool * Text)) :
  forall (c : LspClient) (r : nat) (pl : LspPlugin),
  isOpen c = true -> views c !! r = Some pl ->
  let c' := foldl (fun c (e : bool * Text) => update r e.1 e.2 c) c edits in
  let changed := List.filter (fun e : bool * Text => e.1) edits in
  outbox c'
  = outbox c ++ imap (fun k (e : bool * Text) =>
                        didChange_message (documentUri pl)
                          (documentVersion pl + Z.of_nat k)
                          (doc_toString e.2)) changed
  /\ version_of r c' = Some (documentVersion pl + Z.of_nat (length changed))
  /\ (doc <$> views c' !! r) = Some (default (doc pl) (snd <$> last edits)).
Proof.
  induction edits as [|[b d] edits IH]; intros c r pl Ho Hv;
    cbn [foldl List.filter fst snd].
  - cbn. unfold version_of. rewrite Hv, app_nil_r. cbn.
    repeat split. f_equal. lia.
  - set (pl1 := {| documentUri := documentUri pl; languageId := languageId pl;
                   documentVersion := documentVersion pl; doc := d;
                   shown := shown pl |}).
    set (c1 := set_views (<[r := pl1]> (views c)) c).
    assert (Hv1 : views c1 !! r = Some pl1) by apply lookup_insert_eq.
    assert (Hlast : default (doc pl) (snd <$> last ((b, d) :: edits))
                    = default d (snd <$> last edits)).
    { destruct edits as [|e edits]; [done|].
      change (last ((b, d) :: e :: edits)) with (last (e :: edits)).
      destruct (last (e :: edits)) eqn:E; [done|]. by apply last_None in E. }
    rewrite Hlast. clear Hlast.
    destruct b; cbn [negb].
    + assert (Hu : update r true d c = sendChange r (doc_toString d) c1).
      { unfold update. by rewrite Hv. }
      rewrite Hu.
      destruct (sendChange_open r (doc_toString d) c1 pl1) as (Hout & Hviews & Ho');
        [done|done|].
      edestruct (IH (sendChange r (doc_toString d) c1) r) as (Hout' & Hver' & Hdoc');
        [done|rewrite Hviews; apply lookup_insert_eq|].
      unfold pl1 in Hout', Hver', Hdoc', Hout.
      cbn [documentUri documentVersion doc] in Hout', Hver', Hdoc', Hout.
      cbn zeta. rewrite Hout', Hver', Hdoc', Hout. cbn [length imap].
      unfold c1. fields.
      split; [|split; [f_equal; lia|done]].
      rewrite <- app_assoc. cbn [app]. rewrite Z.add_0_r. do 2 f_equal.
      apply imap_ext. intros k x _. cbn. f_equal. lia.
    + assert (Hu : update r false d c = c1).
      { unfold update. by rewrite Hv. }
      rewrite Hu.
      destruct (IH c1 r pl1) as (Hout' & Hver' & Hdoc'); [done|done|].
      unfold pl1 in Hout', Hver', Hdoc'.
      cbn [documentUri documentVersion doc] in Hout', Hver', Hdoc'.
      cbn zeta. by rewrite Hout', Hver', Hdoc'.
Qed.

Lemma updates_send_whole_text_witness :
  let d0 := {| first_line := lit "a"; more_lines := [] |} in
  let d1 := {| first_line := lit "ab"; more_lines := [lit "c"] |} in
  let pl := {| documentUri := lit "file:///main.zig"; languageId := lit "zig";
               documentVersion := 0; doc := d0; shown := [] |} in
  let c := (new_LspPlugin (lit "file:///main.zig") (lit "zig") d0 open_client).2 in
  let edits := [(false, d0); (true, d1)] in
  let c' := foldl (fun c (e : bool * Text) => update 0 e.1 e.2 c) c edits in
  let changed := List.filter (fun e : bool * Text => e.1) edits in
  outbox c'
  = outbox c ++ imap (fun k (e : bool * Text) =>
                        didChange_message (documentUri pl)
                          (documentVersion pl + Z.of_nat k)
                          (doc_toString e.2)) changed
  /\ version_of 0 c' = Some (documentVersion pl + Z.of_nat (length changed))
  /\ (doc <$> views c' !! 0%nat) = Some (default (doc pl) (snd <$> last edits)).
Proof.
  intros d0 d1 pl c edits.
  apply (updates_send_whole_text edits c 0%nat pl); vm_compute; reflexivity.
Defined.

(** ** The pattern of the token *)

Lemma existsb_eqb_elem (c : N) (l : list N) :
  existsb (N.eqb c) l = true <-> c ∈ l.
Proof.
  rewrite existsb_exists. split.
  - intros (x & Hin & Heq). apply N.eqb_eq in Heq as ->. by apply list_elem_of_In.
  - intros Hin. exists c. split; [by apply list_elem_of_In|apply N.eqb_refl].
Qed.

Lemma existsb_is_word (l : list N) :
  existsb is_word l = true <-> exists x, x ∈ l /\ is_word x = true.
Proof.
  rewrite existsb_exists. split; intros (x & Hin & Hx); exists x;
    (split; [by apply list_elem_of_In|done]).
Qed.

(** The class holds the characters it was made of. *)
Lemma in_set_toSet_elem chars c : c ∈ chars -> in_set (toSet chars) c = true.
Proof.
  intros Hc. unfold toSet, in_set. cbn [cs_words cs_flat].
  destruct (existsb is_word chars) eqn:Hw.
  - rewrite andb_true_l. destruct (is_word c) eqn:E; [done|].
    rewrite orb_false_l. apply existsb_eqb_elem.
    apply list_elem_of_In, filter_In. split; [by apply list_elem_of_In|].
    by rewrite E.
  - rewrite andb_false_l, orb_false_l. by apply existsb_eqb_elem.
Qed.

(** X22.  The character class [toSet] writes accepts the characters it was
    given, and every word character as soon as one of them is a word
    character; it accepts no other character. *)
Theorem toSet_accepts (chars : JSString) (c : N) :
  in_set (toSet chars) c = true
  <-> c ∈ chars
      \/ (is_word c = true /\ exists x, x ∈ chars /\ is_word x = true).
Proof.
  split.
  - unfold toSet, in_set. cbn [cs_words cs_flat].
    destruct (existsb is_word chars) eqn:Hw.
    + apply existsb_is_word in Hw. rewrite andb_true_l, orb_true_iff.
      rewrite existsb_eqb_elem.
      intros [Hc|Hc]; [by right|]. left.
      apply list_elem_of_In, filter_In in Hc as [Hc _]. by apply list_elem_of_In.
    + rewrite andb_false_l, orb_false_l, existsb_eqb_elem. by left.
  - intros [Hc|(Hc & Hx)]; [by apply in_set_toSet_elem|].
    apply existsb_is_word in Hx. unfold toSet, in_set. cbn [cs_words cs_flat].
    by rewrite Hx, Hc.
Qed.

Lemma prefix_sets_elem options : forall o,
  o ∈ options ->
  (forall x, x ∈ (split_initial (apply o)).1 -> x ∈ (prefix_sets options).1)
  /\ (forall x, x ∈ (split_initial (apply o)).2 -> x ∈ (prefix_sets options).2).
Proof.
  induction options as [|o' options IH]; intros o Ho.
  - by apply elem_of_nil in Ho.
  - cbn [prefix_sets]. destruct (split_initial (apply o')) as [i r] eqn:Ei.
    destruct (prefix_sets options) as [f rs]. cbn [fst snd] in *.
    apply elem_of_cons in Ho as [->|Ho].
    + rewrite Ei. cbn [fst snd]. split; intros x Hx; apply elem_of_app; by left.
    + destruct (IH o Ho) as [H1 H2].
      split; intros x Hx; apply elem_of_app; right; auto.
Qed.

Lemma search_finds pat h w' pre : forall i,
  in_set (p_first pat) h = true ->
  forallb (in_set (p_rest pat)) w' = true ->
  exists found,
    search pat i (pre ++ h :: w') = Some found
    /\ (found <= i + N.of_nat (length pre))%N /\ (i <= found)%N.
Proof.
  intros i Hh Hw. revert i. induction pre as [|x pre IH]; intros i.
  - exists i. cbn [app search]. rewrite Hh, Hw. cbn. split; [done|lia].
  - cbn [app search].
    destruct (in_set (p_first pat) x && forallb (in_set (p_rest pat)) (pre ++ h :: w')).
    + exists i. split; [done|]. lia.
    + destruct (IH (i + 1)%N) as (found & Hs & Hle & Hge).
      exists found. split; [done|]. cbn [length]. lia.
Qed.

(** X23.  The start of an option that has been typed is taken as a token.
    When the text of the line before the cursor ends with a non-empty
    start [w] of what an option applies (an option whose first character
    is in the basic plane), there is a token; it ends at the cursor, it
    starts at the start of [w] or before it, and its text ends with
    [w]. *)
Theorem typed_start_is_token (context : CompletionContext)
    (options : list Completion) (o : Completion) (l : Line)
    (pre w more : JSString) :
  lineAt (ctx_doc context) (ctx_pos context) = Some l ->
  (ctx_pos context - l_from l <= 250)%N ->
  take (N.to_nat (ctx_pos context - l_from l)) (l_text l) = pre ++ w ->
  o ∈ options -> apply o = w ++ more -> w <> [] ->
  length (split_initial (apply o)).1 = 1%nat ->
  exists token pre',
    matchBefore context (prefixMatch options) = Some (Some token)
    /\ t_to token = ctx_pos context
    /\ (t_from token + N.of_nat (length w) <= ctx_pos context)%N
    /\ t_text token = pre' ++ w.
Proof.
  intros Hl H250 Hstr Ho Happly Hw Hbmp.
  destruct w as [|h w']; [done|]. clear Hw.
  destruct (prefix_sets_elem options o Ho) as [Hfirst Hrest].
  assert (Hsplit : split_initial (apply o) = ([h], w' ++ more)).
  { rewrite Happly in *. cbn [app] in *. unfold split_initial in *.
    destruct (w' ++ more) as [|x tl]; [done|].
    destruct ((55296 <=? h) && (h <=? 56319) && (56320 <=? x) && (x <=? 57343))%N;
      [done|done]. }
  rewrite Hsplit in Hfirst, Hrest. cbn [fst snd] in Hfirst, Hrest.
  unfold matchBefore, prefixMatch. rewrite Hl.
  destruct (prefix_sets options) as [F R]. cbn [fst snd] in Hfirst, Hrest.
  unfold lineAt in Hl.
  pose proof (lineAt_in_line _ _ _ _ _ Hl ltac:(lia)) as (_ & _ & Hfrom).
  apply lineAt_in_bounds in Hl as (Hto & _ & _); [|lia].
  replace (N.max (l_from l) (ctx_pos context - 250)) with (l_from l) by lia.
  rewrite N.sub_diag. change (N.to_nat 0) with 0%nat. rewrite drop_0, Hstr.
  set (pat := {| p_first := toSet F; p_rest := toSet R |}).
  destruct (search_finds pat h w' pre 0) as (found & Hs & Hle & _).
  { apply in_set_toSet_elem, Hfirst, elem_of_cons. by left. }
  { apply forallb_forall. intros x Hx. apply in_set_toSet_elem.
    apply Hrest, elem_of_app. left. by apply list_elem_of_In. }
  rewrite Hs. eexists _, (drop (N.to_nat found) pre).
  split; [reflexivity|]. cbn [t_to t_from t_text]. split; [done|].
  assert (Hlen : length (pre ++ h :: w')
                 = N.to_nat (ctx_pos context - l_from l)).
  { rewrite <- Hstr, length_take. lia. }
  rewrite length_app in Hlen. split; [lia|].
  rewrite drop_app_le by lia. done.
Qed.

Lemma typed_start_is_token_witness :
  let context := {| ctx_doc := {| first_line := lit "a = std.de";
                                  more_lines := [] |};
                    ctx_pos := 10; ctx_explicit := false |} in
  let options := [plain_option (lit "debug"); plain_option (lit "mem")] in
  exists token pre',
    matchBefore context (prefixMatch options) = Some (Some token)
    /\ t_to token = 10%N
    /\ (t_from token + 2 <= 10)%N
    /\ t_text token = pre' ++ lit "de".
Proof.
  intros context options.
  apply (typed_start_is_token context options (plain_option (lit "debug"))
           {| l_number := 1; l_from := 0; l_text := lit "a = std.de" |}
           (lit "a = std.") (lit "de") (lit "bug")).
  - reflexivity.
  - vm_compute. discriminate.
  - reflexivity.
  - apply elem_of_cons. by left.
  - reflexivity.
  - discriminate.
  - reflexivity.
Defined.

(** ** What the plugin makes of the response *)

Lemma to_option_None toLowerCase item :
  to_option toLowerCase item = None
  <-> exists k, ci_kind item = Some k /\ (25 < k)%N.
Proof.
  unfold to_option. destruct (ci_kind item) as [k|]; [|split; [done|by intros (? & ? & _)]].
  destruct k as [|k]; [split; [done|intros (? & [= <-] & ?); lia]|].
  destruct (CompletionItemKindMap (N.pos k)) as [name|] eqn:E.
  - split; [done|]. intros (k' & [= <-] & Hk).
    unfold CompletionItemKindMap in E.
    assert (Hnone : nth_error
              (map lit
                 ["Text"; "Method"; "Function"; "Constructor"; "Field";
                  "Variable"; "Class"; "Interface"; "Module"; "Property";
                  "Unit"; "Value"; "Enum"; "Keyword"; "Snippet"; "Color";
                  "File"; "Reference"; "Folder"; "EnumMember"; "Constant";
                  "Struct"; "Event"; "Operator"; "TypeParameter"]%string)
              (N.to_nat (N.pos k - 1)) = None).
    { apply nth_error_None. cbn [length map]. lia. }
    congruence.
  - split; [|done]. intros _. exists (N.pos k). split; [done|].
    unfold CompletionItemKindMap in E. apply nth_error_None in E.
    cbn [length map] in E. lia.
Qed.

Lemma lineAt_None d pos : lineAt d pos = None <-> (doc_length d < pos)%N.
Proof.
  unfold lineAt, doc_length. split.
  - intros H. apply lineAt_in_none in H as [H|H]; [lia|done].
  - intros H. destruct (lineAt_in (text_lines d) 1 0 pos) as [l|] eqn:E; [|done].
    apply lineAt_in_bounds in E as (_ & Hhi & _); lia.
Qed.

(** X24.  The handling of a response that holds items ends with an
    exception in two cases only: an item has a kind above 25, which has no
    name, or the cursor is past the end of the document.  In every other
    case it returns a result. *)
Theorem completion_fails_exactly (toLowerCase : JSString -> JSString)
    (context : CompletionContext) (r : completion_response) :
  let items := match r with ItemArray l => l | CompletionList _ l => l end in
  match requestCompletion_result toLowerCase context (Some r) with
  | Throw =>
      (exists item k, item ∈ items /\ ci_kind item = Some k /\ (25 < k)%N)
      \/ (doc_length (ctx_doc context) < ctx_pos context)%N
  | Return res =>
      is_Some res
      /\ (forall item k, item ∈ items -> ci_kind item = Some k -> (k <= 25)%N)
      /\ (ctx_pos context <= doc_length (ctx_doc context))%N
  | Hang => False
  end.
Proof.
  intros items. unfold requestCompletion_result. fold items.
  destruct (mapM (to_option toLowerCase) items) as [options|] eqn:Hmap.
  - assert (Hall : forall item k, item ∈ items -> ci_kind item = Some k ->
                                  (k <= 25)%N).
    { intros item k Hin Hk.
      assert (His : is_Some (mapM (to_option toLowerCase) items)) by by eexists.
      apply mapM_is_Some in His. rewrite Forall_forall in His.
      destruct (His item Hin) as [x Hx].
      destruct (N.le_gt_cases k 25) as [|Hgt]; [done|].
      assert (Hn : to_option toLowerCase item = None)
        by (apply to_option_None; by exists k).
      congruence. }
    unfold complete_options, matchBefore.
    destruct (lineAt (ctx_doc context) (ctx_pos context)) as [l|] eqn:Hl.
    + assert (Hpos : (ctx_pos context <= doc_length (ctx_doc context))%N).
      { destruct (N.le_gt_cases (ctx_pos context) (doc_length (ctx_doc context)))
          as [|Hgt]; [done|].
        apply lineAt_None in Hgt. congruence. }
      destruct (search _ 0 _); (split; [by eexists|done]).
    + right. by apply lineAt_None.
  - left.
    assert (Hnot : ~ Forall (is_Some ∘ to_option toLowerCase) items).
    { intros HF. apply mapM_is_Some in HF as [x Hx]. congruence. }
    apply not_Forall_Exists in Hnot; [|intros x; apply _].
    apply Exists_exists in Hnot as (item & Hin & Hitem).
    assert (Hn : to_option toLowerCase item = None).
    { destruct (to_option toLowerCase item) eqn:E; [|done].
      exfalso. apply Hitem. cbn. rewrite E. by eexists. }
    apply to_option_None in Hn as (k & Hk & Hgt). by exists item, k.
Qed.

Lemma filter_sublist {A} (f : A -> bool) l : List.filter f l `sublist_of` l.
Proof.
  induction l as [|x l IH]; cbn [List.filter]; [done|].
  destruct (f x); by constructor.
Qed.

(** X25.  The result of a request for completions holds options of the
    response only, none of them more often than the response does; it
    starts at the cursor or before it; and there is one option for each
    item, made of the label and of the fields of the item. *)
Theorem completion_result_from_items (toLowerCase : JSString -> JSString)
    (context : CompletionContext) (r : completion_response)
    (res : CompletionResult) :
  let items := match r with ItemArray l => l | CompletionList _ l => l end in
  requestCompletion_result toLowerCase context (Some r) = Return (Some res) ->
  exists options,
    mapM (to_option toLowerCase) items = Some options
    /\ cr_options res ⊆+ options
    /\ (cr_from res <= ctx_pos context)%N
    /\ Forall2 (fun item o =>
                  label o = ci_label item
                  /\ apply o = default (ci_label item) (ci_newText item)
                  /\ filterText o = default (ci_label item) (ci_filterText item)
                  /\ sortText o = default (ci_label item) (ci_sortText item)
                  /\ detail o = ci_detail item)
         items options.
Proof.
  intros items. unfold requestCompletion_result. fold items.
  destruct (mapM (to_option toLowerCase) items) as [options|] eqn:Hmap; [|done].
  intros Hres. exists options. split; [done|].
  assert (Hfields : Forall2 (fun item o =>
                  label o = ci_label item
                  /\ apply o = default (ci_label item) (ci_newText item)
                  /\ filterText o = default (ci_label item) (ci_filterText item)
                  /\ sortText o = default (ci_label item) (ci_sortText item)
                  /\ detail o = ci_detail item) items options).
  { apply mapM_Some in Hmap. eapply Forall2_impl; [exact Hmap|].
    intros item o Ho. cbn beta in Ho. unfold to_option in Ho.
    destruct (match ci_kind item with
              | Some 0%N | None => Some None
              | Some k =>
                  match CompletionItemKindMap k with
                  | Some name => Some (Some (toLowerCase name))
                  | None => None
                  end
              end); [|done].
    injection Ho as <-. by repeat split. }
  unfold complete_options in Hres.
  destruct (matchBefore context (prefixMatch options)) as [[token|]|] eqn:Hm;
    [| |done]; injection Hres as <-; cbn [cr_options cr_from].
  - split; [|split; [|done]].
    + destruct (is_word_string (toLowerCase (t_text token))); [|done].
      unfold rank_options. rewrite js_sort_perm.
      apply sublist_submseteq, filter_sublist.
    + apply matchBefore_left in Hm. lia.
  - by repeat split.
Qed.

Lemma completion_result_from_items_witness :
  let context := {| ctx_doc := {| first_line := lit "fo"; more_lines := [] |};
                    ctx_pos := 2; ctx_explicit := false |} in
  let r := ItemArray [plain_item (lit "foo"); plain_item (lit "foobar");
                      plain_item (lit "bar")] in
  exists options,
    mapM (to_option ascii_toLowerCase)
      [plain_item (lit "foo"); plain_item (lit "foobar"); plain_item (lit "bar")]
    = Some options
    /\ [plain_option (lit "foo"); plain_option (lit "foobar")] ⊆+ options
    /\ (0 <= 2)%N.
Proof.
  intros context r.
  destruct (completion_result_from_items ascii_toLowerCase context r
              {| cr_from := 0;
                 cr_options := [plain_option (lit "foo");
                                plain_option (lit "foobar")] |})
    as (options & Hmap & Hsub & Hfrom & _).
  - vm_compute. reflexivity.
  - exists options. split; [exact Hmap|]. split; [exact Hsub|exact Hfrom].
Defined.

(** ** Document sessions *)







Section session.

Variables (u : JSString) (r : nat).







End session.

Section session_steps.

Variables (u : JSString) (r : nat).















End session_steps.


